(** * TTSCacheService: cache, eviction and per-session sequencing

    A shallow embedding of [TTSCacheService] (TypeScript).  The static
    fields of the class form the record [State]; the JavaScript run time
    (promise cells, suspended [requestTTS] calls, console, exceptions that
    reached a caller, and a log of the generation calls that threw) forms
    the record [World].  Every synchronous block of
    the source is one function; the event loop is the executable step
    function [step], whose events are the public calls, the settlement of a
    generation call and the resumption of a suspended [requestTTS].

    Modelling conventions:
    - JavaScript numbers that hold sizes, counts and timestamps are [Z]
      (the code only adds and subtracts integers far below 2^53);
    - [Date.now()] is supplied by the environment with each event;
    - the cache is a JavaScript [Map], whose iteration order is insertion
      order: an association list with unique keys; the other maps are only
      read and written by key, or updated entry by entry, and are [gmap]s;
    - a value of type [any] is described by what the code observes of it:
      whether it is [null], [undefined], truthy, and what
      [JSON.stringify] makes of it;
    - the generation function has type [TTSFn]: a call either throws
      before it returns, or returns a promise, which later fulfils,
      rejects, or is overtaken by the timer; on which arguments it throws
      is part of the function, what becomes of a promise is decided by
      the environment, event by event;
    - the settlement of a [withTimeout] promise and the handlers that
      [preloadWithSettings] attached to it are one event, placed at the
      moment the handlers run: before it, no code sees a change; a
      suspended [requestTTS] goes on in an event of its own, at any later
      time, so every interleaving of the microtask queue is covered;
    - what a generation call does after its timer has fired only reaches
      the console and is left out. *)

From stdpp Require Import gmap strings list fin_maps sorting.
From Stdlib Require Import ZArith Lia.

Set Warnings "-clear-no-such-hyp".

Local Open Scope string_scope.
Local Open Scope list_scope.
Local Open Scope Z_scope.

(** ** Values of type [any] *)

Inductive any : Type :=
| null
| undefined
| value (label : string) (truthy : bool) (stringified : option nat).

(** [v !== null] *)
Definition not_null (v : any) : bool :=
  match v with null => false | _ => true end.

(** [!!v] *)
Definition truthy_any (v : any) : bool :=
  match v with value _ t _ => t | _ => false end.

(** [JSON.stringify(obj)]: [Some n] for a string of length [n], [None]
    when it throws or yields [undefined]. *)
Definition stringify_length (obj : any) : option nat :=
  match obj with
  | null => Some 4%nat
  | undefined => None
  | value _ _ j => j
  end.

Definition estimateSize (obj : any) : Z :=
  match stringify_length obj with
  | Some n => Z.of_nat n
  | None => 1000
  end.

(** ** Cache items *)

Inductive Status : Type := pending | completed | error.

#[global] Instance Status_eq_dec : EqDecision Status.
Proof. solve_decision. Defined.

Definition Status_eqb (a b : Status) : bool :=
  match a, b with
  | pending, pending | completed, completed | error, error => true
  | _, _ => false
  end.

Record CacheItem : Type := mkItem {
  promise : nat;
  result : any;
  timestamp : Z;
  size : Z;
  status : Status
}.

(** ** JavaScript [Map] with insertion order *)

Module JsMap.
Section Ops.
Context {V : Type}.

Fixpoint get (k : string) (m : list (string * V)) : option V :=
match m with
| [] => None
| (k', v) :: m' => if String.eqb k k' then Some v else get k m'
end.

Definition has (k : string) (m : list (string * V)) : bool :=
match get k m with Some _ => true | None => false end.

(** [set] keeps the position of a key that is already present and
  appends a new key at the end. *)
Fixpoint set (k : string) (v : V) (m : list (string * V)) : list (string * V) :=
match m with
| [] => [(k, v)]
| (k', v') :: m' =>
    if String.eqb k k' then (k, v) :: m' else (k', v') :: set k v m'
end.

Fixpoint delete (k : string) (m : list (string * V)) : list (string * V) :=
match m with
| [] => []
| (k', v') :: m' =>
    if String.eqb k k' then m' else (k', v') :: delete k m'
end.

Definition size (m : list (string * V)) : Z := Z.of_nat (length m).
End Ops.
End JsMap.

(** ** Arrays of keys *)

(** [queue.indexOf(key)], [-1] when absent. *)
Fixpoint indexOf (key : string) (queue : list string) : Z :=
  match queue with
  | [] => -1
  | k :: rest =>
      if String.eqb k key then 0
      else let i := indexOf key rest in if i <? 0 then -1 else i + 1
  end.

Definition includes (key : string) (queue : list string) : bool :=
  negb (indexOf key queue <? 0).

(** [queue.splice(index, 1)] *)
Definition splice1 (index : Z) (queue : list string) : list string :=
  take (Z.to_nat index) queue ++ drop (S (Z.to_nat index)) queue.

(** The loop body of the eviction's pass over one session queue. *)
Definition removeFromQueue (key : string) (queue : list string) : list string :=
  let index := indexOf key queue in
  if negb (index =? -1) then splice1 index queue else queue.

(** ** Static state of the service *)

Record Settings : Type := mkSettings {
  st_service : string;
  st_language : string;
  st_voice : string
}.

(** A generation function: its name and, for each tuple of arguments,
    whether a call throws (and what) instead of returning a promise.  What
    becomes of a returned promise is decided by the environment. *)
Record TTSFn : Type := mkFn {
  fn_name : string;
  fn_throws : string → string → string → string → option string
}.

(** A function that returns a promise on every call, as every [async]
    function does. *)
Definition returning (name : string) : TTSFn := mkFn name (λ _ _ _ _, None).

Record State : Type := mkState {
  sessionSettings : gmap string Settings;
  instance : bool;
  initialized : bool;
  ttsFn : option TTSFn;
  timeoutMs : Z;
  maxSize : Z;
  maxItems : Z;
  cache : list (string * CacheItem);
  currentSize : Z;
  sessionQueues : gmap string (list string);
  pendingPromises : gmap string nat
}.

Definition initialState : State :=
  {| sessionSettings := ∅;
     instance := false;
     initialized := false;
     ttsFn := None;
     timeoutMs := 5000;
     maxSize := 10 * 1024 * 1024;
     maxItems := 100;
     cache := [];
     currentSize := 0;
     sessionQueues := ∅;
     pendingPromises := ∅ |}.

Definition with_cache (c : list (string * CacheItem)) (s : State) : State :=
  mkState (sessionSettings s) (instance s) (initialized s) (ttsFn s)
          (timeoutMs s) (maxSize s) (maxItems s) c (currentSize s)
          (sessionQueues s) (pendingPromises s).

Definition with_currentSize (n : Z) (s : State) : State :=
  mkState (sessionSettings s) (instance s) (initialized s) (ttsFn s)
          (timeoutMs s) (maxSize s) (maxItems s) (cache s) n
          (sessionQueues s) (pendingPromises s).

Definition with_sessionQueues (q : gmap string (list string)) (s : State) : State :=
  mkState (sessionSettings s) (instance s) (initialized s) (ttsFn s)
          (timeoutMs s) (maxSize s) (maxItems s) (cache s) (currentSize s)
          q (pendingPromises s).

Definition with_pendingPromises (p : gmap string nat) (s : State) : State :=
  mkState (sessionSettings s) (instance s) (initialized s) (ttsFn s)
          (timeoutMs s) (maxSize s) (maxItems s) (cache s) (currentSize s)
          (sessionQueues s) p.

Definition with_sessionSettings (x : gmap string Settings) (s : State) : State :=
  mkState x (instance s) (initialized s) (ttsFn s)
          (timeoutMs s) (maxSize s) (maxItems s) (cache s) (currentSize s)
          (sessionQueues s) (pendingPromises s).

(** ** Key, limits and eviction *)

Definition generateKey (service language voice text : string) : string :=
  service +:+ "::" +:+ language +:+ "::" +:+ voice +:+ "::" +:+ text.

(** [entries.sort((a, b) => a[1].timestamp - b[1].timestamp)]: the sort of
    the language is stable, so ties keep the order of the [Map]. *)
Fixpoint insertByTimestamp (e : string * CacheItem)
    (l : list (string * CacheItem)) : list (string * CacheItem) :=
  match l with
  | [] => [e]
  | e' :: l' =>
      if timestamp (snd e') <? timestamp (snd e)
      then e' :: insertByTimestamp e l'
      else e :: e' :: l'
  end.

Definition sortByTimestamp (l : list (string * CacheItem)) : list (string * CacheItem) :=
  foldr insertByTimestamp [] l.

Definition overLimits (s : State) : bool :=
  (JsMap.size (cache s) >? maxItems s) || (currentSize s >? maxSize s).

(** The removal of one entry: lines 373-385 of the source. *)
Definition evict (oldestKey : string) (oldestItem : CacheItem) (s : State) : State :=
  let s1 := with_cache (JsMap.delete oldestKey (cache s)) s in
  let s2 := with_currentSize (currentSize s1 - size oldestItem) s1 in
  let s3 := with_pendingPromises (delete oldestKey (pendingPromises s2)) s2 in
  with_sessionQueues (removeFromQueue oldestKey <$> sessionQueues s3) s3.

(** The [while] loop over the sorted snapshot. *)
Fixpoint evictLoop (entries : list (string * CacheItem)) (s : State) : State :=
  match entries with
  | [] => s
  | (oldestKey, oldestItem) :: rest =>
      if overLimits s then
        if Status_eqb (status oldestItem) pending then evictLoop rest s
        else evictLoop rest (evict oldestKey oldestItem s)
      else s
  end.

Definition enforceCacheLimits (s : State) : State :=
  if overLimits s then evictLoop (sortByTimestamp (cache s)) s else s.

(** Lines 337-343: the bookkeeping of [setCacheItem] before the limits are
    enforced. *)
Definition storeItem (key : string) (item : CacheItem) (s : State) : State :=
  let s1 :=
    match JsMap.get key (cache s) with
    | Some oldItem => with_currentSize (currentSize s - size oldItem) s
    | None => s
    end in
  let s2 := with_cache (JsMap.set key item (cache s1)) s1 in
  with_currentSize (currentSize s2 + size item) s2.

Definition setCacheItem (key : string) (item : CacheItem) (s : State) : State :=
  enforceCacheLimits (storeItem key item s).

(** ** The run time: promises, suspended requests, console *)

(** How a promise has settled. *)
Inductive Settled : Type :=
| Fulfilled (v : any)
| Rejected (reason : string).

(** What the environment makes of one generation call: its promise
    fulfils, rejects, or the timer of [withTimeout] fires first. *)
Inductive Outcome : Type :=
| Resolves (v : any)
| Rejects (reason : string)
| TimesOut.

Inductive LogEntry : Type :=
| Warn (msg : string)
| Error (msg : string).

(** Where [ttsFn] was called: in [preloadWithSettings] or in the last
    branch of [requestTTS]. *)
Inductive Origin : Type :=
| FromPreload
| FromRequest.

(** One call of [ttsFn] together with the promise the service keeps for
    it: the constant [promise] of [preloadWithSettings] (the [withTimeout]
    promise followed by its [then] and [catch] handlers), or the
    [withTimeout] promise of [requestTTS].  [c_state] is [None] until that
    promise settles.  Promises are named by their index in the heap. *)
Record Call : Type := mkCall {
  c_fn : TTSFn;
  c_service : string;
  c_language : string;
  c_voice : string;
  c_text : string;
  c_timeout : Z;
  c_origin : Origin;
  c_state : option Settled
}.

(** A call of [ttsFn] that threw: its arguments and what it threw. *)
Record Thrown : Type := mkThrown {
  th_service : string;
  th_language : string;
  th_voice : string;
  th_text : string;
  th_error : string
}.

(** A call of [requestTTS], by the [await] it is suspended at. *)
Inductive Task : Type :=
| AtBarrier (service language voice text sessionId : string) (waits : list nat)
| AwaitItem (p : nat)
| AwaitDirect (key : string) (p : nat)
| Done (r : Settled).

(** The [key] that the handlers of a call close over. *)
Definition callKey (c : Call) : string :=
  generateKey (c_service c) (c_language c) (c_voice c) (c_text c).

Record World : Type := mkWorld {
  svc : State;
  heap : list Call;
  tasks : list Task;
  console : list LogEntry;
  uncaught : list string;
  thrown : list Thrown
}.

Definition initialWorld : World :=
  {| svc := initialState; heap := []; tasks := []; console := []; uncaught := [];
     thrown := [] |}.

Definition with_svc (s : State) (w : World) : World :=
  mkWorld s (heap w) (tasks w) (console w) (uncaught w) (thrown w).

Definition log (e : LogEntry) (w : World) : World :=
  mkWorld (svc w) (heap w) (tasks w) (console w ++ [e]) (uncaught w) (thrown w).

Definition logs (es : list LogEntry) (w : World) : World :=
  mkWorld (svc w) (heap w) (tasks w) (console w ++ es) (uncaught w) (thrown w).

Definition alloc (c : Call) (w : World) : World :=
  mkWorld (svc w) (heap w ++ [c]) (tasks w) (console w) (uncaught w) (thrown w).

Definition spawn (t : Task) (w : World) : World :=
  mkWorld (svc w) (heap w) (tasks w ++ [t]) (console w) (uncaught w) (thrown w).

Definition setTask (rid : nat) (t : Task) (w : World) : World :=
  mkWorld (svc w) (heap w) (<[rid := t]> (tasks w)) (console w) (uncaught w) (thrown w).

Definition raise (e : string) (w : World) : World :=
  mkWorld (svc w) (heap w) (tasks w) (console w) (uncaught w ++ [e]) (thrown w).

(** [ttsFn] was called and threw. *)
Definition throwing (t : Thrown) (w : World) : World :=
  mkWorld (svc w) (heap w) (tasks w) (console w) (uncaught w) (thrown w ++ [t]).

Definition setState (r : Settled) (c : Call) : Call :=
  mkCall (c_fn c) (c_service c) (c_language c) (c_voice c)
         (c_text c) (c_timeout c) (c_origin c) (Some r).

Definition settleCall (p : nat) (r : Settled) (w : World) : World :=
  mkWorld (svc w) (alter (setState r) p (heap w))
          (tasks w) (console w) (uncaught w) (thrown w).

(** The state of promise [p]. *)
Definition promiseState (p : nat) (w : World) : option Settled :=
  c ← heap w !! p; c_state c.

Definition isSettled (w : World) (p : nat) : bool :=
  match promiseState p w with Some _ => true | None => false end.

(** A synchronous block either returns or throws; either way it leaves a
    world behind. *)
Inductive Completion (A : Type) : Type :=
| Returns (a : A)
| Throws (e : string) (a : A).
Arguments Returns {A} a.
Arguments Throws {A} e a.

Definition notAFunction : string := "TypeError: TTSCacheService.ttsFn is not a function".

(** ** Public operations *)

Definition initialize (ttsServiceFn : TTSFn)
    (maxCacheSize maxCacheItems requestTimeoutMs : Z) (s : State) : State :=
  mkState (sessionSettings s)
          (if negb (instance s) then true else instance s)
          true
          (Some ttsServiceFn)
          requestTimeoutMs maxCacheSize maxCacheItems
          (cache s) (currentSize s) (sessionQueues s) (pendingPromises s).

Definition uninitialize (s : State) : State :=
  mkState ∅ false false (ttsFn s) (timeoutMs s) (maxSize s) (maxItems s)
          [] 0 ∅ ∅.

Record CacheStats : Type := mkStats {
  currentItems : Z;
  stats_maxItems : Z;
  stats_currentSize : Z;
  stats_maxSize : Z
}.

Definition getCacheStats (w : World) : CacheStats * World :=
  (mkStats (JsMap.size (cache (svc w))) (maxItems (svc w))
           (currentSize (svc w)) (maxSize (svc w)), w).

Definition hasCompletedItem (service language voice text : string) (w : World)
    : bool * World :=
  if negb (initialized (svc w)) then
    (false, log (Warn "TTSCacheService: Not initialized when checking for completed item") w)
  else
    let key := generateKey service language voice text in
    match JsMap.get key (cache (svc w)) with
    | Some item => (Status_eqb (status item) completed && truthy_any (result item), w)
    | None => (false, w)
    end.

Definition hasPending (service language voice text : string) (w : World)
    : bool * World :=
  if negb (initialized (svc w)) then
    (false, log (Warn "TTSCacheService: Not initialized when checking for pending request") w)
  else
    let key := generateKey service language voice text in
    match JsMap.get key (cache (svc w)) with
    | Some item => (Status_eqb (status item) pending, w)
    | None => (false, w)
    end.

Definition setSessionSettings (sessionId service language voice : string) (w : World)
    : World :=
  if negb (initialized (svc w)) then
    log (Warn "TTSCacheService: Not initialized when setting session settings") w
  else
    with_svc (with_sessionSettings
                (<[sessionId := mkSettings service language voice]>
                   (sessionSettings (svc w))) (svc w)) w.

(** [if (!sessionQueues.has(sessionId)) sessionQueues.set(sessionId, [])] *)
Definition ensureQueue (sessionId : string) (s : State) : State :=
  match sessionQueues s !! sessionId with
  | Some _ => s
  | None => with_sessionQueues (<[sessionId := []]> (sessionQueues s)) s
  end.

(** [sessionQueues.get(sessionId)!.push(key)] *)
Definition pushKey (sessionId key : string) (s : State) : State :=
  with_sessionQueues (alter (λ queue, queue ++ [key]) sessionId (sessionQueues s)) s.

Definition preloadWithSettings (service language voice text sessionId : string)
    (now : Z) (w : World) : Completion World :=
  let key := generateKey service language voice text in
  if JsMap.has key (cache (svc w)) then Returns w
  else
    match ttsFn (svc w) with
    | None => Throws notAFunction w
    | Some fn =>
        match fn_throws fn service language voice text with
        | Some e => Throws e (throwing (mkThrown service language voice text e) w)
        | None =>
            let p := length (heap w) in
            let w1 := alloc (mkCall fn service language voice text
                                    (timeoutMs (svc w)) FromPreload None) w in
            let s1 := with_pendingPromises (<[key := p]> (pendingPromises (svc w1)))
                                           (svc w1) in
            let s2 := setCacheItem key (mkItem p undefined now 0 pending) s1 in
            let s3 := ensureQueue sessionId s2 in
            Returns (with_svc (pushKey sessionId key s3) w1)
        end
    end.

Definition preloadTTS (text sessionId : string) (now : Z) (w : World) : World :=
  if negb (initialized (svc w)) then
    log (Warn "TTSCacheService: Not initialized when preloading TTS") w
  else
    match sessionSettings (svc w) !! sessionId with
    | None => log (Warn "[preloadTTS] No settings found for session") w
    | Some settings =>
        match preloadWithSettings (st_service settings) (st_language settings)
                                  (st_voice settings) text sessionId now w with
        | Returns w' => w'
        | Throws e w' => raise e w'
        end
    end.

(** The synchronous part of [waitForPrecedingItems]: the promises that
    [Promise.all] will wait for. *)
Definition precedingPromises (sessionId currentKey : string) (s : State) : list nat :=
  let queue := default [] (sessionQueues s !! sessionId) in
  let currentIndex := indexOf currentKey queue in
  if currentIndex <=? 0 then []
  else
    let precedingKeys := take (Z.to_nat currentIndex) queue in
    omap (λ key, promise <$> JsMap.get key (cache s)) precedingKeys.

(** [requestTTS] up to its first [await].  What [preloadWithSettings]
    throws is thrown outside the [try] of line 250: the promise that the
    [async] function returns is rejected with it. *)
Definition requestTTS (service language voice text sessionId : string)
    (now : Z) (w : World) : World :=
  if negb (initialized (svc w)) then
    spawn (Done (Fulfilled null))
          (log (Warn "TTSCacheService: Not initialized when requesting TTS") w)
  else
    let w1 := setSessionSettings sessionId service language voice w in
    let key := generateKey service language voice text in
    let w2 := with_svc (ensureQueue sessionId (svc w1)) w1 in
    let sessionQueue := default [] (sessionQueues (svc w2) !! sessionId) in
    let r := if negb (includes key sessionQueue)
             then preloadWithSettings service language voice text sessionId now w2
             else Returns w2 in
    match r with
    | Throws e w3 => spawn (Done (Rejected e)) w3
    | Returns w3 =>
        spawn (AtBarrier service language voice text sessionId
                         (precedingPromises sessionId key (svc w3))) w3
    end.

(** ** Settlement of a generation call *)

(** [withTimeout]: the promise it returns never rejects. *)
Definition withTimeout (o : Outcome) (timeout : Z) : Settled * list LogEntry :=
  match o with
  | Resolves v => (Fulfilled v, [])
  | Rejects _ => (Fulfilled null, [Error "Error in TTS service:"])
  | TimesOut => (Fulfilled null, [Warn "TTS request timed out"])
  end.

(** The [then] and [catch] handlers of [preloadWithSettings], run on the
    settled [withTimeout] promise; the second component is how the
    constant [promise] settles. *)
Definition preloadHandlers (key : string) (p : nat) (r : Settled) (now : Z)
    (s : State) : State * Settled :=
  match r with
  | Fulfilled result =>
      if not_null result then
        (setCacheItem key (mkItem p result now (estimateSize result) completed) s,
         Fulfilled result)
      else
        (setCacheItem key (mkItem p undefined now 0 error) s, Fulfilled null)
  | Rejected _ =>
      (setCacheItem key (mkItem p undefined now 0 error) s, Fulfilled null)
  end.

(** The generation call behind promise [p] comes to outcome [o]. *)
Definition settle (p : nat) (o : Outcome) (now : Z) (w : World) : option World :=
  match heap w !! p with
  | Some c =>
      match c_state c with
      | Some _ => None
      | None =>
          let '(r, out) := withTimeout o (c_timeout c) in
          let w1 := logs out w in
          match c_origin c with
          | FromPreload =>
              let '(s', r') := preloadHandlers (callKey c) p r now (svc w1) in
              Some (settleCall p r' (with_svc s' w1))
          | FromRequest => Some (settleCall p r w1)
          end
      end
  | None => None
  end.

(** ** Resumption of a suspended [requestTTS] *)

(** After the barrier: lines 250-266.  Here the call of [ttsFn] is inside
    the outer [try]: what it throws is caught at line 285. *)
Definition afterBarrier (rid : nat) (service language voice text : string)
    (w : World) : World :=
  let key := generateKey service language voice text in
  match JsMap.get key (cache (svc w)) with
  | Some item =>
      if Status_eqb (status item) completed && truthy_any (result item)
      then setTask rid (Done (Fulfilled (result item))) w
      else setTask rid (AwaitItem (promise item)) w
  | None =>
      match ttsFn (svc w) with
      | None =>
          setTask rid (Done (Fulfilled null)) (log (Error "Error in requestTTS:") w)
      | Some fn =>
          match fn_throws fn service language voice text with
          | Some e =>
              setTask rid (Done (Fulfilled null))
                      (log (Error "Error in requestTTS:")
                           (throwing (mkThrown service language voice text e) w))
          | None =>
              let p := length (heap w) in
              setTask rid (AwaitDirect key p)
                      (alloc (mkCall fn service language voice text
                                     (timeoutMs (svc w)) FromRequest None) w)
          end
      end
  end.

(** After [await item.promise]: lines 258-259 and the outer [catch]. *)
Definition afterItem (rid : nat) (r : Settled) (w : World) : World :=
  match r with
  | Fulfilled v => setTask rid (Done (Fulfilled v)) w
  | Rejected _ =>
      setTask rid (Done (Fulfilled null)) (log (Error "Error in requestTTS:") w)
  end.

(** After [await promise] in the last branch: lines 268-283. *)
Definition afterDirect (rid : nat) (key : string) (p : nat) (r : Settled)
    (now : Z) (w : World) : World :=
  match r with
  | Fulfilled v =>
      let w' :=
        if not_null v
        then with_svc (setCacheItem key (mkItem p v now (estimateSize v) completed)
                                    (svc w)) w
        else w in
      setTask rid (Done (Fulfilled v)) w'
  | Rejected _ =>
      setTask rid (Done (Fulfilled null)) (log (Error "Error in TTS request:") w)
  end.

Definition resume (rid : nat) (now : Z) (w : World) : option World :=
  match tasks w !! rid with
  | Some (AtBarrier service language voice text sessionId waits) =>
      if forallb (isSettled w) waits
      then Some (afterBarrier rid service language voice text w)
      else None
  | Some (AwaitItem p) =>
      match promiseState p w with
      | Some r => Some (afterItem rid r w)
      | None => None
      end
  | Some (AwaitDirect key p) =>
      match promiseState p w with
      | Some r => Some (afterDirect rid key p r now w)
      | None => None
      end
  | Some (Done _) | None => None
  end.

(** ** The event loop *)

Inductive Event : Type :=
| Initialize (ttsServiceFn : TTSFn) (maxCacheSize maxCacheItems requestTimeoutMs : Z)
| Uninitialize
| GetCacheStats
| HasCompletedItem (service language voice text : string)
| HasPending (service language voice text : string)
| SetSessionSettings (sessionId service language voice : string)
| PreloadTTS (text sessionId : string) (now : Z)
| RequestTTS (service language voice text sessionId : string) (now : Z)
| Settle (p : nat) (o : Outcome) (now : Z)
| Resume (rid : nat) (now : Z).

(** [None]: the event cannot happen in this world (the promise is settled
    or unknown, the request is not ready to go on). *)
Definition step (e : Event) (w : World) : option World :=
  match e with
  | Initialize fn ms mi t => Some (with_svc (initialize fn ms mi t (svc w)) w)
  | Uninitialize => Some (with_svc (uninitialize (svc w)) w)
  | GetCacheStats => Some (snd (getCacheStats w))
  | HasCompletedItem a b c d => Some (snd (hasCompletedItem a b c d w))
  | HasPending a b c d => Some (snd (hasPending a b c d w))
  | SetSessionSettings i a b c => Some (setSessionSettings i a b c w)
  | PreloadTTS text i now => Some (preloadTTS text i now w)
  | RequestTTS a b c d i now => Some (requestTTS a b c d i now w)
  | Settle p o now => settle p o now w
  | Resume rid now => resume rid now w
  end.

Fixpoint run (es : list Event) (w : World) : option World :=
  match es with
  | [] => Some w
  | e :: es' => match step e w with Some w' => run es' w' | None => None end
  end.

(** The worlds the service can be in. *)
Definition reachable (w : World) : Prop :=
  ∃ es, run es initialWorld = Some w.

(** Result delivered to the caller of request [rid], once it has one. *)
Definition requestResult (rid : nat) (w : World) : option Settled :=
  match tasks w !! rid with
  | Some (Done r) => Some r
  | _ => None
  end.

(** ** The scenarios of the test suite *)

Module Scenarios.

(** What [mockTTSFn] of the test suite resolves with, for a text on
    ("aws", "en-US", "female"): the JSON text of the object has 80
    characters besides the text and the digits of the duration, which is
    100 times the length of the text. *)
Definition audio (text : string) : any :=
  let n := String.length text in
  let digits := match n with
                | O => 1
                | _ => if (n <? 10)%nat then 3 else if (n <? 100)%nat then 4 else 5
                end%nat in
  value text true (Some (80 + n + digits)%nat).

Definition k (text : string) : string := generateKey "aws" "en-US" "female" text.

(** 'implements LRU cache eviction' *)
Definition lru : list Event :=
[ Initialize (returning "mockTTSFn") 1000 3 5000;
  SetSessionSettings "lru-test" "aws" "en-US" "female";
  RequestTTS "aws" "en-US" "female" "Item 1" "lru-test" 0;
  Resume 0 0; Settle 0 (Resolves (audio "Item 1")) 50; Resume 0 50;
  RequestTTS "aws" "en-US" "female" "Item 2" "lru-test" 51;
  Resume 1 51; Settle 1 (Resolves (audio "Item 2")) 101; Resume 1 101;
  RequestTTS "aws" "en-US" "female" "Item 3" "lru-test" 102;
  Resume 2 102; Settle 2 (Resolves (audio "Item 3")) 152; Resume 2 152 ].

Definition lru4 : list Event :=
[ RequestTTS "aws" "en-US" "female" "Item 4" "lru-test" 153;
  Resume 3 153; Settle 3 (Resolves (audio "Item 4")) 203; Resume 3 203 ].

End Scenarios.

(** * Vocabulary of the properties *)

(** ** Sizes and order *)

(** The sum that [currentSize] is meant to hold. *)
Definition sumSizes (m : list (string * CacheItem)) : Z :=
  foldr (λ e acc, size e.2 + acc) 0 m.

(** The size of the entry stored under [k], 0 when there is none. *)
Definition sizeAt (k : string) (m : list (string * CacheItem)) : Z :=
  match JsMap.get k m with Some old => size old | None => 0 end.



(** ** Eviction *)

Definition evictable (e : string * CacheItem) : bool :=
  negb (Status_eqb (status e.2) pending).

(** The entries the loop may remove, oldest first. *)
Definition candidates (s : State) : list (string * CacheItem) :=
  List.filter evictable (sortByTimestamp (cache s)).

(** The removals of the loop, one after the other. *)
Definition evictAll (victims : list (string * CacheItem)) (s : State) : State :=
  foldl (λ st e, evict e.1 e.2 st) s victims.

(** The entries still to be visited by the loop are entries of the cache. *)
Definition live (entries : list (string * CacheItem)) (s : State) : Prop :=
  NoDup entries.*1 ∧ ∀ k it, (k, it) ∈ entries → JsMap.get k (cache s) = Some it.

(** The fields that only [initialize], [uninitialize] and
    [setSessionSettings] write. *)
Definition config (s : State) :=
  (sessionSettings s, instance s, initialized s, ttsFn s,
   timeoutMs s, maxSize s, maxItems s).

(** Session queues only lose keys, and no session is dropped or added. *)
Definition queues_shrink (s s' : State) : Prop :=
  ∀ sid, match sessionQueues s' !! sid, sessionQueues s !! sid with
         | Some q', Some q => ∀ x, x ∈ q' → x ∈ q
         | None, None => True
         | _, _ => False
         end.

(** ** Invariants *)

(** The static state: the keys of the [Map] are unique, the counter is
    the sum of the sizes, every queue is free of duplicates and holds
    cached keys only, an initialised service has its generation function,
    and a service that is not initialised has no queue. *)
Record state_ok (s : State) : Prop := mkStateOk {
  ok_keys : NoDup (cache s).*1;
  ok_size : currentSize s = sumSizes (cache s);
  ok_queues : ∀ sid q, sessionQueues s !! sid = Some q →
              NoDup q ∧ ∀ k, k ∈ q → is_Some (JsMap.get k (cache s));
  ok_fn : initialized s = true → is_Some (ttsFn s);
  ok_uninit : initialized s = false → sessionQueues s = ∅
}.

(** The promise of a cache entry is the promise of a call for the entry's
    key; while the entry is pending, that call was started by
    [preloadWithSettings] and its promise is not settled. *)
Definition item_ok (h : list Call) (k : string) (it : CacheItem) : Prop :=
  ∃ c, h !! promise it = Some c ∧ callKey c = k ∧
       (status it = pending → c_state c = None ∧ c_origin c = FromPreload).

(** A suspended request waits for promises that exist. *)
Definition task_ok (h : list Call) (t : Task) : Prop :=
  match t with
  | AtBarrier _ _ _ _ _ waits => ∀ p, p ∈ waits → is_Some (h !! p)
  | AwaitItem p => is_Some (h !! p)
  | AwaitDirect key p =>
      ∃ c, h !! p = Some c ∧ callKey c = key ∧ c_origin c = FromRequest
  | Done _ => True
  end.

Record world_ok (w : World) : Prop := mkWorldOk {
  wk_state : state_ok (svc w);
  wk_cache : ∀ k it, JsMap.get k (cache (svc w)) = Some it → item_ok (heap w) k it;
  wk_tasks : ∀ rid t, tasks w !! rid = Some t → task_ok (heap w) t;
  wk_heap : ∀ p c r, heap w !! p = Some c → c_state c = Some r → ∃ v, r = Fulfilled v
}.

(** ** The cache key *)

Definition colon : Ascii.ascii := Ascii.Ascii false true false true true true false false.

Fixpoint noColon (s : string) : bool :=
  match s with
  | EmptyString => true
  | String c s' => negb (Ascii.eqb c colon) && noColon s'
  end.

(** ** Generation calls *)

Definition sameTuple (service language voice text : string) (c : Call) : bool :=
  String.eqb (c_service c) service && String.eqb (c_language c) language
  && String.eqb (c_voice c) voice && String.eqb (c_text c) text.

Definition sameArgs (service language voice text : string) (t : Thrown) : bool :=
  String.eqb (th_service t) service && String.eqb (th_language t) language
  && String.eqb (th_voice t) voice && String.eqb (th_text t) text.

(** How many times [ttsFn] has been called with the given arguments:
    the calls that returned a promise and the calls that threw. *)
Definition invocations (service language voice text : string) (w : World) : nat :=
  (length (List.filter (sameTuple service language voice text) (heap w))
   + length (List.filter (sameArgs service language voice text) (thrown w)))%nat.

(** The entry for [key] is in the cache before every event of the run. *)
Fixpoint cachedThroughout (key : string) (es : list Event) (w : World) : Prop :=
  JsMap.has key (cache (svc w)) = true ∧
  match es with
  | [] => True
  | e :: es' =>
      match step e w with
      | Some w' => cachedThroughout key es' w'
      | None => True
      end
  end.

(** The generation call fails: its promise rejects, or fulfils with
    [null], or the timer fires first. *)
Definition failing (o : Outcome) : Prop :=
  match o with
  | Resolves v => v = null
  | Rejects _ => True
  | TimesOut => True
  end.

(** ** Requests *)

(** Request [rid] is suspended on promise [p], after the barrier. *)
Definition awaits (w : World) (rid p : nat) : Prop :=
  tasks w !! rid = Some (AwaitItem p) ∨ ∃ key, tasks w !! rid = Some (AwaitDirect key p).

(** Nothing was thrown at a caller and no request was rejected. *)
Definition calm (w : World) : Prop :=
  uncaught w = []
  ∧ ∀ rid r, tasks w !! rid = Some (Done r) → ∃ v, r = Fulfilled v.

(** Completed or failed. *)
Definition terminal (st : Status) : Prop := st = completed ∨ st = error.

(** [A] comes before [B] in the queue. *)
Definition precedes (A B : string) (queue : list string) : Prop :=
  0 ≤ indexOf A queue ∧ indexOf A queue < indexOf B queue.

(** ** Runs used as examples *)

(** Two pending entries under a limit of one entry. *)
Definition crowded : list Event :=
  [ Initialize (returning "tts") 1000 1 5000;
    SetSessionSettings "s" "aws" "en-US" "female";
    PreloadTTS "one" "s" 0;
    PreloadTTS "two" "s" 1 ].

(** One of the two pending entries of [crowded] fails: the entry that
    records the failure is at once the only one the eviction may remove. *)
Definition crowdedFailure : list Event :=
  crowded ++ [ Settle 0 (Rejects "Mock TTS service failure") 5 ].

(** The test 'preloads TTS content', up to the preload. *)
Definition repeated : list Event :=
  [ Initialize (returning "mockTTSFn") 10485760 100 5000;
    SetSessionSettings "test-session" "aws" "en-US" "female";
    PreloadTTS "Hello world" "test-session" 0 ].

(** The test 'handles errors gracefully', up to the moment the request
    waits for the generation call. *)
Definition failingRun : list Event :=
  [ Initialize (returning "mockFailingTTSFn") 10485760 100 5000;
    SetSessionSettings "error-test" "aws" "en-US" "female";
    RequestTTS "aws" "en-US" "female" "Fail test" "error-test" 0;
    Resume 0 0 ].

(** The last branch of [requestTTS] stores nothing when its own generation
    call fails.  Here the entry of the requested key is evicted while the
    request waits at the barrier; the request then calls [ttsFn] itself,
    the call rejects, the request is fulfilled with [null], and the cache
    holds no entry for the key. *)
Definition directFailure : list Event :=
  [ Initialize (returning "tts") 10 100 5000;
    SetSessionSettings "s" "aws" "en-US" "female";
    PreloadTTS "Y" "s" 0;
    PreloadTTS "X" "s" 1;
    Settle 1 (Resolves (value "X" true (Some 5%nat))) 2;
    RequestTTS "aws" "en-US" "female" "X" "s" 3;
    Settle 0 (Resolves (value "Y" true (Some 8%nat))) 4;
    Resume 0 5;
    Settle 2 (Rejects "Mock TTS service failure") 6;
    Resume 0 7 ].

(** One session is served while the other still waits. *)
Definition twoSessions : list Event :=
  [ Initialize (returning "tts") 10485760 100 5000;
    SetSessionSettings "S" "aws" "en-US" "female";
    PreloadTTS "First" "S" 0;
    RequestTTS "aws" "en-US" "female" "Third" "T" 1;
    Settle 1 (Resolves (value "Third" true (Some 90%nat))) 51;
    Resume 0 51 ].

(** The test 'maintains sequence order': three preloads; then, after the
    request for the third text, its generation call is the first to
    finish. *)
Definition sequenceSetup : list Event :=
  [ Initialize (returning "mockVariableDelayTTSFn") 10485760 100 5000;
    SetSessionSettings "sequence-test" "aws" "en-US" "female";
    PreloadTTS "First" "sequence-test" 0;
    PreloadTTS "Second" "sequence-test" 0;
    PreloadTTS "Third" "sequence-test" 0 ].

Definition sequenceRest : list Event :=
  [ Settle 2 (Resolves (value "Third" true (Some 56%nat))) 50;
    Settle 0 (Resolves (value "First" true (Some 56%nat))) 100;
    Settle 1 (Resolves (value "Second" true (Some 58%nat))) 200;
    Resume 0 200 ].

(** A generation function that throws before it returns a promise. *)
Definition boom : TTSFn := mkFn "boom" (λ _ _ _ _, Some "Error: boom").

(** A request, and a preload, with such a function. *)
Definition throwingRun : list Event :=
  [ Initialize boom 10485760 100 5000;
    RequestTTS "aws" "en-US" "female" "Hello world" "s" 0;
    PreloadTTS "Hello world" "s" 1 ].

(** The entry of the requested key is evicted while the request waits at
    the barrier, as in [directFailure]; the service is then given the
    function that throws, and the request goes on. *)
Definition directThrow : list Event :=
  [ Initialize (returning "tts") 10 100 5000;
    SetSessionSettings "s" "aws" "en-US" "female";
    PreloadTTS "Y" "s" 0;
    PreloadTTS "X" "s" 1;
    Settle 1 (Resolves (value "X" true (Some 5%nat))) 2;
    RequestTTS "aws" "en-US" "female" "X" "s" 3;
    Settle 0 (Resolves (value "Y" true (Some 8%nat))) 4;
    Initialize boom 10 100 5000;
    Resume 0 5 ].

(** ** Further invariants *)

(** What an entry holds, by status: a pending or failed entry has size 0
    and no result; a completed entry has a result that is not [null] and
    the size [estimateSize] gives for it. *)
Definition item_shape (it : CacheItem) : Prop :=
  match status it with
  | completed => not_null (result it) = true ∧ size it = estimateSize (result it)
  | pending | error => result it = undefined ∧ size it = 0
  end.

Definition shape_ok (c : list (string * CacheItem)) : Prop :=
  ∀ k it, JsMap.get k c = Some it → item_shape it.

(** No key is in the queues of two sessions. *)
Definition disjoint_ok (queues : gmap string (list string)) : Prop :=
  ∀ sid1 sid2 q1 q2 k,
    queues !! sid1 = Some q1 → queues !! sid2 = Some q2 →
    k ∈ q1 → k ∈ q2 → sid1 = sid2.

(** Every key of [pendingPromises] is cached, and what is kept for it is
    the promise of a call that [preloadWithSettings] made for the key. *)
Definition handles_ok (pp : gmap string nat) (c : list (string * CacheItem))
    (h : list Call) : Prop :=
  ∀ k p, pp !! k = Some p →
    is_Some (JsMap.get k c)
    ∧ ∃ cl, h !! p = Some cl ∧ callKey cl = k ∧ c_origin cl = FromPreload.

(** What a request is given for an entry that is completed or failed. *)
Definition servedValue (it : CacheItem) : any :=
  match status it with
  | completed => result it
  | pending | error => null
  end.

(** The promise of a completed or failed entry is fulfilled with the
    value the entry stands for. *)
Definition value_ok (c : list (string * CacheItem)) (h : list Call) : Prop :=
  ∀ k it, JsMap.get k c = Some it → status it ≠ pending →
    ∃ cl, h !! promise it = Some cl ∧ c_state cl = Some (Fulfilled (servedValue it)).

(** The promise of every pending entry is the one kept in
    [pendingPromises]. *)
Definition tracked_ok (pp : gmap string nat) (c : list (string * CacheItem)) : Prop :=
  ∀ k it, JsMap.get k c = Some it → status it = pending → pp !! k = Some (promise it).

Definition inv (w : World) : Prop :=
  shape_ok (cache (svc w))
  ∧ disjoint_ok (sessionQueues (svc w))
  ∧ handles_ok (pendingPromises (svc w)) (cache (svc w)) (heap w)
  ∧ value_ok (cache (svc w)) (heap w)
  ∧ tracked_ok (pendingPromises (svc w)) (cache (svc w)).

(** ** Settlement, in closed form *)

(** The value the [withTimeout] promise is fulfilled with. *)
Definition outcomeValue (o : Outcome) : any :=
  match o with
  | Resolves v => v
  | Rejects _ | TimesOut => null
  end.

(** The entry the handlers of [preloadWithSettings] store. *)
Definition handlerItem (p : nat) (o : Outcome) (now : Z) : CacheItem :=
  if not_null (outcomeValue o)
  then mkItem p (outcomeValue o) now (estimateSize (outcomeValue o)) completed
  else mkItem p undefined now 0 error.

(** ** Further runs used as examples *)

(** A failed entry, then a request for its key. *)
Definition failedThenRequested : list Event :=
  repeated ++ [ Settle 0 (Rejects "Mock TTS service failure") 50;
                RequestTTS "aws" "en-US" "female" "Hello world" "test-session" 60 ].

(** The generation call of [repeated] is fulfilled with [undefined]. *)
Definition undefinedResult : Outcome := Resolves undefined.

(** * Properties *)

(** ** The [Map] operations *)

Section JsMapFacts.
Context {V : Type}.
Implicit Types (m : list (string * V)) (k : string) (v : V).

Lemma get_Some_elem m k v : JsMap.get k m = Some v → (k, v) ∈ m.
Proof.
  induction m as [|[k' v'] m IH]; simpl; [done|].
  destruct (String.eqb_spec k k') as [->|Hne].
  - intros [= ->]. left.
  - intros H. right. auto.
Qed.

Lemma get_None_keys m k : JsMap.get k m = None ↔ k ∉ m.*1.
Proof.
  induction m as [|[k' v'] m IH]; simpl.
  - split; [intros _; apply not_elem_of_nil | done].
  - destruct (String.eqb_spec k k') as [->|Hne].
    + split; [done | intros H; destruct H; left].
    + rewrite IH, not_elem_of_cons. tauto.
Qed.

Lemma elem_get m k v : NoDup m.*1 → (k, v) ∈ m → JsMap.get k m = Some v.
Proof.
  induction m as [|[k' v'] m IH]; simpl; intros Hnd Hin.
  - by apply elem_of_nil in Hin.
  - apply NoDup_cons in Hnd as [Hk' Hnd].
    apply elem_of_cons in Hin as [[= <- <-]|Hin].
    + by rewrite String.eqb_refl.
    + destruct (String.eqb_spec k k') as [->|Hne]; [|auto].
      destruct Hk'. apply (list_elem_of_fmap_2 fst) in Hin. done.
Qed.

Lemma has_true m k : JsMap.has k m = true ↔ k ∈ m.*1.
Proof.
  unfold JsMap.has. destruct (JsMap.get k m) eqn:E.
  - split; [|done]. intros _. apply get_Some_elem in E.
    by apply (list_elem_of_fmap_2 fst) in E.
  - apply get_None_keys in E. split; [done | tauto].
Qed.

Lemma has_false m k : JsMap.has k m = false ↔ JsMap.get k m = None.
Proof. unfold JsMap.has. destruct (JsMap.get k m); split; congruence. Qed.

Lemma get_set_eq m k v : JsMap.get k (JsMap.set k v m) = Some v.
Proof.
  induction m as [|[k' v'] m IH]; simpl.
  - by rewrite String.eqb_refl.
  - destruct (String.eqb_spec k k') as [->|Hne]; simpl.
    + by rewrite String.eqb_refl.
    + by destruct (String.eqb_spec k k').
Qed.

Lemma get_set_ne m k k' v : k ≠ k' → JsMap.get k' (JsMap.set k v m) = JsMap.get k' m.
Proof.
  intros Hne. induction m as [|[k0 v0] m IH]; simpl.
  - by destruct (String.eqb_spec k' k) as [->|].
  - destruct (String.eqb_spec k k0) as [->|Hne0]; simpl.
    + by destruct (String.eqb_spec k' k0) as [->|].
    + by rewrite IH.
Qed.

Lemma keys_set m k v :
  (JsMap.set k v m).*1 = if JsMap.has k m then m.*1 else m.*1 ++ [k].
Proof.
  unfold JsMap.has. induction m as [|[k' v'] m IH]; [done|].
  cbn [JsMap.set JsMap.get].
  destruct (String.eqb_spec k k') as [->|Hne]; [done|].
  rewrite !fmap_cons, IH. by destruct (JsMap.get k m).
Qed.

Lemma NoDup_set m k v : NoDup m.*1 → NoDup (JsMap.set k v m).*1.
Proof.
  intros Hnd. rewrite keys_set. destruct (JsMap.has k m) eqn:E; [done|].
  apply NoDup_app. split_and!; [done | | apply NoDup_singleton].
  intros x Hx Hx'. apply list_elem_of_singleton in Hx' as ->.
  apply has_true in Hx. congruence.
Qed.

Lemma length_set m k v :
  length (JsMap.set k v m) = if JsMap.has k m then length m else S (length m).
Proof.
  rewrite <- (length_fmap fst (JsMap.set k v m)), keys_set.
  destruct (JsMap.has k m); rewrite ?length_app, length_fmap; simpl; lia.
Qed.

Lemma keys_delete_sub m k k' : k' ∈ (JsMap.delete k m).*1 → k' ∈ m.*1.
Proof.
  induction m as [|[k0 v0] m IH]; simpl; [done|].
  destruct (String.eqb_spec k k0) as [->|Hne]; simpl.
  - by right.
  - rewrite !elem_of_cons. intros [->|H]; [by left | right; auto].
Qed.

Lemma NoDup_delete m k : NoDup m.*1 → NoDup (JsMap.delete k m).*1.
Proof.
  induction m as [|[k0 v0] m IH]; simpl; [done|].
  rewrite NoDup_cons. intros [Hk0 Hnd].
  destruct (String.eqb_spec k k0) as [->|Hne]; simpl; [done|].
  apply NoDup_cons. split; [|auto].
  intros H. by apply keys_delete_sub in H.
Qed.

Lemma get_delete_eq m k : NoDup m.*1 → JsMap.get k (JsMap.delete k m) = None.
Proof.
  induction m as [|[k0 v0] m IH]; simpl; [done|].
  rewrite NoDup_cons. intros [Hk0 Hnd].
  destruct (String.eqb_spec k k0) as [->|Hne]; simpl.
  - by apply get_None_keys.
  - destruct (String.eqb_spec k k0); [done | auto].
Qed.

Lemma get_delete_ne m k k' : k ≠ k' → JsMap.get k' (JsMap.delete k m) = JsMap.get k' m.
Proof.
  intros Hne. induction m as [|[k0 v0] m IH]; simpl; [done|].
  destruct (String.eqb_spec k k0) as [->|Hne0]; simpl.
  - by destruct (String.eqb_spec k' k0) as [->|].
  - by rewrite IH.
Qed.

Lemma length_delete m k v :
  JsMap.get k m = Some v → S (length (JsMap.delete k m)) = length m.
Proof.
  induction m as [|[k0 v0] m IH]; simpl; [done|].
  destruct (String.eqb_spec k k0) as [->|Hne]; simpl; [done|].
  intros H. by rewrite IH.
Qed.

Lemma delete_absent m k : JsMap.get k m = None → JsMap.delete k m = m.
Proof.
  induction m as [|[k0 v0] m IH]; simpl; [done|].
  destruct (String.eqb_spec k k0) as [->|Hne]; [done|].
  intros H. by rewrite IH.
Qed.
End JsMapFacts.

(** ** Sizes *)

Lemma sumSizes_set m k v :
  sumSizes (JsMap.set k v m) = sumSizes m - sizeAt k m + size v.
Proof.
  unfold sizeAt. induction m as [|[k' v'] m IH]; simpl; [lia|].
  destruct (String.eqb_spec k k') as [->|Hne]; simpl; lia.
Qed.

Lemma sumSizes_delete m k v :
  JsMap.get k m = Some v → sumSizes (JsMap.delete k m) = sumSizes m - size v.
Proof.
  induction m as [|[k' v'] m IH]; simpl; [done|].
  destruct (String.eqb_spec k k') as [->|Hne]; simpl.
  - intros [= ->]. lia.
  - intros H. rewrite IH by done. lia.
Qed.

Lemma sumSizes_app m1 m2 : sumSizes (m1 ++ m2) = sumSizes m1 + sumSizes m2.
Proof. induction m1 as [|e m1 IH]; simpl; lia. Qed.

(** ** Arrays of keys *)

Lemma indexOf_lower key queue : -1 ≤ indexOf key queue.
Proof.
  induction queue as [|k rest IH]; simpl; [lia|].
  destruct (String.eqb k key); [lia|].
  destruct (Z.ltb_spec (indexOf key rest) 0); lia.
Qed.

Lemma indexOf_absent key queue : indexOf key queue = -1 ↔ key ∉ queue.
Proof.
  induction queue as [|k rest IH]; simpl.
  - split; [intros _; apply not_elem_of_nil | done].
  - rewrite not_elem_of_cons.
    destruct (String.eqb_spec k key) as [->|Hne].
    + split; [lia | tauto].
    + pose proof (indexOf_lower key rest).
      destruct (Z.ltb_spec (indexOf key rest) 0).
      * split; [intros _; split; [done | apply IH; lia] | done].
      * split; [lia | intros [_ H']; apply IH in H'; lia].
  Qed.

Lemma indexOf_lookup key queue :
  key ∈ queue →
  0 ≤ indexOf key queue ∧ queue !! Z.to_nat (indexOf key queue) = Some key.
Proof.
  induction queue as [|k rest IH]; simpl; intros Hin.
  - by apply elem_of_nil in Hin.
  - destruct (String.eqb_spec k key) as [->|Hne]; [done|].
    apply elem_of_cons in Hin as [->|Hin]; [done|].
    destruct (IH Hin) as [Hge Hlk].
    destruct (Z.ltb_spec (indexOf key rest) 0); [lia|].
    split; [lia|]. by rewrite Z2Nat.inj_add, Nat.add_1_r by lia.
Qed.

Lemma includes_true key queue : includes key queue = true ↔ key ∈ queue.
Proof.
  unfold includes. pose proof (indexOf_lower key queue).
  destruct (Z.ltb_spec (indexOf key queue) 0); simpl.
  - split; [done|]. intros Hin. apply indexOf_lookup in Hin. lia.
  - split; [|done]. intros _.
    destruct (decide (key ∈ queue)) as [|Hn]; [done|].
    apply indexOf_absent in Hn. lia.
Qed.

(** [indexOf] followed by [splice] removes the first occurrence. *)
Lemma removeFromQueue_cons key k rest :
  removeFromQueue key (k :: rest) =
  if String.eqb k key then rest else k :: removeFromQueue key rest.
Proof.
  unfold removeFromQueue, splice1. simpl.
  destruct (String.eqb_spec k key) as [->|Hne]; simpl; [done|].
  pose proof (indexOf_lower key rest).
  destruct (Z.ltb_spec (indexOf key rest) 0); simpl.
  - replace (indexOf key rest) with (-1) by lia. done.
  - destruct (Z.eqb_spec (indexOf key rest + 1) (-1)); [lia|].
    destruct (Z.eqb_spec (indexOf key rest) (-1)); [lia|]. simpl.
    rewrite Z2Nat.inj_add, Nat.add_1_r by lia. done.
Qed.

Lemma removeFromQueue_elem key queue x :
  NoDup queue → x ∈ removeFromQueue key queue ↔ x ∈ queue ∧ x ≠ key.
Proof.
  induction queue as [|k rest IH]; intros Hnd.
  - unfold removeFromQueue. simpl. rewrite elem_of_nil. tauto.
  - apply NoDup_cons in Hnd as [Hk Hnd]. rewrite removeFromQueue_cons.
    destruct (String.eqb_spec k key) as [->|Hne].
    + rewrite elem_of_cons. split; [|naive_solver].
      intros Hx. split; [by right|]. intros ->. done.
    + rewrite !elem_of_cons, IH by done. naive_solver.
Qed.

Lemma removeFromQueue_NoDup key queue : NoDup queue → NoDup (removeFromQueue key queue).
Proof.
  induction queue as [|k rest IH]; intros Hnd.
  - done.
  - pose proof Hnd as Hnd'. apply NoDup_cons in Hnd as [Hk Hnd].
    rewrite removeFromQueue_cons. destruct (String.eqb k key); [done|].
    apply NoDup_cons. split; [|auto].
    rewrite removeFromQueue_elem by done. tauto.
Qed.

(** ** The sort *)

Lemma insertByTimestamp_perm e l : insertByTimestamp e l ≡ₚ e :: l.
Proof.
  induction l as [|e' l IH]; simpl; [done|].
  destruct (timestamp e'.2 <? timestamp e.2); [|done].
  rewrite IH. apply Permutation_swap.
Qed.

Lemma sortByTimestamp_perm l : sortByTimestamp l ≡ₚ l.
Proof.
  induction l as [|e l IH]; simpl; [done|].
  by rewrite insertByTimestamp_perm, IH.
Qed.





(** ** Invariants of the static state *)

Lemma initialState_ok : state_ok initialState.
Proof.
  split; simpl; try done. constructor.
Qed.

Lemma evict_ok s k it :
  state_ok s → JsMap.get k (cache s) = Some it → state_ok (evict k it s).
Proof.
  intros [Hk Hs Hq Hf Hu] Hget. split; simpl.
  - by apply NoDup_delete.
  - rewrite (sumSizes_delete _ _ _ Hget). lia.
  - intros sid q. rewrite lookup_fmap.
    destruct (sessionQueues s !! sid) as [q0|] eqn:E; [|done].
    intros [= <-]. destruct (Hq _ _ E) as [Hnd Hin].
    split; [by apply removeFromQueue_NoDup|].
    intros k'. rewrite removeFromQueue_elem by done. intros [Hk' Hne].
    rewrite get_delete_ne by done. auto.
  - done.
  - intros Hi. rewrite (Hu Hi). apply fmap_empty.
Qed.

Lemma live_tail k it rest s :
  NoDup (cache s).*1 → live ((k, it) :: rest) s → live rest (evict k it s).
Proof.
  intros Hnd [Hk Hl]. simpl in Hk. apply NoDup_cons in Hk as [Hk Hk'].
  split; [done|]. intros k' it' Hin. simpl.
  rewrite get_delete_ne.
  - apply Hl. by right.
  - intros ->. apply Hk. by apply (list_elem_of_fmap_2 fst) in Hin.
Qed.

Lemma live_skip e rest s : live (e :: rest) s → live rest s.
Proof.
  intros [Hk Hl]. simpl in Hk. apply NoDup_cons in Hk as [_ Hk].
  split; [done|]. intros k it Hin. apply Hl. by right.
Qed.

Lemma live_sorted s : NoDup (cache s).*1 → live (sortByTimestamp (cache s)) s.
Proof.
  intros Hnd. split.
  - by rewrite sortByTimestamp_perm.
  - intros k it Hin. rewrite sortByTimestamp_perm in Hin. by apply elem_get.
Qed.

(** A property kept by each removal is kept by the loop. *)
Lemma evictLoop_preserves (P : State → Prop) :
  (∀ s k it, P s → NoDup (cache s).*1 → JsMap.get k (cache s) = Some it →
             status it ≠ pending → P (evict k it s)) →
  ∀ entries s, NoDup (cache s).*1 → live entries s → P s → P (evictLoop entries s).
Proof.
  intros Hstep entries. induction entries as [|[k it] rest IH]; intros s Hnd Hl HP.
  - done.
  - simpl. destruct (overLimits s); [|done].
    destruct (status it) eqn:Est; simpl.
    + apply IH; [done | by eapply live_skip | done].
    + apply IH; [by apply NoDup_delete | by apply live_tail |].
      apply Hstep; [done | done | apply Hl; left | congruence].
    + apply IH; [by apply NoDup_delete | by apply live_tail |].
      apply Hstep; [done | done | apply Hl; left | congruence].
Qed.

Lemma enforceCacheLimits_preserves (P : State → Prop) :
  (∀ s k it, P s → NoDup (cache s).*1 → JsMap.get k (cache s) = Some it →
             status it ≠ pending → P (evict k it s)) →
  ∀ s, NoDup (cache s).*1 → P s → P (enforceCacheLimits s).
Proof.
  intros Hstep s Hnd HP. unfold enforceCacheLimits.
  destruct (overLimits s); [|done].
  apply evictLoop_preserves; auto using live_sorted.
Qed.

Lemma enforceCacheLimits_ok s : state_ok s → state_ok (enforceCacheLimits s).
Proof.
  intros Hok. apply enforceCacheLimits_preserves; [| apply Hok | done].
  intros. by apply evict_ok.
Qed.

Lemma storeItem_ok key item s : state_ok s → state_ok (storeItem key item s).
Proof.
  intros [Hk Hs Hq Hf Hu].
  assert (Hc : cache (storeItem key item s) = JsMap.set key item (cache s)).
  { unfold storeItem. by destruct (JsMap.get key (cache s)). }
  assert (Hz : currentSize (storeItem key item s)
               = currentSize s - sizeAt key (cache s) + size item).
  { unfold storeItem, sizeAt. destruct (JsMap.get key (cache s)); simpl; lia. }
  assert (Hrest : sessionQueues (storeItem key item s) = sessionQueues s
                  ∧ initialized (storeItem key item s) = initialized s
                  ∧ ttsFn (storeItem key item s) = ttsFn s).
  { unfold storeItem. by destruct (JsMap.get key (cache s)). }
  destruct Hrest as (Hq' & Hi' & Hf').
  split; rewrite ?Hc, ?Hz, ?Hq', ?Hi', ?Hf'; try done.
  - by apply NoDup_set.
  - rewrite sumSizes_set. lia.
  - intros sid q Hl. destruct (Hq _ _ Hl) as [Hnd Hin]. split; [done|].
    intros k Hk'. destruct (decide (key = k)) as [->|Hne].
    + rewrite get_set_eq. eauto.
    + rewrite get_set_ne by done. auto.
Qed.

Lemma setCacheItem_ok key item s : state_ok s → state_ok (setCacheItem key item s).
Proof. intros H. by apply enforceCacheLimits_ok, storeItem_ok. Qed.

(** ** What [setCacheItem] leaves alone *)

Lemma enforceCacheLimits_config s : config (enforceCacheLimits s) = config s.
Proof.
  unfold enforceCacheLimits. destruct (overLimits s); [|done].
  generalize (sortByTimestamp (cache s)). intros entries. revert s.
  induction entries as [|[k it] rest IH]; intros s; simpl; [done|].
  destruct (overLimits s); [|done].
  destruct (Status_eqb (status it) pending); [done|]. by rewrite IH.
Qed.

Lemma storeItem_config key item s : config (storeItem key item s) = config s.
Proof. unfold storeItem. by destruct (JsMap.get key (cache s)). Qed.

Lemma setCacheItem_config key item s : config (setCacheItem key item s) = config s.
Proof. unfold setCacheItem. by rewrite enforceCacheLimits_config, storeItem_config. Qed.

Lemma config_initialized s s' : config s' = config s → initialized s' = initialized s.
Proof. unfold config. by intros [= ]. Qed.

Lemma config_ttsFn s s' : config s' = config s → ttsFn s' = ttsFn s.
Proof. unfold config. by intros [= ]. Qed.

Lemma cache_storeItem key item s :
  cache (storeItem key item s) = JsMap.set key item (cache s).
Proof. unfold storeItem. by destruct (JsMap.get key (cache s)). Qed.

Lemma sessionQueues_storeItem key item s :
  sessionQueues (storeItem key item s) = sessionQueues s.
Proof. unfold storeItem. by destruct (JsMap.get key (cache s)). Qed.

(** Eviction only removes entries. *)
Lemma enforceCacheLimits_get_sub s k it :
  NoDup (cache s).*1 →
  JsMap.get k (cache (enforceCacheLimits s)) = Some it →
  JsMap.get k (cache s) = Some it.
Proof.
  intros Hnd.
  revert k it. apply (enforceCacheLimits_preserves
    (λ s', ∀ k it, JsMap.get k (cache s') = Some it → JsMap.get k (cache s) = Some it));
    [|done|done].
  intros s' k0 it0 IH Hnd' Hget Hst k it. simpl.
  destruct (decide (k0 = k)) as [->|Hne].
  - by rewrite get_delete_eq.
  - rewrite get_delete_ne by done. apply IH.
Qed.

(** A pending entry is never removed. *)
Lemma enforceCacheLimits_keeps_pending s k it :
  NoDup (cache s).*1 →
  JsMap.get k (cache s) = Some it → status it = pending →
  JsMap.get k (cache (enforceCacheLimits s)) = Some it.
Proof.
  intros Hnd Hget Hst.
  apply (enforceCacheLimits_preserves
    (λ s', JsMap.get k (cache s') = Some it)); [|done|done].
  intros s' k0 it0 IH Hnd' Hget0 Hst0. simpl.
  rewrite get_delete_ne; [done|]. intros ->. congruence.
Qed.

Lemma queues_shrink_refl s : queues_shrink s s.
Proof. intros sid. by destruct (sessionQueues s !! sid). Qed.

Lemma enforceCacheLimits_queues s :
  state_ok s → queues_shrink s (enforceCacheLimits s).
Proof.
  intros Hok.
  apply (enforceCacheLimits_preserves (λ s', state_ok s' ∧ queues_shrink s s'));
    [| apply Hok | split; [done | apply queues_shrink_refl]].
  intros s' k it [Hok' IH] _ Hget _. split; [by apply evict_ok|].
  intros sid. specialize (IH sid). simpl. rewrite lookup_fmap.
  destruct (sessionQueues s' !! sid) as [q'|] eqn:E', (sessionQueues s !! sid) as [q|];
    simpl; try done.
  intros x Hx. apply IH.
  apply removeFromQueue_elem in Hx; [tauto|]. by apply (ok_queues _ Hok' sid).
Qed.

Lemma setCacheItem_queues key item s :
  state_ok s → queues_shrink s (setCacheItem key item s).
Proof.
  intros Hok sid. unfold setCacheItem.
  pose proof (enforceCacheLimits_queues _ (storeItem_ok key item s Hok) sid) as H.
  by rewrite sessionQueues_storeItem in H.
Qed.

Lemma setCacheItem_get key item s k it :
  state_ok s →
  JsMap.get k (cache (setCacheItem key item s)) = Some it →
  (k = key ∧ it = item) ∨ (k ≠ key ∧ JsMap.get k (cache s) = Some it).
Proof.
  intros Hok Hget. unfold setCacheItem in Hget.
  apply enforceCacheLimits_get_sub in Hget; [|apply storeItem_ok, Hok].
  rewrite cache_storeItem in Hget.
  destruct (decide (key = k)) as [->|Hne].
  - rewrite get_set_eq in Hget. left. by injection Hget.
  - rewrite get_set_ne in Hget by done. right. done.
Qed.

Lemma setCacheItem_pending key item s :
  state_ok s → status item = pending →
  JsMap.get key (cache (setCacheItem key item s)) = Some item.
Proof.
  intros Hok Hst. unfold setCacheItem.
  apply enforceCacheLimits_keeps_pending; [apply storeItem_ok, Hok | | done].
  rewrite cache_storeItem. apply get_set_eq.
Qed.

(** ** The cache key *)

Lemma separator_split a b x y :
  noColon a = true → noColon b = true →
  a +:+ "::" +:+ x = b +:+ "::" +:+ y → a = b ∧ x = y.
Proof.
  revert b. induction a as [|c a IH]; intros [|d b]; simpl; intros Ha Hb Heq.
  - by injection Heq.
  - injection Heq as <- _. done.
  - injection Heq as -> _. done.
  - injection Heq as -> Heq.
    apply andb_true_iff in Ha as [_ Ha]. apply andb_true_iff in Hb as [_ Hb].
    destruct (IH b Ha Hb Heq) as [-> ->]. done.
Qed.

(** C5, as amended.  The key is the four fields joined by the separator
    [::], with nothing escaped or normalised; it determines the four fields
    whenever service, language and voice contain no colon (the text may
    contain anything). *)
Theorem generateKey_injective_without_colons
    (service language voice text service' language' voice' text' : string) :
  noColon service = true → noColon language = true → noColon voice = true →
  noColon service' = true → noColon language' = true → noColon voice' = true →
  generateKey service language voice text
    = generateKey service' language' voice' text' →
  (service, language, voice, text) = (service', language', voice', text').
Proof.
  unfold generateKey. intros Hs Hl Hv Hs' Hl' Hv' Heq.
  apply separator_split in Heq as [-> Heq]; [|done..].
  apply separator_split in Heq as [-> Heq]; [|done..].
  apply separator_split in Heq as [-> ->]; done.
Qed.

Lemma generateKey_injective_without_colons_witness :
  ("aws", "en-US", "female", "Hello: world")
  = ("aws", "en-US", "female", "Hello: world").
Proof.
  apply (generateKey_injective_without_colons
           "aws" "en-US" "female" "Hello: world"
           "aws" "en-US" "female" "Hello: world"); reflexivity.
Defined.

(** Two different tuples with one key: the separator may occur inside a
    field. *)
Lemma generateKey_collision :
  ¬ (∀ service language voice text service' language' voice' text',
       (service, language, voice, text) ≠ (service', language', voice', text') →
       generateKey service language voice text
         ≠ generateKey service' language' voice' text').
Proof.
  intros H. apply (H "a::b" "c" "d" "e" "a" "b::c" "d" "e"); [discriminate | reflexivity].
Qed.

(** ** Reset and configuration *)

(** C9.  [uninitialize] empties the cache, the size counter, the session
    queues, the session settings and the pending-promise table; the
    statistics read right after it show no entry and size zero; calling it
    twice is the same as calling it once. *)
Theorem uninitialize_clears_everything (w : World) :
  let w' := with_svc (uninitialize (svc w)) w in
  step Uninitialize w = Some w'
  ∧ cache (svc w') = []
  ∧ currentSize (svc w') = 0
  ∧ sessionQueues (svc w') = ∅
  ∧ sessionSettings (svc w') = ∅
  ∧ pendingPromises (svc w') = ∅
  ∧ currentItems (getCacheStats w').1 = 0
  ∧ stats_currentSize (getCacheStats w').1 = 0
  ∧ step Uninitialize w' = Some w'.
Proof. by repeat split. Qed.

(** C10.  On a configured service [initialize] writes the generation
    function, the timeout and the two limits, and nothing else: cache,
    size counter, session queues, session settings and pending promises
    are the same, and so are the promises and suspended requests of the
    run time. *)
Theorem initialize_again_keeps_state
    (w : World) (fn : TTSFn) (maxCacheSize maxCacheItems requestTimeoutMs : Z) :
  initialized (svc w) = true → instance (svc w) = true →
  ∃ w', step (Initialize fn maxCacheSize maxCacheItems requestTimeoutMs) w = Some w'
  ∧ ttsFn (svc w') = Some fn
  ∧ timeoutMs (svc w') = requestTimeoutMs
  ∧ maxSize (svc w') = maxCacheSize
  ∧ maxItems (svc w') = maxCacheItems
  ∧ initialized (svc w') = initialized (svc w)
  ∧ instance (svc w') = instance (svc w)
  ∧ cache (svc w') = cache (svc w)
  ∧ currentSize (svc w') = currentSize (svc w)
  ∧ sessionQueues (svc w') = sessionQueues (svc w)
  ∧ sessionSettings (svc w') = sessionSettings (svc w)
  ∧ pendingPromises (svc w') = pendingPromises (svc w)
  ∧ heap w' = heap w ∧ tasks w' = tasks w
  ∧ console w' = console w ∧ uncaught w' = uncaught w.
Proof.
  intros Hi Hinst. eexists. split; [reflexivity|].
  simpl. rewrite Hi, Hinst. by repeat split.
Qed.

(** ** Calls before [initialize] *)

(** C8, as amended.  Before [initialize], the five guarded operations
    ([hasCompletedItem], [hasPending], [setSessionSettings], [preloadTTS],
    [requestTTS]) write one warning to the console, throw nothing, answer
    [false], nothing, or a promise fulfilled with [null], and leave the
    service and the run time as they were.  [getCacheStats] has no guard:
    it writes nothing and answers with the current counters and limits;
    it changes nothing either. *)
Theorem not_initialized_is_a_no_op
    (w : World) (service language voice text sessionId : string) (now : Z) :
  initialized (svc w) = false →
  (∃ m, hasCompletedItem service language voice text w = (false, log (Warn m) w))
  ∧ (∃ m, hasPending service language voice text w = (false, log (Warn m) w))
  ∧ (∃ m, setSessionSettings sessionId service language voice w = log (Warn m) w)
  ∧ (∃ m, preloadTTS text sessionId now w = log (Warn m) w)
  ∧ (∃ m, requestTTS service language voice text sessionId now w
          = spawn (Done (Fulfilled null)) (log (Warn m) w))
  ∧ getCacheStats w
    = (mkStats (JsMap.size (cache (svc w))) (maxItems (svc w))
               (currentSize (svc w)) (maxSize (svc w)), w)
  ∧ (∀ m, svc (log (Warn m) w) = svc w ∧ heap (log (Warn m) w) = heap w
          ∧ tasks (log (Warn m) w) = tasks w
          ∧ uncaught (log (Warn m) w) = uncaught w
          ∧ console (log (Warn m) w) = console w ++ [Warn m]).
Proof.
  intros Hi.
  unfold hasCompletedItem, hasPending, setSessionSettings, preloadTTS, requestTTS.
  rewrite Hi. simpl. repeat split; eauto.
Qed.

Lemma not_initialized_is_a_no_op_witness :
  (∃ m, preloadTTS "Hello" "s" 0 initialWorld = log (Warn m) initialWorld)
  ∧ (∃ m, requestTTS "aws" "en-US" "female" "Hello" "s" 0 initialWorld
          = spawn (Done (Fulfilled null)) (log (Warn m) initialWorld)).
Proof.
  pose proof (not_initialized_is_a_no_op initialWorld
                "aws" "en-US" "female" "Hello" "s" 0 eq_refl) as H.
  split; [apply H | apply H].
Defined.

(** [getCacheStats] before [initialize] writes no warning, and what it
    answers is not empty: the default limits are in it. *)
Lemma getCacheStats_has_no_guard :
  ¬ (∀ w, initialized (svc w) = false →
          ∃ m, console (getCacheStats w).2 = console w ++ [Warn m]).
Proof.
  intros H. destruct (H initialWorld eq_refl) as [m Hm]. discriminate Hm.
Qed.

(** ** Invariants of the run time *)

Lemma item_ok_app h c k it : item_ok h k it → item_ok (h ++ [c]) k it.
Proof.
  intros (c0 & Hl & Hk & Hp). exists c0. split; [|done].
  by apply lookup_app_l_Some.
Qed.

Lemma item_ok_setState h p r k it :
  item_ok h k it → (status it = pending → promise it ≠ p) →
  item_ok (alter (setState r) p h) k it.
Proof.
  intros (c0 & Hl & Hk & Hp) Hne.
  destruct (decide (promise it = p)) as [<-|Hd].
  - exists (setState r c0). rewrite list_lookup_alter, Hl, decide_True by done.
    split; [done|]. split; [done|]. intros Hst. by destruct (Hne Hst).
  - exists c0. by rewrite list_lookup_alter_ne.
Qed.

Lemma task_ok_app h c t : task_ok h t → task_ok (h ++ [c]) t.
Proof.
  destruct t as [? ? ? ? ? waits|p|key p|r]; simpl.
  - intros H p Hp. destruct (H p Hp) as [c0 Hc0]. exists c0. by apply lookup_app_l_Some.
  - intros [c0 Hc0]. exists c0. by apply lookup_app_l_Some.
  - intros (c0 & Hl & Hk). exists c0. split; [|done]. by apply lookup_app_l_Some.
  - done.
Qed.

Lemma is_Some_alter (h : list Call) f p q : is_Some (h !! q) → is_Some (alter f p h !! q).
Proof.
  intros [c Hc]. rewrite list_lookup_alter. case_decide; subst; rewrite Hc; simpl; eauto.
Qed.

Lemma task_ok_setState h p r t : task_ok h t → task_ok (alter (setState r) p h) t.
Proof.
  destruct t as [? ? ? ? ? waits|q|key q|r0]; simpl.
  - intros H q Hq. by apply is_Some_alter, H.
  - apply is_Some_alter.
  - intros (c0 & Hl & Hk & Ho). rewrite list_lookup_alter.
    case_decide; subst; rewrite Hl; simpl; eauto.
  - done.
Qed.

Lemma state_ok_pendingPromises pp s : state_ok s → state_ok (with_pendingPromises pp s).
Proof. by intros []. Qed.

Lemma state_ok_sessionSettings x s : state_ok s → state_ok (with_sessionSettings x s).
Proof. by intros []. Qed.

Lemma ensureQueue_ok sid s :
  initialized s = true → state_ok s → state_ok (ensureQueue sid s).
Proof.
  intros Hi Hok. unfold ensureQueue.
  destruct (sessionQueues s !! sid) eqn:E; [done|].
  destruct Hok as [Hk Hs Hq Hf Hu]. split; simpl; try done.
  - intros sid' q. rewrite lookup_insert. case_decide.
    + intros [= <-]. split; [constructor|]. intros k Hk'. by apply elem_of_nil in Hk'.
    + apply Hq.
  - congruence.
Qed.

Lemma ensureQueue_lookup sid s :
  sessionQueues (ensureQueue sid s) !! sid
  = Some (default [] (sessionQueues s !! sid)).
Proof.
  unfold ensureQueue. destruct (sessionQueues s !! sid) eqn:E; simpl; [done|].
  by rewrite lookup_insert_eq.
Qed.

Lemma ensureQueue_lookup_ne sid sid' s :
  sid ≠ sid' → sessionQueues (ensureQueue sid s) !! sid' = sessionQueues s !! sid'.
Proof.
  intros Hne. unfold ensureQueue. destruct (sessionQueues s !! sid) eqn:E; simpl; [done|].
  by rewrite lookup_insert_ne.
Qed.

Lemma pushKey_ok sid key s :
  initialized s = true → state_ok s →
  is_Some (JsMap.get key (cache s)) →
  (∀ q, sessionQueues s !! sid = Some q → key ∉ q) →
  state_ok (pushKey sid key (ensureQueue sid s)).
Proof.
  intros Hi Hok Hin Hfresh.
  pose proof (ensureQueue_ok sid s Hi Hok) as [Hk Hs Hq Hf Hu].
  assert (Hc : cache (ensureQueue sid s) = cache s).
  { unfold ensureQueue. by destruct (sessionQueues s !! sid). }
  assert (Hi' : initialized (ensureQueue sid s) = true).
  { unfold ensureQueue. by destruct (sessionQueues s !! sid). }
  split; simpl; try done.
  - intros sid' q. rewrite lookup_alter. case_decide as Hd.
    + subst sid'. rewrite ensureQueue_lookup. simpl. intros [= <-].
      destruct (sessionQueues s !! sid) as [q0|] eqn:E; simpl.
      * destruct (ok_queues _ Hok _ _ E) as [Hnd Hel]. split.
        -- apply NoDup_app. split_and!; [done | | apply NoDup_singleton].
           intros x Hx Hx'. apply list_elem_of_singleton in Hx' as ->.
           by apply (Hfresh q0).
        -- intros k' Hk'. rewrite Hc. apply elem_of_app in Hk' as [Hk'|Hk'].
           ++ by apply Hel.
           ++ by apply list_elem_of_singleton in Hk' as ->.
      * split; [apply NoDup_singleton|]. intros k' Hk'. rewrite Hc.
        by apply list_elem_of_singleton in Hk' as ->.
    + apply Hq.
  - congruence.
Qed.

Lemma world_ok_setCacheItem w key item :
  world_ok w → item_ok (heap w) key item →
  world_ok (with_svc (setCacheItem key item (svc w)) w).
Proof.
  intros [Hs Hc Ht Hh] Hitem. split; simpl; try done.
  - by apply setCacheItem_ok.
  - intros k it Hget. apply setCacheItem_get in Hget as [[-> ->]|[_ Hget]]; auto.
Qed.

Lemma world_ok_log w e : world_ok w → world_ok (log e w).
Proof. by intros []. Qed.

Lemma world_ok_logs w es : world_ok w → world_ok (logs es w).
Proof. by intros []. Qed.

Lemma world_ok_spawn w t : world_ok w → task_ok (heap w) t → world_ok (spawn t w).
Proof.
  intros [Hs Hc Ht Hh] Hnew. split; simpl; try done.
  intros rid t' Hl. apply lookup_app_Some in Hl as [Hl|[_ Hl]]; [eauto|].
  apply list_lookup_singleton_Some in Hl as [_ <-]. done.
Qed.

Lemma world_ok_setTask w rid t :
  world_ok w → task_ok (heap w) t → world_ok (setTask rid t w).
Proof.
  intros [Hs Hc Ht Hh] Hnew. split; simpl; try done.
  intros rid' t' Hl. apply list_lookup_insert_Some in Hl as [(_ & <- & _)|[_ Hl]]; eauto.
Qed.

Lemma world_ok_alloc w c :
  world_ok w → c_state c = None → world_ok (alloc c w).
Proof.
  intros [Hs Hc Ht Hh] Hnone. split; simpl; try done.
  - intros k it Hget. by apply item_ok_app, Hc.
  - intros rid t Hl. by apply task_ok_app, (Ht rid).
  - intros p c' r Hl. apply lookup_app_Some in Hl as [Hl|[_ Hl]]; [eauto|].
    apply list_lookup_singleton_Some in Hl as [_ <-]. congruence.
Qed.

Lemma heap_alloc_new w c : heap (alloc c w) !! length (heap w) = Some c.
Proof. simpl. by apply list_lookup_middle. Qed.

Lemma world_ok_raise w e : world_ok w → world_ok (raise e w).
Proof. by intros []. Qed.

Lemma world_ok_throwing w t : world_ok w → world_ok (throwing t w).
Proof. by intros []. Qed.

(** When [preloadWithSettings] throws, it was [ttsFn] that threw (or that
    was missing), for a key that is not cached, and nothing else happened. *)
Lemma preloadWithSettings_throws service language voice text sessionId now w e w' :
  preloadWithSettings service language voice text sessionId now w = Throws e w' →
  JsMap.has (generateKey service language voice text) (cache (svc w)) = false
  ∧ ((ttsFn (svc w) = None ∧ w' = w)
     ∨ (∃ fn, ttsFn (svc w) = Some fn
              ∧ fn_throws fn service language voice text = Some e
              ∧ w' = throwing (mkThrown service language voice text e) w)).
Proof.
  unfold preloadWithSettings. destruct (JsMap.has _ _); [done|].
  destruct (ttsFn (svc w)) as [fn|]; [|intros [= <- <-]; auto].
  destruct (fn_throws fn service language voice text) as [e'|] eqn:Ef; [|done].
  intros [= <- <-]. split; [done|]. right. eauto.
Qed.

Lemma preloadWithSettings_throws_svc service language voice text sessionId now w e w' :
  preloadWithSettings service language voice text sessionId now w = Throws e w' →
  svc w' = svc w ∧ heap w' = heap w ∧ tasks w' = tasks w
  ∧ console w' = console w ∧ uncaught w' = uncaught w.
Proof.
  intros H. apply preloadWithSettings_throws in H as [_ [[_ ->]|(fn & _ & _ & ->)]]; done.
Qed.

(** [preloadWithSettings] keeps the invariants, whether it returns or
    throws. *)
Lemma preloadWithSettings_ok service language voice text sessionId now w :
  world_ok w → initialized (svc w) = true →
  ∃ w', (preloadWithSettings service language voice text sessionId now w = Returns w'
         ∨ ∃ e, preloadWithSettings service language voice text sessionId now w
                = Throws e w')
        ∧ world_ok w' ∧ initialized (svc w') = true.
Proof.
  intros Hok Hi. unfold preloadWithSettings.
  set (key := generateKey service language voice text).
  destruct (JsMap.has key (cache (svc w))) eqn:Ehas; [eauto|].
  destruct (ok_fn _ (wk_state _ Hok) Hi) as [fn Hfn]. rewrite Hfn.
  destruct (fn_throws fn service language voice text) as [e|] eqn:Ef.
  { eexists. split; [right; eauto|]. split; [by apply world_ok_throwing | done]. }
  eexists. split; [left; reflexivity|].
  set (c := mkCall fn service language voice text (timeoutMs (svc w)) FromPreload None).
  set (item := mkItem (length (heap w)) undefined now 0 pending).
  set (s1 := with_pendingPromises _ _).
  assert (Hok1 : world_ok (with_svc s1 (alloc c w))).
  { pose proof (world_ok_alloc w c Hok eq_refl) as [Hs Hc Ht Hh].
    split; simpl; try done. by apply state_ok_pendingPromises. }
  assert (Hitem : item_ok (heap (alloc c w)) key item).
  { exists c. split; [apply heap_alloc_new|]. done. }
  pose proof (world_ok_setCacheItem _ key item Hok1 Hitem) as Hok2.
  simpl in Hok2.
  assert (Hcfg : config (setCacheItem key item s1) = config (svc w)).
  { by rewrite setCacheItem_config. }
  assert (Hi2 : initialized (setCacheItem key item s1) = true).
  { by rewrite (config_initialized _ _ Hcfg). }
  set (s2 := setCacheItem key item s1) in *.
  assert (Hs4 : state_ok (pushKey sessionId key (ensureQueue sessionId s2))).
  { apply pushKey_ok; [done | apply Hok2 | |].
    - unfold s2. rewrite (setCacheItem_pending key item s1); [eauto | apply Hok1 | done].
    - intros q Hq Hin.
      pose proof (setCacheItem_queues key item s1 (wk_state _ Hok1) sessionId) as Hsh.
      fold s2 in Hsh. rewrite Hq in Hsh.
      destruct (sessionQueues s1 !! sessionId) as [q0|] eqn:E0; [|done].
      apply Hsh in Hin.
      destruct (ok_queues _ (wk_state _ Hok) sessionId q0 E0) as [_ Hel].
      apply Hel in Hin. apply has_false in Ehas. rewrite Ehas in Hin.
      by destruct Hin. }
  assert (Hc4 : cache (pushKey sessionId key (ensureQueue sessionId s2)) = cache s2).
  { unfold pushKey, ensureQueue. by destruct (sessionQueues s2 !! sessionId). }
  split.
  - destruct Hok2 as [Hs Hc Ht Hh]. split; simpl in *; try done.
    intros k it. rewrite Hc4. apply Hc.
  - simpl. unfold ensureQueue. by destruct (sessionQueues s2 !! sessionId).
Qed.

Lemma precedingPromises_elem sessionId key s p :
  p ∈ precedingPromises sessionId key s →
  ∃ k it, JsMap.get k (cache s) = Some it ∧ promise it = p.
Proof.
  unfold precedingPromises.
  destruct (indexOf key (default [] (sessionQueues s !! sessionId)) <=? 0).
  - intros H. by apply elem_of_nil in H.
  - intros H. apply list_elem_of_omap in H as (k & _ & Hk).
    destruct (JsMap.get k (cache s)) as [it|] eqn:E; [|done].
    injection Hk as <-. eauto.
Qed.

Lemma world_ok_setSessionSettings w sessionId service language voice :
  world_ok w → world_ok (setSessionSettings sessionId service language voice w).
Proof.
  intros Hok. unfold setSessionSettings.
  destruct (initialized (svc w)); simpl; [|by apply world_ok_log].
  destruct Hok as [Hs Hc Ht Hh]. split; simpl; try done.
  by apply state_ok_sessionSettings.
Qed.

Lemma world_ok_preloadTTS w text sessionId now :
  world_ok w → world_ok (preloadTTS text sessionId now w).
Proof.
  intros Hok. unfold preloadTTS.
  destruct (initialized (svc w)) eqn:Hi; simpl; [|by apply world_ok_log].
  destruct (sessionSettings (svc w) !! sessionId) as [st|]; [|by apply world_ok_log].
  destruct (preloadWithSettings_ok (st_service st) (st_language st) (st_voice st)
              text sessionId now w Hok Hi) as (w' & [->|[e ->]] & Hok' & _);
    [done | by apply world_ok_raise].
Qed.

Lemma world_ok_requestTTS w service language voice text sessionId now :
  world_ok w → world_ok (requestTTS service language voice text sessionId now w).
Proof.
  intros Hok. unfold requestTTS.
  destruct (initialized (svc w)) eqn:Hi; simpl.
  2:{ apply world_ok_spawn; [by apply world_ok_log | done]. }
  set (w1 := setSessionSettings sessionId service language voice w).
  assert (Hok1 : world_ok w1) by by apply world_ok_setSessionSettings.
  assert (Hi1 : initialized (svc w1) = true).
  { unfold w1, setSessionSettings. by rewrite Hi. }
  set (w2 := with_svc (ensureQueue sessionId (svc w1)) w1).
  assert (Hok2 : world_ok w2).
  { destruct Hok1 as [Hs Hc Ht Hh]. split; simpl; try done.
    - by apply ensureQueue_ok.
    - intros k it. replace (cache (ensureQueue sessionId (svc w1))) with (cache (svc w1)); [apply Hc|].
      unfold ensureQueue. by destruct (sessionQueues (svc w1) !! sessionId). }
  assert (Hi2 : initialized (svc w2) = true).
  { simpl. unfold ensureQueue. by destruct (sessionQueues (svc w1) !! sessionId). }
  assert (Hspawn : ∀ w3, world_ok w3 →
     world_ok (spawn (AtBarrier service language voice text sessionId
        (precedingPromises sessionId (generateKey service language voice text) (svc w3))) w3)).
  { intros w3 Hok3. apply world_ok_spawn; [done|]. simpl. intros p Hp.
    apply precedingPromises_elem in Hp as (k & it & Hget & <-).
    destruct (wk_cache _ Hok3 _ _ Hget) as (c & Hc & _). eauto. }
  destruct (negb (includes _ _)); [|by apply Hspawn].
  destruct (preloadWithSettings_ok service language voice text sessionId now w2 Hok2 Hi2)
    as (w3 & [->|[e ->]] & Hok3 & _); [by apply Hspawn | by apply world_ok_spawn].
Qed.

Lemma withTimeout_fulfils o timeout :
  ∃ v, (withTimeout o timeout).1 = Fulfilled v.
Proof. destruct o; simpl; eauto. Qed.

(** The handlers store an entry that is completed or failed, and the
    constant [promise] is fulfilled. *)
Lemma preloadHandlers_terminal key p r now s :
  ∃ item v, preloadHandlers key p r now s = (setCacheItem key item s, Fulfilled v)
            ∧ promise item = p ∧ status item ≠ pending.
Proof.
  unfold preloadHandlers. destruct r as [v|e].
  - destruct (not_null v); eexists _, _; (split; [reflexivity|]); done.
  - eexists _, _; (split; [reflexivity|]); done.
Qed.

Lemma world_ok_settleCall w p r c :
  world_ok w → heap w !! p = Some c →
  (∀ k it, JsMap.get k (cache (svc w)) = Some it → status it = pending → promise it ≠ p) →
  world_ok (settleCall p (Fulfilled r) w).
Proof.
  intros [Hs Hc Ht Hh] Hp Hne. split; simpl; try done.
  - intros k it Hget. apply item_ok_setState; eauto.
  - intros rid t Hl. by apply task_ok_setState, (Ht rid).
  - intros q c' r'. rewrite list_lookup_alter. case_decide.
    + subst q. rewrite Hp. simpl. intros [= <-]. simpl. intros [= <-]. eauto.
    + apply Hh.
Qed.

Lemma world_ok_settle w p o now w' :
  world_ok w → settle p o now w = Some w' → world_ok w'.
Proof.
  intros Hok. unfold settle.
  destruct (heap w !! p) as [c|] eqn:Hp; [|done].
  destruct (c_state c) eqn:Hst; [done|].
  destruct (withTimeout_fulfils o (c_timeout c)) as [v Hv].
  destruct (withTimeout o (c_timeout c)) as [r out]. simpl in Hv. subst r.
  pose proof (world_ok_logs w out Hok) as Hok1.
  destruct (c_origin c) eqn:Ho.
  - destruct (preloadHandlers_terminal (callKey c) p (Fulfilled v) now (svc (logs out w)))
      as (item & v' & -> & Hpi & Hsi).
    intros [= <-].
    assert (Hitem : item_ok (heap (logs out w)) (callKey c) item).
    { exists c. rewrite Hpi. split; [done|]. split; [done|]. done. }
    pose proof (world_ok_setCacheItem _ _ _ Hok1 Hitem) as Hok2.
    eapply world_ok_settleCall; [done | exact Hp |].
    simpl. intros k it Hget Hpend Heq.
    apply setCacheItem_get in Hget as [[-> ->]|[Hne Hget]]; [done | | apply Hok1].
    destruct (wk_cache _ Hok _ _ Hget) as (c0 & Hc0 & Hk0 & _).
    rewrite Heq, Hp in Hc0. injection Hc0 as <-. done.
  - intros [= <-]. eapply world_ok_settleCall; [done | exact Hp |].
    simpl. intros k it Hget Hpend Heq.
    destruct (wk_cache _ Hok _ _ Hget) as (c0 & Hc0 & _ & Hpd).
    rewrite Heq, Hp in Hc0. injection Hc0 as <-.
    destruct (Hpd Hpend) as [_ Ho']. congruence.
Qed.

Lemma world_ok_resume w rid now w' :
  world_ok w → resume rid now w = Some w' → world_ok w'.
Proof.
  intros Hok. unfold resume.
  destruct (tasks w !! rid) as [t|] eqn:Ht; [|done].
  pose proof (wk_tasks _ Hok _ _ Ht) as Htok.
  destruct t as [service language voice text sessionId waits|p|key p|r]; [| | |done].
  - destruct (forallb _ _); [|done]. intros [= <-]. unfold afterBarrier.
    destruct (JsMap.get _ _) as [item|] eqn:Hget.
    + destruct (_ && _).
      * apply world_ok_setTask; [done | done].
      * apply world_ok_setTask; [done|]. simpl.
        destruct (wk_cache _ Hok _ _ Hget) as (c & Hc & _). eauto.
    + destruct (ttsFn (svc w)) as [fn|].
      * destruct (fn_throws fn service language voice text).
        -- apply world_ok_setTask; [|done].
           by apply world_ok_log, world_ok_throwing.
        -- apply world_ok_setTask; [by apply world_ok_alloc|]. simpl.
           eexists. split; [by apply list_lookup_middle|]. done.
      * apply world_ok_setTask; [by apply world_ok_log | done].
  - destruct (promiseState p w) as [r|]; [|done]. intros [= <-].
    unfold afterItem. destruct r.
    + apply world_ok_setTask; [done | done].
    + apply world_ok_setTask; [by apply world_ok_log | done].
  - destruct (promiseState p w) as [r|]; [|done]. intros [= <-].
    unfold afterDirect. destruct r as [v|e].
    + apply world_ok_setTask; [|done].
      destruct (not_null v); [|done].
      apply world_ok_setCacheItem; [done|].
      destruct Htok as (c & Hc & Hk & _). exists c. done.
    + apply world_ok_setTask; [by apply world_ok_log | done].
Qed.

Lemma initialize_ok fn ms mi t s : state_ok s → state_ok (initialize fn ms mi t s).
Proof. intros [Hk Hs Hq Hf Hu]. split; simpl; eauto. done. Qed.

Lemma uninitialize_ok s : state_ok (uninitialize s).
Proof. split; simpl; try done. constructor. Qed.

Lemma world_ok_step e w w' : world_ok w → step e w = Some w' → world_ok w'.
Proof.
  intros Hok. destruct e; simpl.
  - intros [= <-]. destruct Hok as [Hs Hc Ht Hh]. split; simpl; try done.
    by apply initialize_ok.
  - intros [= <-]. destruct Hok as [Hs Hc Ht Hh]. split; simpl; try done.
    apply uninitialize_ok.
  - by intros [= <-].
  - intros [= <-]. unfold hasCompletedItem.
    destruct (initialized (svc w)); simpl; [|by apply world_ok_log].
    by destruct (JsMap.get _ _).
  - intros [= <-]. unfold hasPending.
    destruct (initialized (svc w)); simpl; [|by apply world_ok_log].
    by destruct (JsMap.get _ _).
  - intros [= <-]. by apply world_ok_setSessionSettings.
  - intros [= <-]. by apply world_ok_preloadTTS.
  - intros [= <-]. by apply world_ok_requestTTS.
  - by apply world_ok_settle.
  - by apply world_ok_resume.
Qed.

Lemma world_ok_run es : ∀ w w', world_ok w → run es w = Some w' → world_ok w'.
Proof.
  induction es as [|e es IH]; simpl; intros w w' Hok.
  - by intros [= <-].
  - destruct (step e w) as [w1|] eqn:E; [|done].
    apply IH. by eapply world_ok_step.
Qed.

Lemma initialWorld_ok : world_ok initialWorld.
Proof.
  split; simpl; try done.
  - apply initialState_ok.
Qed.

Lemma reachable_ok w : reachable w → world_ok w.
Proof. intros [es Hes]. eapply world_ok_run; [apply initialWorld_ok | done]. Qed.

(** ** The size counter *)

(** C2.  In every world the service can reach, [currentSize] is the sum
    of the sizes of the cached entries.  The bookkeeping that keeps it so:
    [setCacheItem] first takes the size of the entry it replaces (if any)
    off the counter and adds the size of the new one, and every removal
    by the eviction takes the size of the removed entry off; the sum is
    restored after the put and after each removal. *)
Theorem currentSize_is_sum_of_sizes
    (es : list Event) (w : World) (key : string) (item : CacheItem) :
  run es initialWorld = Some w →
  currentSize (svc w) = sumSizes (cache (svc w))
  ∧ currentSize (storeItem key item (svc w))
    = currentSize (svc w) - sizeAt key (cache (svc w)) + size item
  ∧ currentSize (storeItem key item (svc w))
    = sumSizes (cache (storeItem key item (svc w)))
  ∧ (∀ k it, JsMap.get k (cache (svc w)) = Some it →
       currentSize (evict k it (svc w)) = currentSize (svc w) - size it
       ∧ currentSize (evict k it (svc w)) = sumSizes (cache (evict k it (svc w))))
  ∧ currentSize (setCacheItem key item (svc w))
    = sumSizes (cache (setCacheItem key item (svc w))).
Proof.
  intros Hrun.
  assert (Hok : state_ok (svc w)) by (apply reachable_ok; by exists es).
  split_and!.
  - apply Hok.
  - unfold storeItem, sizeAt. destruct (JsMap.get key (cache (svc w))); simpl; lia.
  - apply storeItem_ok, Hok.
  - intros k it Hget. split; [done|]. by apply evict_ok.
  - apply setCacheItem_ok, Hok.
Qed.

Lemma currentSize_is_sum_of_sizes_witness :
  match run Scenarios.lru initialWorld with
  | Some w => currentSize (svc w) = sumSizes (cache (svc w))
  | None => False
  end.
Proof.
  destruct (run Scenarios.lru initialWorld) as [w|] eqn:E.
  - apply (currentSize_is_sum_of_sizes Scenarios.lru w "k"
             (mkItem 0 undefined 0 0 pending) E).
  - vm_compute in E. discriminate E.
Defined.

(** ** Eviction *)

(** The loop removes a prefix of the candidates: the shortest one that
    brings the cache within its limits, or all of them. *)
Lemma evictLoop_prefix entries : ∀ s,
  ∃ n, evictLoop entries s = evictAll (take n (List.filter evictable entries)) s
       ∧ (∀ m, (m < n)%nat →
            overLimits (evictAll (take m (List.filter evictable entries)) s) = true)
       ∧ (overLimits (evictLoop entries s) = false
          ∨ n = length (List.filter evictable entries)).
Proof.
  induction entries as [|[k it] rest IH]; intros s.
  - exists 0%nat. simpl. split_and!; [done | lia | by right].
  - cbn [evictLoop List.filter].
    change (evictable (k, it)) with (negb (Status_eqb (status it) pending)).
    destruct (overLimits s) eqn:Eov.
    + destruct (Status_eqb (status it) pending) eqn:Est; cbn [negb].
      * apply IH.
      * destruct (IH (evict k it s)) as (n & Heq & Hmin & Hend).
        exists (S n). split_and!; [done | | ].
        -- intros [|m] Hm; [done|]. apply Hmin. lia.
        -- destruct Hend as [Hend| ->]; [by left | by right].
    + exists 0%nat. split_and!; [done | lia | by left].
Qed.

Lemma enforceCacheLimits_prefix s :
  ∃ n, enforceCacheLimits s = evictAll (take n (candidates s)) s
       ∧ (∀ m, (m < n)%nat → overLimits (evictAll (take m (candidates s)) s) = true)
       ∧ (overLimits (enforceCacheLimits s) = false ∨ n = length (candidates s)).
Proof.
  unfold enforceCacheLimits, candidates. destruct (overLimits s) eqn:Eov.
  - apply evictLoop_prefix.
  - exists 0%nat. simpl. split_and!; [done | lia | by left].
Qed.

Lemma candidates_spec s k it :
  NoDup (cache s).*1 →
  (k, it) ∈ candidates s ↔ JsMap.get k (cache s) = Some it ∧ status it ≠ pending.
Proof.
  intros Hnd. unfold candidates.
  rewrite list_elem_of_In, filter_In, <- list_elem_of_In, sortByTimestamp_perm.
  unfold evictable. simpl. split.
  - intros [Hin Hst]. split; [by apply elem_get|]. by destruct (status it).
  - intros [Hget Hst]. split; [by apply get_Some_elem|]. by destruct (status it).
Qed.



Lemma candidates_NoDup s : NoDup (cache s).*1 → NoDup (candidates s).*1.
Proof.
  intros Hnd. unfold candidates.
  assert (Hs : NoDup (sortByTimestamp (cache s)).*1) by by rewrite sortByTimestamp_perm.
  revert Hs. generalize (sortByTimestamp (cache s)). intros l.
  induction l as [|e l IH]; simpl; [done|].
  rewrite NoDup_cons. intros [Hne Hl]. destruct (evictable e); simpl; [|auto].
  apply NoDup_cons. split; [|auto]. intros Hin. apply Hne.
  apply list_elem_of_fmap in Hin as (e' & -> & Hin).
  apply list_elem_of_In, filter_In in Hin as [Hin _].
  apply list_elem_of_fmap. exists e'. split; [done | by apply list_elem_of_In].
Qed.

(** What the removal of a batch of live entries does to the state. *)
Lemma evictAll_effect victims : ∀ s,
  state_ok s → live victims s →
  let s' := evictAll victims s in
  state_ok s'
  ∧ config s' = config s
  ∧ currentSize s' = currentSize s - sumSizes victims
  ∧ (∀ k, k ∈ victims.*1 →
       JsMap.get k (cache s') = None ∧ pendingPromises s' !! k = None)
  ∧ (∀ k, k ∉ victims.*1 →
       JsMap.get k (cache s') = JsMap.get k (cache s)
       ∧ pendingPromises s' !! k = pendingPromises s !! k).
Proof.
  induction victims as [|[k0 it0] rest IH]; intros s Hok Hl; simpl.
  - split_and!; [done | done | lia | |done].
    intros k Hk. by apply elem_of_nil in Hk.
  - assert (Hget : JsMap.get k0 (cache s) = Some it0) by (apply Hl; left).
    pose proof (evict_ok s k0 it0 Hok Hget) as Hok1.
    pose proof (live_tail k0 it0 rest s (ok_keys _ Hok) Hl) as Hl1.
    destruct (IH _ Hok1 Hl1) as (Hok' & Hcfg & Hsz & Hin & Hout).
    destruct Hl as [Hnd _]. simpl in Hnd. apply NoDup_cons in Hnd as [Hk0 Hnd].
    split_and!.
    + done.
    + by rewrite Hcfg.
    + rewrite Hsz. simpl. lia.
    + intros k Hk. apply elem_of_cons in Hk as [->|Hk]; [|by apply Hin].
      destruct (Hout k0 Hk0) as [-> ->]. simpl.
      split; [apply get_delete_eq, Hok | apply lookup_delete_eq].
    + intros k Hk. apply not_elem_of_cons in Hk as [Hne Hk].
      destruct (Hout k Hk) as [-> ->]. simpl.
      split; [by apply get_delete_ne | by apply lookup_delete_ne].
Qed.

Lemma live_take n entries s : live entries s → live (take n entries) s.
Proof.
  intros [Hnd Hl]. split.
  - rewrite fmap_take. eapply sublist_NoDup; [exact Hnd | apply sublist_take].
  - intros k it Hin. apply Hl. by apply (subseteq_take n).
Qed.

Lemma live_candidates s : NoDup (cache s).*1 → live (candidates s) s.
Proof.
  intros Hnd. split; [by apply candidates_NoDup|].
  intros k it Hin. by apply candidates_spec in Hin as [? _].
Qed.





(** ** Deduplication *)

Lemma heap_setSessionSettings sessionId service language voice w :
  heap (setSessionSettings sessionId service language voice w) = heap w.
Proof. unfold setSessionSettings. by destruct (negb _). Qed.

Lemma tasks_setSessionSettings sessionId service language voice w :
  tasks (setSessionSettings sessionId service language voice w) = tasks w.
Proof. unfold setSessionSettings. by destruct (negb _). Qed.

Lemma cache_setSessionSettings sessionId service language voice w :
  cache (svc (setSessionSettings sessionId service language voice w)) = cache (svc w).
Proof. unfold setSessionSettings. by destruct (negb _). Qed.

Lemma cache_ensureQueue sessionId s : cache (ensureQueue sessionId s) = cache s.
Proof. unfold ensureQueue. by destruct (_ !! _). Qed.

Lemma initialized_setSessionSettings sessionId service language voice w :
  initialized (svc (setSessionSettings sessionId service language voice w))
  = initialized (svc w).
Proof. unfold setSessionSettings. by destruct (negb _). Qed.

Lemma initialized_ensureQueue sessionId s :
  initialized (ensureQueue sessionId s) = initialized s.
Proof. unfold ensureQueue. by destruct (_ !! _). Qed.

Lemma thrown_setSessionSettings sessionId service language voice w :
  thrown (setSessionSettings sessionId service language voice w) = thrown w.
Proof. unfold setSessionSettings. by destruct (negb _). Qed.

Lemma preloadWithSettings_thrown a b c d sessionId now w w' :
  preloadWithSettings a b c d sessionId now w = Returns w' → thrown w' = thrown w.
Proof.
  unfold preloadWithSettings. destruct (JsMap.has _ _); [by intros [= <-]|].
  destruct (ttsFn (svc w)) as [fn|]; [|done].
  destruct (fn_throws fn a b c d); [done|]. by intros [= <-].
Qed.

Section Dedup.
Variables service language voice text : string.
Let key := generateKey service language voice text.
Let count := invocations service language voice text.

Lemma sameTuple_key c :
  sameTuple service language voice text c = true → callKey c = key.
Proof.
  unfold sameTuple, callKey, key. rewrite !andb_true_iff.
  intros [[[H1 H2] H3] H4].
  apply String.eqb_eq in H1, H2, H3, H4. congruence.
Qed.

Lemma sameArgs_key t :
  sameArgs service language voice text t = true →
  generateKey (th_service t) (th_language t) (th_voice t) (th_text t) = key.
Proof.
  unfold sameArgs, key. rewrite !andb_true_iff.
  intros [[[H1 H2] H3] H4].
  apply String.eqb_eq in H1, H2, H3, H4. congruence.
Qed.

Lemma count_same w w' : heap w' = heap w → thrown w' = thrown w → count w' = count w.
Proof. unfold count, invocations. by intros -> ->. Qed.

Lemma count_alloc w w' c :
  heap w' = heap w ++ [c] → thrown w' = thrown w →
  count w' = (count w + if sameTuple service language voice text c then 1 else 0)%nat.
Proof.
  unfold count, invocations. intros -> ->. rewrite List.filter_app, length_app. simpl.
  destruct (sameTuple service language voice text c); simpl; lia.
Qed.

Lemma count_throwing w w' t :
  heap w' = heap w → thrown w' = thrown w ++ [t] →
  count w' = (count w + if sameArgs service language voice text t then 1 else 0)%nat.
Proof.
  unfold count, invocations. intros -> ->. rewrite List.filter_app, length_app. simpl.
  destruct (sameArgs service language voice text t); simpl; lia.
Qed.

Lemma count_other w w' c :
  heap w' = heap w ++ [c] → thrown w' = thrown w → callKey c ≠ key → count w' = count w.
Proof.
  intros Hh Ht Hne. rewrite (count_alloc w w' c Hh Ht).
  destruct (sameTuple service language voice text c) eqn:E; [|lia].
  by apply sameTuple_key in E.
Qed.

Lemma count_throwing_other w w' t :
  heap w' = heap w → thrown w' = thrown w ++ [t] →
  generateKey (th_service t) (th_language t) (th_voice t) (th_text t) ≠ key →
  count w' = count w.
Proof.
  intros Hh Ht Hne. rewrite (count_throwing w w' t Hh Ht).
  destruct (sameArgs service language voice text t) eqn:E; [|lia].
  by apply sameArgs_key in E.
Qed.

Lemma filter_setState r p h :
  length (List.filter (sameTuple service language voice text) (alter (setState r) p h))
  = length (List.filter (sameTuple service language voice text) h).
Proof.
  revert p.
  induction h as [|c h IH]; intros p; [done|].
  destruct p as [|p].
  - cbn.
    change (sameTuple service language voice text (setState r c))
      with (sameTuple service language voice text c).
    by destruct (sameTuple service language voice text c).
  - change (alter (setState r) (S p) (c :: h)) with (c :: alter (setState r) p h).
    cbn [List.filter].
    destruct (sameTuple service language voice text c); cbn [length]; by rewrite IH.
Qed.

Lemma count_setState r p w w' :
  heap w' = alter (setState r) p (heap w) → thrown w' = thrown w → count w' = count w.
Proof. unfold count, invocations. intros -> ->. by rewrite filter_setState. Qed.

Lemma count_alloc_le w w' c :
  heap w' = heap w ++ [c] → thrown w' = thrown w → (count w' ≤ count w + 1)%nat.
Proof.
  intros Hh Ht. rewrite (count_alloc w w' c Hh Ht). destruct (sameTuple _ _ _ _ c); lia.
Qed.

Lemma count_throwing_le w w' t :
  heap w' = heap w → thrown w' = thrown w ++ [t] → (count w' ≤ count w + 1)%nat.
Proof.
  intros Hh Ht. rewrite (count_throwing w w' t Hh Ht). destruct (sameArgs _ _ _ _ t); lia.
Qed.

(** The synchronous part of [requestTTS] before [preloadWithSettings]. *)
Lemma count_prelude sessionId a b c w :
  count (with_svc (ensureQueue sessionId (svc (setSessionSettings sessionId a b c w)))
                  (setSessionSettings sessionId a b c w)) = count w.
Proof.
  apply count_same; simpl; [apply heap_setSessionSettings | apply thrown_setSessionSettings].
Qed.

(** [preloadWithSettings] calls [ttsFn] at most once, and only for a key
    that is not in the cache. *)
Lemma preloadWithSettings_heap a b c d sessionId now w w' :
  preloadWithSettings a b c d sessionId now w = Returns w' →
  (heap w' = heap w ∧ svc w' = svc w ∧ JsMap.has (generateKey a b c d) (cache (svc w)) = true)
  ∨ (∃ call, heap w' = heap w ++ [call]
             ∧ callKey call = generateKey a b c d
             ∧ (c_service call, c_language call, c_voice call, c_text call) = (a, b, c, d)
             ∧ JsMap.has (generateKey a b c d) (cache (svc w)) = false).
Proof.
  unfold preloadWithSettings.
  destruct (JsMap.has _ _) eqn:Ehas.
  - intros [= <-]. by left.
  - destruct (ttsFn (svc w)) as [fn|]; [|done].
    destruct (fn_throws fn a b c d); [done|]. intros [= <-]. right.
    eexists. split; [reflexivity|]. done.
Qed.

Lemma preloadWithSettings_count a b c d sessionId now w w' :
  JsMap.has key (cache (svc w)) = true →
  preloadWithSettings a b c d sessionId now w = Returns w' →
  count w' = count w.
Proof.
  intros Hhas Hp. pose proof (preloadWithSettings_thrown _ _ _ _ _ _ _ _ Hp) as Ht.
  apply preloadWithSettings_heap in Hp as [(Hh & _)|(call & Hh & Hk & _ & Habs)];
    [by apply count_same|].
  apply (count_other w w' call); [done..|].
  rewrite Hk. intros Heq. fold key in Heq. congruence.
Qed.

Lemma preloadWithSettings_count_throws a b c d sessionId now w e w' :
  JsMap.has key (cache (svc w)) = true →
  preloadWithSettings a b c d sessionId now w = Throws e w' →
  count w' = count w.
Proof.
  intros Hhas Hp.
  apply preloadWithSettings_throws in Hp as [Habs [[_ ->]|(fn & _ & _ & ->)]]; [done|].
  eapply count_throwing_other; [reflexivity..|]. simpl.
  intros Heq. fold key in Heq. congruence.
Qed.

Lemma preloadWithSettings_count_le a b c d sessionId now w w' :
  preloadWithSettings a b c d sessionId now w = Returns w' →
  (count w' ≤ count w + 1)%nat.
Proof.
  intros Hp. pose proof (preloadWithSettings_thrown _ _ _ _ _ _ _ _ Hp) as Ht.
  apply preloadWithSettings_heap in Hp as [(Hh & _)|(call & Hh & _)].
  - rewrite (count_same w w'); [lia | done..].
  - by eapply count_alloc_le.
Qed.

Lemma preloadWithSettings_count_le_throws a b c d sessionId now w e w' :
  preloadWithSettings a b c d sessionId now w = Throws e w' →
  (count w' ≤ count w + 1)%nat.
Proof.
  intros Hp.
  apply preloadWithSettings_throws in Hp as [Habs [[_ ->]|(fn & _ & _ & ->)]]; [lia|].
  by eapply count_throwing_le.
Qed.

(** One event, with the entry in the cache: no call for the tuple. *)
Lemma step_count e w w' :
  JsMap.has key (cache (svc w)) = true →
  step e w = Some w' → count w' = count w.
Proof.
  intros Hhas. destruct e; simpl.
  - by intros [= <-].
  - by intros [= <-].
  - by intros [= <-].
  - intros [= <-]. unfold hasCompletedItem.
    destruct (negb _); [done|]. by destruct (JsMap.get _ _).
  - intros [= <-]. unfold hasPending.
    destruct (negb _); [done|]. by destruct (JsMap.get _ _).
  - intros [= <-]. unfold setSessionSettings. by destruct (negb _).
  - intros [= <-]. unfold preloadTTS. destruct (negb _); [done|].
    destruct (sessionSettings (svc w) !! sessionId) as [st|]; [|done].
    destruct (preloadWithSettings _ _ _ _ _ _ _) as [w1|e w1] eqn:Ep.
    + by eapply preloadWithSettings_count.
    + change (count w1 = count w). by eapply preloadWithSettings_count_throws.
  - intros [= <-]. unfold requestTTS. destruct (negb (initialized _)) eqn:Hi; [done|].
    destruct (negb (includes _ _)).
    2:{ apply (count_prelude sessionId service0 language0 voice0 w). }
    destruct (preloadWithSettings _ _ _ _ _ _ _) as [w1|e w1] eqn:Ep.
    + change (count w1 = count w).
      rewrite <- (count_prelude sessionId service0 language0 voice0 w).
      eapply preloadWithSettings_count; [|exact Ep].
      simpl. by rewrite cache_ensureQueue, cache_setSessionSettings.
    + change (count w1 = count w).
      rewrite <- (count_prelude sessionId service0 language0 voice0 w).
      eapply preloadWithSettings_count_throws; [|exact Ep].
      simpl. by rewrite cache_ensureQueue, cache_setSessionSettings.
  - unfold settle. destruct (heap w !! p) as [c|]; [|done].
    destruct (c_state c); [done|]. destruct (withTimeout _ _) as [r out].
    destruct (c_origin c).
    + destruct (preloadHandlers _ _ _ _ _). intros [= <-]. by eapply count_setState.
    + intros [= <-]. by eapply count_setState.
  - unfold resume. destruct (tasks w !! rid) as [[a b c d i waits|p|k p|r]|]; try done.
    + destruct (forallb _ _); [|done]. intros [= <-]. unfold afterBarrier.
      destruct (JsMap.get (generateKey a b c d) _) eqn:Hget.
      * by destruct (_ && _).
      * apply has_false in Hget.
        destruct (ttsFn (svc w)) as [fn|]; [|done].
        destruct (fn_throws fn a b c d).
        -- eapply count_throwing_other; [reflexivity..|]. simpl.
           intros Heq. fold key in Heq. congruence.
        -- eapply count_other; [reflexivity..|].
           unfold callKey. simpl. intros Heq. fold key in Heq. congruence.
    + destruct (promiseState p w) as [r|]; [|done]. intros [= <-]. by destruct r.
    + destruct (promiseState p w) as [r|]; [|done]. intros [= <-].
      destruct r as [v|]; [|done]. simpl. by destruct (not_null v).
Qed.

(** One event, whatever the cache holds: at most one call. *)
Lemma step_count_le e w w' :
  step e w = Some w' → (count w' ≤ count w + 1)%nat.
Proof.
  assert (Hsame : ∀ w1 : World, heap w1 = heap w → thrown w1 = thrown w →
                    (count w1 ≤ count w + 1)%nat).
  { intros w1 Hh Ht. rewrite (count_same w w1 Hh Ht). lia. }
  destruct e; simpl.
  - intros [= <-]. by apply Hsame.
  - intros [= <-]. by apply Hsame.
  - intros [= <-]. by apply Hsame.
  - intros [= <-]. unfold hasCompletedItem.
    destruct (negb _); simpl; [by apply Hsame|].
    destruct (JsMap.get _ _); by apply Hsame.
  - intros [= <-]. unfold hasPending.
    destruct (negb _); simpl; [by apply Hsame|].
    destruct (JsMap.get _ _); by apply Hsame.
  - intros [= <-]. unfold setSessionSettings. destruct (negb _); by apply Hsame.
  - intros [= <-]. unfold preloadTTS. destruct (negb _); simpl; [by apply Hsame|].
    destruct (sessionSettings (svc w) !! sessionId) as [st|]; simpl; [|by apply Hsame].
    destruct (preloadWithSettings _ _ _ _ _ _ _) as [w1|e w1] eqn:Ep; simpl.
    + by eapply preloadWithSettings_count_le.
    + change (count w1 ≤ count w + 1)%nat. by eapply preloadWithSettings_count_le_throws.
  - intros [= <-]. unfold requestTTS.
    destruct (negb (initialized _)) eqn:Hi; simpl; [by apply Hsame|].
    destruct (negb (includes _ _)); simpl.
    2:{ apply Hsame; simpl;
          [apply heap_setSessionSettings | apply thrown_setSessionSettings]. }
    destruct (preloadWithSettings _ _ _ _ _ _ _) as [w1|e w1] eqn:Ep; simpl.
    + change (count w1 ≤ count w + 1)%nat.
      rewrite <- (count_prelude sessionId service0 language0 voice0 w).
      by eapply preloadWithSettings_count_le.
    + change (count w1 ≤ count w + 1)%nat.
      rewrite <- (count_prelude sessionId service0 language0 voice0 w).
      by eapply preloadWithSettings_count_le_throws.
  - unfold settle. destruct (heap w !! p) as [c|]; [|done].
    destruct (c_state c); [done|]. destruct (withTimeout _ _) as [r out].
    destruct (c_origin c).
    + destruct (preloadHandlers _ _ _ _ _) as [s' r']. intros [= <-].
      rewrite (count_setState r' p w (settleCall p r' (with_svc s' (logs out w)))
                 eq_refl eq_refl). lia.
    + intros [= <-].
      rewrite (count_setState r p w (settleCall p r (logs out w)) eq_refl eq_refl). lia.
  - unfold resume. destruct (tasks w !! rid) as [[a b c d i waits|p|k p|r]|]; try done.
    + destruct (forallb _ _); [|done]. intros [= <-]. unfold afterBarrier.
      destruct (JsMap.get (generateKey a b c d) _) eqn:Hget.
      * destruct (_ && _); by apply Hsame.
      * destruct (ttsFn (svc w)) as [fn|]; [|by apply Hsame].
        destruct (fn_throws fn a b c d).
        -- by eapply count_throwing_le.
        -- by eapply count_alloc_le.
    + destruct (promiseState p w) as [r|]; [|done]. intros [= <-].
      destruct r; by apply Hsame.
    + destruct (promiseState p w) as [r|]; [|done]. intros [= <-].
      destruct r as [v|]; simpl; [|by apply Hsame]. destruct (not_null v); by apply Hsame.
Qed.

Lemma run_count es : ∀ w w',
  cachedThroughout key es w → run es w = Some w' →
  count w' = count w.
Proof.
  induction es as [|e es IH]; simpl; intros w w' [Hhas Hrest].
  - by intros [= <-].
  - destruct (step e w) as [w1|] eqn:E; [|done].
    intros Hrun. rewrite (IH _ _ Hrest Hrun). by eapply step_count.
Qed.
End Dedup.

(** A first [requestTTS] for a key that is not cached calls [ttsFn] once:
    when the call returns a promise, the key is cached afterwards; when it
    throws, the cache is as before. *)
Lemma requestTTS_starts_call service language voice text sessionId now w :
  world_ok w → initialized (svc w) = true →
  JsMap.has (generateKey service language voice text) (cache (svc w)) = false →
  let w1 := requestTTS service language voice text sessionId now w in
  invocations service language voice text w1
  = S (invocations service language voice text w)
  ∧ ∃ fn, ttsFn (svc w) = Some fn
      ∧ (fn_throws fn service language voice text = None →
         JsMap.has (generateKey service language voice text) (cache (svc w1)) = true)
      ∧ (∀ e, fn_throws fn service language voice text = Some e →
           cache (svc w1) = cache (svc w)
           ∧ requestResult (length (tasks w)) w1 = Some (Rejected e)).
Proof.
  intros Hok Hi Habs. unfold requestTTS. rewrite Hi. cbn [negb].
  set (key := generateKey service language voice text) in *.
  set (w1 := setSessionSettings sessionId service language voice w).
  set (w2 := with_svc (ensureQueue sessionId (svc w1)) w1).
  assert (Hc2 : cache (svc w2) = cache (svc w)).
  { unfold w2, w1. simpl. by rewrite cache_ensureQueue, cache_setSessionSettings. }
  assert (Hh2 : heap w2 = heap w).
  { unfold w2, w1. simpl. by rewrite heap_setSessionSettings. }
  assert (Hth2 : thrown w2 = thrown w).
  { unfold w2, w1. simpl. by rewrite thrown_setSessionSettings. }
  assert (Hta2 : tasks w2 = tasks w).
  { unfold w2, w1. simpl. by rewrite tasks_setSessionSettings. }
  assert (Hfn2 : ttsFn (svc w2) = ttsFn (svc w)).
  { unfold w2, w1, setSessionSettings, ensureQueue. rewrite Hi. simpl.
    by destruct (_ !! _). }
  assert (Hok2 : world_ok w2).
  { pose proof (world_ok_requestTTS w service language voice text sessionId now Hok) as H.
    pose proof (world_ok_setSessionSettings w sessionId service language voice Hok)
      as [Hs Hc Ht Hh].
    assert (Hi1 : initialized (svc w1) = true).
    { unfold w1, setSessionSettings. by rewrite Hi. }
    split; simpl; try done.
    - by apply ensureQueue_ok.
    - intros k it. rewrite cache_ensureQueue. apply Hc. }
  assert (Hq : includes key (default [] (sessionQueues (svc w2) !! sessionId)) = false).
  { destruct (includes _ _) eqn:E; [|done]. apply includes_true in E.
    destruct (sessionQueues (svc w2) !! sessionId) as [q|] eqn:Eq; simpl in E.
    - destruct (ok_queues _ (wk_state _ Hok2) _ _ Eq) as [_ Hel].
      apply Hel in E. rewrite Hc2 in E. apply has_false in Habs.
      rewrite Habs in E. by destruct E.
    - by apply elem_of_nil in E. }
  rewrite Hq. cbn [negb].
  unfold preloadWithSettings. fold key. rewrite Hc2, Habs.
  destruct (ok_fn _ (wk_state _ Hok) Hi) as [fn Hfn]. rewrite Hfn2, Hfn.
  destruct (fn_throws fn service language voice text) as [e|] eqn:Ef.
  - cbn [heap spawn with_svc throwing svc thrown]. split.
    + unfold invocations. cbn [heap thrown spawn throwing with_svc alloc].
      rewrite Hh2, Hth2.
      rewrite List.filter_app, length_app.
      unfold sameArgs at 2. simpl. rewrite !String.eqb_refl. simpl. lia.
    + exists fn. split; [done|]. split; [congruence|]. intros e' He'.
      rewrite Ef in He'. injection He' as <-.
      split; [done|]. unfold requestResult. cbn [tasks spawn throwing]. rewrite <- Hta2.
      by rewrite list_lookup_middle.
  - cbv zeta. cbn [heap spawn with_svc alloc svc]. split.
    + unfold invocations. cbn [heap thrown spawn throwing with_svc alloc].
      rewrite Hh2, Hth2.
      rewrite List.filter_app, length_app.
      unfold sameTuple at 2. simpl. rewrite !String.eqb_refl. simpl. lia.
    + exists fn. split; [done|]. split; [|congruence]. intros _.
      unfold pushKey. cbn [cache with_sessionQueues]. rewrite cache_ensureQueue.
      unfold JsMap.has. rewrite setCacheItem_pending; [done | | done].
      apply state_ok_pendingPromises, Hok2.
Qed.

(** C4.  [preloadWithSettings] changes nothing when the key is already
    in the cache, whatever the status of the entry, and so does
    [preloadTTS].  During any run in which the entry stays in the cache,
    [ttsFn] is not called for the tuple, however often [preloadTTS] and
    [requestTTS] are called for it: counted from any world, one event
    followed by such a run makes at most one call; a first [requestTTS]
    for a tuple that is not cached makes exactly one and, when that call
    returns a promise, leaves a cached entry (when the call throws, the
    cache is as before).  Calls that throw are counted like the others. *)
Theorem generation_is_deduplicated
    (es0 : list Event) (w : World)
    (service language voice text sessionId : string) (now : Z) :
  run es0 initialWorld = Some w →
  let key := generateKey service language voice text in
  let count := invocations service language voice text in
  (JsMap.has key (cache (svc w)) = true →
     preloadWithSettings service language voice text sessionId now w = Returns w
     ∧ (initialized (svc w) = true →
        sessionSettings (svc w) !! sessionId = Some (mkSettings service language voice) →
        preloadTTS text sessionId now w = w))
  ∧ (∀ es w', cachedThroughout key es w → run es w = Some w' →
       count w' = count w)
  ∧ (∀ e w1 es w', step e w = Some w1 → cachedThroughout key es w1 →
       run es w1 = Some w' → (count w' ≤ count w + 1)%nat)
  ∧ (JsMap.has key (cache (svc w)) = false → initialized (svc w) = true →
       ∃ w1 fn, step (RequestTTS service language voice text sessionId now) w = Some w1
             ∧ count w1 = S (count w)
             ∧ ttsFn (svc w) = Some fn
             ∧ (fn_throws fn service language voice text = None →
                JsMap.has key (cache (svc w1)) = true)
             ∧ (∀ e, fn_throws fn service language voice text = Some e →
                  cache (svc w1) = cache (svc w))).
Proof.
  intros Hrun key count.
  assert (Hok : world_ok w) by (apply reachable_ok; by exists es0).
  split_and!.
  - intros Hhas.
    assert (Hp : preloadWithSettings service language voice text sessionId now w
                 = Returns w).
    { unfold preloadWithSettings. fold key. by rewrite Hhas. }
    split; [done|]. intros Hi Hst. unfold preloadTTS. rewrite Hi, Hst. simpl.
    by rewrite Hp.
  - intros es w'. apply run_count.
  - intros e w1 es w' Hstep Hc Hr.
    unfold count. rewrite (run_count _ _ _ _ es w1 w' Hc Hr).
    by eapply step_count_le.
  - intros Habs Hi.
    destruct (requestTTS_starts_call service language voice text sessionId now w
                Hok Hi Habs) as (Hcount & fn & Hfn & Hret & Hthr).
    eexists _, fn. split; [reflexivity|]. split_and!; [done..|].
    intros e He. by destruct (Hthr e He).
Qed.

Lemma generation_is_deduplicated_witness :
  match run repeated initialWorld with
  | Some w =>
      ∀ es w',
        cachedThroughout (generateKey "aws" "en-US" "female" "Hello world") es w →
        run es w = Some w' →
        invocations "aws" "en-US" "female" "Hello world" w'
        = invocations "aws" "en-US" "female" "Hello world" w
  | None => False
  end.
Proof.
  destruct (run repeated initialWorld) as [w|] eqn:E.
  - apply (generation_is_deduplicated repeated w
             "aws" "en-US" "female" "Hello world" "test-session" 0 E).
  - vm_compute in E. discriminate E.
Defined.

(** ** Failures stay inside *)

Lemma promiseState_settleCall p r w c :
  heap w !! p = Some c → promiseState p (settleCall p r w) = Some r.
Proof.
  intros Hc. unfold promiseState, settleCall. simpl.
  rewrite list_lookup_alter, decide_True, Hc by done. done.
Qed.

Lemma promiseState_settleCall_ne p q r w :
  p ≠ q → promiseState q (settleCall p r w) = promiseState q w.
Proof.
  intros Hne. unfold promiseState, settleCall. simpl.
  by rewrite list_lookup_alter_ne.
Qed.

(** What [settle] does, in one statement. *)
Lemma settle_inv p o now w w' :
  settle p o now w = Some w' →
  ∃ c v s', heap w !! p = Some c ∧ c_state c = None
    ∧ (failing o → v = null)
    ∧ w' = settleCall p (Fulfilled v) (with_svc s' (logs (withTimeout o (c_timeout c)).2 w))
    ∧ match c_origin c with
      | FromPreload =>
          ∃ item, s' = setCacheItem (callKey c) item (svc w)
                  ∧ promise item = p ∧ status item ≠ pending
                  ∧ (failing o → item = mkItem p undefined now 0 error)
      | FromRequest => s' = svc w
      end.
Proof.
  intros H. unfold settle in H. destruct (heap w !! p) as [c|] eqn:Hp; [|done].
  destruct (c_state c) eqn:Hst; [done|].
  exists c. destruct (c_origin c) eqn:Ho.
  - destruct o as [v|e|]; simpl in H.
    + unfold preloadHandlers in H.
      destruct (not_null v) eqn:Hnn; simpl in H; injection H as <-.
      * exists v, (setCacheItem (callKey c)
                     (mkItem p v now (estimateSize v) completed) (svc w)).
        split_and!; [done | done | done | done |].
        eexists. split_and!; [reflexivity | done | done |].
        simpl. intros ->. done.
      * exists null, (setCacheItem (callKey c)
                        (mkItem p undefined now 0 error) (svc w)).
        split_and!; [done | done | done | done |].
        eexists. split_and!; [reflexivity | done | done | done].
    + injection H as <-.
      exists null, (setCacheItem (callKey c) (mkItem p undefined now 0 error) (svc w)).
      split_and!; [done | done | done | done |].
      eexists. split_and!; [reflexivity | done | done | done].
    + injection H as <-.
      exists null, (setCacheItem (callKey c) (mkItem p undefined now 0 error) (svc w)).
      split_and!; [done | done | done | done |].
      eexists. split_and!; [reflexivity | done | done | done].
  - destruct o as [v|e|]; simpl in H; injection H as <-.
    + exists v, (svc w). by split_and!.
    + exists null, (svc w). by split_and!.
    + exists null, (svc w). by split_and!.
Qed.

Lemma settle_enabled p o now w c :
  heap w !! p = Some c → c_state c = None → is_Some (settle p o now w).
Proof.
  intros Hc Hs. unfold settle. rewrite Hc, Hs.
  destruct (withTimeout o (c_timeout c)) as [r out].
  destruct (c_origin c); [destruct (preloadHandlers _ _ _ _ _)|]; eauto.
Qed.

Lemma settle_tasks p o now w w' : settle p o now w = Some w' → tasks w' = tasks w.
Proof. intros H. apply settle_inv in H as (c & v & s' & _ & _ & _ & -> & _). done. Qed.

Lemma settle_promiseState p o now w w' :
  settle p o now w = Some w' →
  ∃ v, promiseState p w' = Some (Fulfilled v) ∧ (failing o → v = null).
Proof.
  intros H. apply settle_inv in H as (c & v & s' & Hc & _ & Hf & -> & _).
  exists v. split; [|done]. by eapply promiseState_settleCall.
Qed.

Lemma settle_persists p o now w w' q r :
  settle p o now w = Some w' → promiseState q w = Some r → promiseState q w' = Some r.
Proof.
  intros H Hq. apply settle_inv in H as (c & v & s' & Hc & Hs & _ & -> & _).
  rewrite promiseState_settleCall_ne; [done|].
  intros <-. unfold promiseState in Hq. rewrite Hc in Hq. simpl in Hq. congruence.
Qed.

Lemma settle_heap_Some p o now w w' q :
  settle p o now w = Some w' → is_Some (heap w !! q) → is_Some (heap w' !! q).
Proof.
  intros H Hq. apply settle_inv in H as (c & v & s' & _ & _ & _ & -> & _).
  simpl. by apply is_Some_alter.
Qed.

Lemma requestResult_setTask rid t w :
  is_Some (tasks w !! rid) →
  requestResult rid (setTask rid t w) = match t with Done r => Some r | _ => None end.
Proof.
  intros Hs. unfold requestResult, setTask. simpl.
  rewrite list_lookup_insert_eq; [done|]. by apply lookup_lt_is_Some.
Qed.

(** Once the awaited promise is fulfilled with [null], the request can go
    on, and it is then fulfilled with [null]. *)
Lemma resume_null w rid p now :
  awaits w rid p → promiseState p w = Some (Fulfilled null) →
  ∃ w', resume rid now w = Some w' ∧ requestResult rid w' = Some (Fulfilled null).
Proof.
  intros [Ht|[key Ht]] Hp; unfold resume; rewrite Ht, Hp; eexists; (split; [reflexivity|]).
  - unfold afterItem. by rewrite requestResult_setTask by eauto.
  - unfold afterDirect. simpl. by rewrite requestResult_setTask by eauto.
Qed.

Lemma run_app es1 es2 w :
  run (es1 ++ es2) w = match run es1 w with Some w1 => run es2 w1 | None => None end.
Proof.
  revert w. induction es1 as [|e es1 IH]; intros w; simpl; [done|].
  by destruct (step e w).
Qed.

Lemma isSettled_true w p : isSettled w p = true ↔ is_Some (promiseState p w).
Proof.
  unfold isSettled. destruct (promiseState p w); split; eauto; [done|].
  by intros [? ?].
Qed.

(** Every outstanding call can be brought to an end by its timer. *)
Lemma settle_all (ps : list nat) : ∀ w,
  world_ok w → (∀ p, p ∈ ps → is_Some (heap w !! p)) →
  ∃ es w', run es w = Some w' ∧ tasks w' = tasks w ∧ world_ok w'
    ∧ (∀ p, p ∈ ps → is_Some (promiseState p w'))
    ∧ (∀ q r, promiseState q w = Some r → promiseState q w' = Some r).
Proof.
  induction ps as [|p ps IH]; intros w Hok Hall.
  - exists [], w. split_and!; try done. intros p Hp. by apply elem_of_nil in Hp.
  - destruct (promiseState p w) as [r|] eqn:Hp.
    + destruct (IH w Hok) as (es & w' & Hrun & Ht & Hok' & Hs & Hpers).
      { intros q Hq. apply Hall. by right. }
      exists es, w'. split_and!; try done.
      intros q Hq. apply elem_of_cons in Hq as [->|Hq]; [|by apply Hs].
      rewrite (Hpers _ _ Hp). eauto.
    + destruct (Hall p) as [c Hc]; [by left|].
      assert (Hst : c_state c = None).
      { unfold promiseState in Hp. rewrite Hc in Hp. done. }
      destruct (settle_enabled p TimesOut 0 w c Hc Hst) as [w1 Hw1].
      destruct (IH w1) as (es & w' & Hrun & Ht & Hok' & Hs & Hpers).
      { by eapply world_ok_settle. }
      { intros q Hq. eapply settle_heap_Some; [done|]. apply Hall. by right. }
      exists (Settle p TimesOut 0 :: es), w'. simpl. rewrite Hw1.
      split_and!; try done.
      * rewrite Ht. by eapply settle_tasks.
      * intros q Hq. apply elem_of_cons in Hq as [->|Hq]; [|by apply Hs].
        destruct (settle_promiseState _ _ _ _ _ Hw1) as (v & Hv & _).
        rewrite (Hpers _ _ Hv). eauto.
      * intros q r Hq. apply Hpers. by eapply settle_persists.
Qed.

(** A request that has passed the barrier and is not rejected can be
    completed. *)
Lemma request_completes_after_barrier w rid t :
  world_ok w → tasks w !! rid = Some t →
  match t with AtBarrier _ _ _ _ _ _ | Done (Rejected _) => False | _ => True end →
  ∃ es w' v, run es w = Some w' ∧ requestResult rid w' = Some (Fulfilled v).
Proof.
  intros Hok Ht Hnb. pose proof (wk_tasks _ Hok _ _ Ht) as Htok.
  destruct t as [? ? ? ? ? ?|p|key p|r]; [done| | |]; simpl in Htok.
  - destruct (settle_all [p] w Hok) as (es & w1 & Hrun & Ht1 & Hok1 & Hs & _).
    { intros q Hq. by apply list_elem_of_singleton in Hq as ->. }
    destruct (Hs p) as [r Hr]; [by left|].
    exists (es ++ [Resume rid 0]). rewrite run_app, Hrun. simpl.
    unfold resume. rewrite Ht1, Ht, Hr.
    destruct r as [v|e]; eexists _, _; (split; [reflexivity|]); unfold afterItem.
    + rewrite requestResult_setTask; [done|]. rewrite Ht1, Ht. eauto.
    + rewrite requestResult_setTask; [done|]. simpl. rewrite Ht1, Ht. eauto.
  - destruct Htok as (c & Hc & _).
    destruct (settle_all [p] w Hok) as (es & w1 & Hrun & Ht1 & Hok1 & Hs & _).
    { intros q Hq. apply list_elem_of_singleton in Hq as ->. eauto. }
    destruct (Hs p) as [r Hr]; [by left|].
    exists (es ++ [Resume rid 0]). rewrite run_app, Hrun. simpl.
    unfold resume. rewrite Ht1, Ht, Hr.
    destruct r as [v|e]; eexists _, _; (split; [reflexivity|]); unfold afterDirect.
    + rewrite requestResult_setTask; [done|].
      destruct (not_null v); simpl; rewrite Ht1, Ht; eauto.
    + rewrite requestResult_setTask; [done|]. simpl. rewrite Ht1, Ht. eauto.
  - destruct r as [v|e]; [|done]. exists [], w, v. split; [done|].
    unfold requestResult. by rewrite Ht.
Qed.

(** Every request that is not rejected can be completed, and is then
    fulfilled. *)
Lemma request_completes w rid t :
  world_ok w → tasks w !! rid = Some t → (∀ e, t ≠ Done (Rejected e)) →
  ∃ es w' v, run es w = Some w' ∧ requestResult rid w' = Some (Fulfilled v).
Proof.
  intros Hok Ht Hnr.
  destruct t as [service language voice text sessionId waits|p|key p|r] eqn:Et;
    [|by eapply request_completes_after_barrier..
     |eapply request_completes_after_barrier; [done..|];
      destruct r as [v|e]; [done | by destruct (Hnr e)]].
  pose proof (wk_tasks _ Hok _ _ Ht) as Htok. simpl in Htok.
  destruct (settle_all waits w Hok Htok) as (es & w1 & Hrun & Ht1 & Hok1 & Hs & _).
  assert (Hres : resume rid 0 w1 = Some (afterBarrier rid service language voice text w1)).
  { unfold resume. rewrite Ht1, Ht.
    replace (forallb (isSettled w1) waits) with true; [done|].
    symmetry. apply forallb_forall. intros p Hp.
    apply isSettled_true, Hs. by apply list_elem_of_In. }
  pose proof (world_ok_resume _ _ _ _ Hok1 Hres) as Hok2.
  assert (His : is_Some (tasks w1 !! rid)) by (rewrite Ht1, Ht; eauto).
  assert (∃ t2, tasks (afterBarrier rid service language voice text w1) !! rid = Some t2
                ∧ match t2 with
                  | AtBarrier _ _ _ _ _ _ | Done (Rejected _) => False
                  | _ => True
                  end)
    as (t2 & Ht2 & Hnb).
  { apply lookup_lt_is_Some in His. unfold afterBarrier.
    destruct (JsMap.get _ _) as [item|].
    - destruct (_ && _); eexists; simpl;
        (split; [by apply list_lookup_insert_eq | done]).
    - destruct (ttsFn (svc w1)) as [fn|];
        [destruct (fn_throws fn service language voice text)|]; eexists; simpl;
        (split; [by apply list_lookup_insert_eq | done]). }
  destruct (request_completes_after_barrier _ _ _ Hok2 Ht2 Hnb) as (es2 & w' & v & Hrun2 & Hv).
  exists (es ++ Resume rid 0 :: es2), w', v. split; [|done].
  rewrite run_app, Hrun. simpl. by rewrite Hres.
Qed.

Lemma preloadWithSettings_tasks a b c d sessionId now w w' :
  preloadWithSettings a b c d sessionId now w = Returns w' → tasks w' = tasks w.
Proof.
  unfold preloadWithSettings. destruct (JsMap.has _ _); [by intros [= <-]|].
  destruct (ttsFn (svc w)) as [fn|]; [|done].
  destruct (fn_throws fn a b c d); [done|]. by intros [= <-].
Qed.

Lemma preloadWithSettings_uncaught a b c d sessionId now w w' :
  preloadWithSettings a b c d sessionId now w = Returns w' → uncaught w' = uncaught w.
Proof.
  unfold preloadWithSettings. destruct (JsMap.has _ _); [by intros [= <-]|].
  destruct (ttsFn (svc w)) as [fn|]; [|done].
  destruct (fn_throws fn a b c d); [done|]. by intros [= <-].
Qed.

Lemma uncaught_setSessionSettings sessionId service language voice w :
  uncaught (setSessionSettings sessionId service language voice w) = uncaught w.
Proof. unfold setSessionSettings. by destruct (negb _). Qed.

Lemma requestTTS_tasks service language voice text sessionId now w :
  ∃ t, tasks (requestTTS service language voice text sessionId now w) = tasks w ++ [t].
Proof.
  unfold requestTTS. destruct (negb (initialized (svc w))); [by eexists|].
  destruct (negb (includes _ _)).
  - destruct (preloadWithSettings _ _ _ _ _ _ _) as [w3|e w3] eqn:Ep; eexists; simpl.
    + apply preloadWithSettings_tasks in Ep. simpl in Ep.
      by rewrite Ep, tasks_setSessionSettings.
    + apply preloadWithSettings_throws_svc in Ep as (_ & _ & Ht & _). simpl in Ht.
      by rewrite Ht, tasks_setSessionSettings.
  - eexists. simpl. by rewrite tasks_setSessionSettings.
Qed.

(** ** What is thrown, and where it goes *)

Lemma app_singleton_ne {A} (l : list A) (x : A) : l ++ [x] ≠ l.
Proof.
  intros H. apply (f_equal length) in H. rewrite length_app in H. simpl in H. lia.
Qed.

(** [preloadTTS] throws what [ttsFn] throws, and nothing else. *)
Lemma preloadTTS_quiet text sessionId now w :
  world_ok w →
  let w' := preloadTTS text sessionId now w in
  tasks w' = tasks w
  ∧ ((thrown w' = thrown w ∧ uncaught w' = uncaught w)
     ∨ ∃ t, thrown w' = thrown w ++ [t] ∧ uncaught w' = uncaught w ++ [th_error t]).
Proof.
  intros Hok. unfold preloadTTS.
  destruct (initialized (svc w)) eqn:Hi; cbn [negb]; [|by split; [|left]].
  destruct (sessionSettings (svc w) !! sessionId) as [st|]; [|by split; [|left]].
  destruct (preloadWithSettings _ _ _ _ _ _ _) as [w1|e w1] eqn:Ep.
  - split; [by eapply preloadWithSettings_tasks|]. left.
    split; [by eapply preloadWithSettings_thrown | by eapply preloadWithSettings_uncaught].
  - apply preloadWithSettings_throws in Ep as [_ [[Hnone ->]|(fn & _ & _ & ->)]].
    + destruct (ok_fn _ (wk_state _ Hok) Hi) as [fn Hfn]. congruence.
    + split; [done|]. right. eexists. split; [reflexivity | done].
Qed.

(** [requestTTS] throws nothing; the promise it returns is rejected
    exactly when [ttsFn] has thrown in [preloadWithSettings]. *)
Lemma requestTTS_quiet service language voice text sessionId now w :
  world_ok w →
  let w' := requestTTS service language voice text sessionId now w in
  uncaught w' = uncaught w
  ∧ ∃ t, tasks w' = tasks w ++ [t]
      ∧ ((thrown w' = thrown w ∧ ∀ e, t ≠ Done (Rejected e))
         ∨ ∃ e, thrown w' = thrown w ++ [mkThrown service language voice text e]
                ∧ t = Done (Rejected e)).
Proof.
  intros Hok. unfold requestTTS.
  destruct (initialized (svc w)) eqn:Hi; cbn [negb].
  2:{ split; [done|]. eexists. split; [reflexivity|]. left. by split. }
  set (w1 := setSessionSettings sessionId service language voice w).
  set (w2 := with_svc (ensureQueue sessionId (svc w1)) w1).
  assert (Hu2 : uncaught w2 = uncaught w).
  { unfold w2, w1. simpl. apply uncaught_setSessionSettings. }
  assert (Hth2 : thrown w2 = thrown w).
  { unfold w2, w1. simpl. apply thrown_setSessionSettings. }
  assert (Hta2 : tasks w2 = tasks w).
  { unfold w2, w1. simpl. apply tasks_setSessionSettings. }
  assert (Hfn2 : ttsFn (svc w2) = ttsFn (svc w)).
  { unfold w2, w1, setSessionSettings, ensureQueue. rewrite Hi. simpl.
    by destruct (_ !! _). }
  destruct (negb (includes _ _)).
  2:{ split; [done|]. eexists. split; [by rewrite <- Hta2|]. left. by split. }
  destruct (preloadWithSettings _ _ _ _ _ _ _) as [w3|e w3] eqn:Ep.
  - split; [by rewrite <- Hu2, <- (preloadWithSettings_uncaught _ _ _ _ _ _ _ _ Ep)|].
    eexists. split.
    { cbn [tasks spawn]. by rewrite (preloadWithSettings_tasks _ _ _ _ _ _ _ _ Ep), Hta2. }
    left. split; [|done].
    cbn [thrown spawn]. by rewrite (preloadWithSettings_thrown _ _ _ _ _ _ _ _ Ep).
  - apply preloadWithSettings_throws in Ep as [_ [[Hnone ->]|(fn & _ & _ & ->)]].
    + destruct (ok_fn _ (wk_state _ Hok) Hi) as [fn Hfn]. congruence.
    + split; [done|]. eexists. split; [cbn [tasks spawn throwing]; by rewrite Hta2|].
      right. exists e. split; [|done]. cbn [thrown spawn throwing]. by rewrite Hth2.
Qed.

Lemma settle_quiet p o now w w' :
  settle p o now w = Some w' →
  tasks w' = tasks w ∧ uncaught w' = uncaught w ∧ thrown w' = thrown w.
Proof.
  intros H. by apply settle_inv in H as (c & v & s' & _ & _ & _ & -> & _).
Qed.

(** What [ttsFn] throws in the last branch of [requestTTS] is caught: a
    request that goes on is never rejected. *)
Lemma resume_quiet rid now w w' :
  resume rid now w = Some w' →
  uncaught w' = uncaught w
  ∧ (∃ l, thrown w' = thrown w ++ l)
  ∧ ∃ t, tasks w' = <[rid := t]> (tasks w) ∧ ∀ e, t ≠ Done (Rejected e).
Proof.
  assert (Hnil : ∃ l, thrown w = thrown w ++ l) by (exists []; by rewrite app_nil_r).
  unfold resume. destruct (tasks w !! rid) as [[a b c d i waits|p|k p|r]|]; try done.
  - destruct (forallb _ _); [|done]. intros [= <-]. unfold afterBarrier.
    destruct (JsMap.get _ _) as [item|].
    + destruct (_ && _); (split; [done|]); (split; [done|]);
        eexists; (split; [reflexivity | done]).
    + destruct (ttsFn (svc w)) as [fn|]; [destruct (fn_throws fn a b c d)|];
        (split; [done|]); (split; [by eauto|]);
        eexists; (split; [reflexivity | done]).
  - destruct (promiseState p w) as [r|]; [|done]. intros [= <-].
    destruct r; (split; [done|]); (split; [done|]);
      eexists; (split; [reflexivity | done]).
  - destruct (promiseState p w) as [r|]; [|done]. intros [= <-].
    destruct r as [v|e]; [unfold afterDirect; destruct (not_null v)|];
      (split; [done|]); (split; [done|]);
      eexists; (split; [reflexivity | done]).
Qed.

Lemma calm_same w w' :
  tasks w' = tasks w → uncaught w' = uncaught w → calm w → calm w'.
Proof. unfold calm. by intros -> ->. Qed.

(** One event: the log of throws only grows, and an event in which
    [ttsFn] does not throw adds no exception and no rejection. *)
Lemma step_quiet e w w' :
  world_ok w → step e w = Some w' →
  (∃ l, thrown w' = thrown w ++ l)
  ∧ (thrown w' = thrown w → calm w → calm w').
Proof.
  intros Hok.
  assert (Hnil : ∃ l, thrown w = thrown w ++ l) by (exists []; by rewrite app_nil_r).
  destruct e; simpl.
  - intros [= <-]. split; [done|]. intros _. by apply calm_same.
  - intros [= <-]. split; [done|]. intros _. by apply calm_same.
  - intros [= <-]. split; [done|]. intros _. by apply calm_same.
  - intros [= <-]. unfold hasCompletedItem.
    destruct (negb _); [|destruct (JsMap.get _ _)];
      (split; [done|]); intros _; by apply calm_same.
  - intros [= <-]. unfold hasPending.
    destruct (negb _); [|destruct (JsMap.get _ _)];
      (split; [done|]); intros _; by apply calm_same.
  - intros [= <-]. unfold setSessionSettings.
    destruct (negb _); (split; [done|]); intros _; by apply calm_same.
  - intros [= <-].
    destruct (preloadTTS_quiet text sessionId now w Hok) as [Ht [[Hth Hu]|(t & Hth & Hu)]].
    + split; [by rewrite Hth|]. intros _. by apply calm_same.
    + split; [by eauto|]. intros Heq. rewrite Heq in Hth.
      symmetry in Hth. by apply app_singleton_ne in Hth.
  - intros [= <-].
    destruct (requestTTS_quiet service language voice text sessionId now w Hok)
      as (Hu & t & Ht & [[Hth Hnr]|(e & Hth & ->)]).
    + split; [by rewrite Hth|]. intros _ [Hun Hts]. split; [by rewrite Hu|].
      intros rid r. rewrite Ht. intros Hl.
      apply lookup_app_Some in Hl as [Hl|[_ Hl]]; [by eapply Hts|].
      apply list_lookup_singleton_Some in Hl as [_ ->].
      destruct r as [v|e]; [eauto | by destruct (Hnr e)].
    + split; [by eauto|]. intros Heq. rewrite Heq in Hth.
      symmetry in Hth. by apply app_singleton_ne in Hth.
  - intros Hs. apply settle_quiet in Hs as (Ht & Hu & Hth).
    split; [by rewrite Hth|]. intros _. by apply calm_same.
  - intros Hr. apply resume_quiet in Hr as (Hu & Hl & t & Ht & Hnr).
    split; [done|]. intros _ [Hun Hts]. split; [by rewrite Hu|].
    intros rid' r. rewrite Ht. intros Hl'.
    apply list_lookup_insert_Some in Hl' as [(_ & -> & _)|[_ Hl']]; [|by eapply Hts].
    destruct r as [v|e]; [eauto | by destruct (Hnr e)].
Qed.

Lemma run_thrown es : ∀ w w',
  world_ok w → run es w = Some w' → ∃ l, thrown w' = thrown w ++ l.
Proof.
  induction es as [|e es IH]; simpl; intros w w' Hok.
  - intros [= <-]. exists []. by rewrite app_nil_r.
  - destruct (step e w) as [w1|] eqn:E; [|done]. intros Hrun.
    destruct (proj1 (step_quiet e w w1 Hok E)) as [l1 Hl1].
    destruct (IH w1 w' (world_ok_step _ _ _ Hok E) Hrun) as [l2 Hl2].
    exists (l1 ++ l2). by rewrite Hl2, Hl1, app_assoc.
Qed.

Lemma run_quiet es : ∀ w w',
  world_ok w → calm w → run es w = Some w' → thrown w' = thrown w → calm w'.
Proof.
  induction es as [|e es IH]; simpl; intros w w' Hok Hcalm.
  - by intros [= <-].
  - destruct (step e w) as [w1|] eqn:E; [|done]. intros Hrun Heq.
    pose proof (world_ok_step _ _ _ Hok E) as Hok1.
    destruct (step_quiet e w w1 Hok E) as [[l1 Hl1] Hc].
    destruct (run_thrown es w1 w' Hok1 Hrun) as [l2 Hl2].
    assert (Hnil : l1 = []).
    { rewrite Hl2, Hl1, <- app_assoc in Heq.
      rewrite <- (app_nil_r (thrown w)) in Heq at 2.
      apply app_inv_head in Heq. by apply app_eq_nil in Heq as [-> _]. }
    rewrite Hnil, app_nil_r in Hl1.
    apply (IH w1 w' Hok1 (Hc Hl1 Hcalm) Hrun). by rewrite Hl1.
Qed.

(** C6.  [requestTTS] does reject.  With a generation function that
    throws before it returns a promise, [preloadWithSettings] (called at
    line 243, before the [try] of line 250) throws at line 161, and the
    promise that [requestTTS] returns is rejected with what was thrown;
    [preloadTTS] throws the same at its caller.  Nothing is cached, and
    the session is left with an empty queue. *)
Theorem requestTTS_rejects_when_ttsFn_throws :
  ∃ w, run throwingRun initialWorld = Some w
    ∧ requestResult 0 w = Some (Rejected "Error: boom")
    ∧ uncaught w = ["Error: boom"]
    ∧ cache (svc w) = []
    ∧ sessionQueues (svc w) !! "s" = Some []
    ∧ invocations "aws" "en-US" "female" "Hello world" w = 2%nat.
Proof.
  eexists. split; [vm_compute; reflexivity|].
  split_and!; vm_compute; reflexivity.
Qed.

(** The same function called in the last branch of [requestTTS] (line 263,
    inside the [try]): what it throws is caught at line 285, and the
    request is fulfilled with [null]. *)
Example direct_throw_is_caught :
  ∃ w, run directThrow initialWorld = Some w
    ∧ requestResult 0 w = Some (Fulfilled null)
    ∧ uncaught w = []
    ∧ thrown w = [mkThrown "aws" "en-US" "female" "X" "Error: boom"].
Proof.
  eexists. split; [vm_compute; reflexivity|].
  split_and!; vm_compute; reflexivity.
Qed.

(** ** Failed entries *)

Lemma failed_entry_can_be_evicted :
  ¬ (∀ es w p o now w' c,
       run es initialWorld = Some w → heap w !! p = Some c → failing o →
       settle p o now w = Some w' →
       ∃ item, JsMap.get (callKey c) (cache (svc w')) = Some item
               ∧ status item = error ∧ size item = 0).
Proof.
  intros H.
  destruct (run crowded initialWorld) as [w|] eqn:Ew; [|vm_compute in Ew; discriminate Ew].
  destruct (settle 0 (Rejects "Mock TTS service failure") 5 w) as [w'|] eqn:Ew';
    [|vm_compute in Ew; injection Ew as <-; vm_compute in Ew'; discriminate Ew'].
  destruct (heap w !! 0%nat) as [c|] eqn:Ec;
    [|vm_compute in Ew; injection Ew as <-; vm_compute in Ec; discriminate Ec].
  destruct (H crowded w 0%nat (Rejects "Mock TTS service failure") 5 w' c Ew Ec I Ew')
    as (item & Hget & _).
  vm_compute in Ew. injection Ew as <-.
  vm_compute in Ec. injection Ec as <-.
  vm_compute in Ew'. injection Ew' as <-.
  vm_compute in Hget. discriminate Hget.
Qed.

(** C7, as amended.  When a generation call started by
    [preloadWithSettings] (from [preloadTTS], or from [requestTTS] for a
    key it does not know) rejects, fulfils with [null] or times out, its
    handler stores, under the key of the call, an entry with status
    [error] and size 0, and the promise of the call is fulfilled with
    [null].  After that the entry is in the cache, unless the eviction
    that ends this very [setCacheItem] has removed it, which requires the
    limits to be exceeded.  In both cases [hasCompletedItem] and
    [hasPending] answer [false] for the tuple, and while the entry stays
    in the cache no call of [preloadTTS] or [requestTTS] calls [ttsFn] for
    the tuple again. *)
Theorem failure_is_recorded
    (es : list Event) (w w' : World) (p : nat) (c : Call) (o : Outcome) (now : Z) :
  run es initialWorld = Some w →
  heap w !! p = Some c → c_origin c = FromPreload → failing o →
  settle p o now w = Some w' →
  let key := callKey c in
  let failed := mkItem p undefined now 0 error in
  svc w' = setCacheItem key failed (svc w)
  ∧ promiseState p w' = Some (Fulfilled null)
  ∧ (JsMap.get key (cache (svc w')) = Some failed
     ∨ (JsMap.get key (cache (svc w')) = None
        ∧ overLimits (storeItem key failed (svc w)) = true))
  ∧ (hasCompletedItem (c_service c) (c_language c) (c_voice c) (c_text c) w').1 = false
  ∧ (hasPending (c_service c) (c_language c) (c_voice c) (c_text c) w').1 = false
  ∧ (∀ es' w'', cachedThroughout key es' w' → run es' w' = Some w'' →
       invocations (c_service c) (c_language c) (c_voice c) (c_text c) w''
       = invocations (c_service c) (c_language c) (c_voice c) (c_text c) w').
Proof.
  intros Hrun Hc Ho Hf Hs key failed.
  assert (Hok : world_ok w) by (apply reachable_ok; by exists es).
  pose proof (settle_promiseState _ _ _ _ _ Hs) as (v & Hv & Hnull).
  rewrite (Hnull Hf) in Hv.
  pose proof (settle_inv _ _ _ _ _ Hs) as (c0 & v0 & s' & Hc0 & _ & _ & Hw' & Horig).
  rewrite Hc in Hc0. injection Hc0 as <-. rewrite Ho in Horig.
  destruct Horig as (item & Hs' & _ & _ & Hitem). rewrite (Hitem Hf) in Hs'.
  assert (Hsvc : svc w' = setCacheItem key failed (svc w)) by (by rewrite Hw').
  assert (Hcases : JsMap.get key (cache (svc w')) = Some failed
     ∨ (JsMap.get key (cache (svc w')) = None
        ∧ overLimits (storeItem key failed (svc w)) = true)).
  { rewrite Hsvc. destruct (JsMap.get key (cache (setCacheItem key failed (svc w))))
      as [it|] eqn:Hget.
    - left. apply setCacheItem_get in Hget as [[_ ->]|[Hne _]]; [done | done | apply Hok].
    - right. split; [done|].
      destruct (overLimits (storeItem key failed (svc w))) eqn:Hov; [done|].
      unfold setCacheItem, enforceCacheLimits in Hget. rewrite Hov in Hget.
      rewrite cache_storeItem, get_set_eq in Hget. done. }
  split_and!; try done.
  - unfold hasCompletedItem. destruct (negb _); [done|].
    fold (callKey c). fold key. by destruct Hcases as [-> | [-> _]].
  - unfold hasPending. destruct (negb _); [done|].
    fold (callKey c). fold key. by destruct Hcases as [-> | [-> _]].
  - intros es' w''. apply run_count.
Qed.

Lemma failure_is_recorded_witness :
  match run repeated initialWorld with
  | Some w =>
      ∀ w', settle 0 (Rejects "Mock TTS service failure") 50 w = Some w' →
            promiseState 0 w' = Some (Fulfilled null)
            ∧ (hasCompletedItem "aws" "en-US" "female" "Hello world" w').1 = false
            ∧ (hasPending "aws" "en-US" "female" "Hello world" w').1 = false
  | None => False
  end.
Proof.
  destruct (run repeated initialWorld) as [w|] eqn:E.
  - intros w' Hs.
    assert (Hc : heap w !! 0%nat
                 = Some (mkCall (returning "mockTTSFn") "aws" "en-US" "female" "Hello world"
                                5000 FromPreload None)).
    { vm_compute in E. injection E as <-. reflexivity. }
    pose proof (failure_is_recorded repeated w w' 0 _
                  (Rejects "Mock TTS service failure") 50 E Hc eq_refl I Hs) as H.
    cbv zeta in H. split_and!; apply H.
  - vm_compute in E. discriminate E.
Defined.

Example direct_failure_is_not_recorded :
  ∃ w, run directFailure initialWorld = Some w
       ∧ requestResult 0 w = Some (Fulfilled null)
       ∧ (c_origin <$> heap w !! 2%nat) = Some FromRequest
       ∧ JsMap.get (generateKey "aws" "en-US" "female" "X") (cache (svc w)) = None.
Proof. eexists. split; [vm_compute; reflexivity|]. by vm_compute. Qed.

(** ** How one event changes promises and suspended requests *)

Lemma preloadTTS_frame text sessionId now w :
  tasks (preloadTTS text sessionId now w) = tasks w
  ∧ (heap (preloadTTS text sessionId now w) = heap w
     ∨ ∃ c, heap (preloadTTS text sessionId now w) = heap w ++ [c]).
Proof.
  unfold preloadTTS. destruct (negb _); [by split; [|left]|].
  destruct (sessionSettings (svc w) !! sessionId) as [st|]; [|by split; [|left]].
  destruct (preloadWithSettings _ _ _ _ _ _ _) as [w1|e w1] eqn:Ep.
  - split; [by eapply preloadWithSettings_tasks|].
    apply preloadWithSettings_heap in Ep as [(-> & _)|(c & -> & _)]; eauto.
  - apply preloadWithSettings_throws_svc in Ep as (_ & Hh & Ht & _). simpl.
    rewrite Hh, Ht. by split; [|left].
Qed.

Lemma requestTTS_heap service language voice text sessionId now w :
  heap (requestTTS service language voice text sessionId now w) = heap w
  ∨ ∃ c, heap (requestTTS service language voice text sessionId now w) = heap w ++ [c].
Proof.
  unfold requestTTS. destruct (negb (initialized (svc w))); [by left|].
  destruct (negb (includes _ _)).
  - destruct (preloadWithSettings _ _ _ _ _ _ _) as [w1|e w1] eqn:Ep; simpl.
    + apply preloadWithSettings_heap in Ep as [(-> & _)|(c & -> & _)]; simpl;
        rewrite heap_setSessionSettings; eauto.
    + apply preloadWithSettings_throws_svc in Ep as (_ & Hh & _). simpl in Hh.
      rewrite Hh, heap_setSessionSettings. by left.
  - simpl. rewrite heap_setSessionSettings. by left.
Qed.

(** An unsettled promise stays as it is until its own call settles. *)
Lemma step_keeps_cell e w w' p c :
  step e w = Some w' → heap w !! p = Some c →
  (∀ o now, e ≠ Settle p o now) → heap w' !! p = Some c.
Proof.
  intros Hstep Hc Hne. destruct e; simpl in Hstep.
  - by injection Hstep as <-.
  - by injection Hstep as <-.
  - by injection Hstep as <-.
  - injection Hstep as <-. unfold hasCompletedItem.
    destruct (negb _); [done|]. by destruct (JsMap.get _ _).
  - injection Hstep as <-. unfold hasPending.
    destruct (negb _); [done|]. by destruct (JsMap.get _ _).
  - injection Hstep as <-. by rewrite heap_setSessionSettings.
  - injection Hstep as <-.
    destruct (preloadTTS_frame text sessionId now w) as [_ [-> | [c' ->]]]; [done|].
    by apply lookup_app_l_Some.
  - injection Hstep as <-.
    destruct (requestTTS_heap service language voice text sessionId now w) as [-> | [c' ->]];
      [done|]. by apply lookup_app_l_Some.
  - apply settle_inv in Hstep as (c0 & v & s' & _ & _ & _ & -> & _). simpl.
    rewrite list_lookup_alter_ne; [done|]. intros ->. by apply (Hne o now).
  - unfold resume in Hstep.
    destruct (tasks w !! rid) as [[a b c0 d i waits|q|k q|r]|]; try done.
    + destruct (forallb _ _); [|done]. injection Hstep as <-. unfold afterBarrier.
      destruct (JsMap.get _ _); [by destruct (_ && _)|].
      destruct (ttsFn (svc w)) as [fn|]; [|done].
      destruct (fn_throws fn a b c0 d); [done|]. simpl. by apply lookup_app_l_Some.
    + destruct (promiseState q w) as [r|]; [|done]. injection Hstep as <-. by destruct r.
    + destruct (promiseState q w) as [r|]; [|done]. injection Hstep as <-.
      destruct r as [v|]; [|done]. simpl. by destruct (not_null v).
Qed.

(** A suspended request stays as it is until it is resumed. *)
Lemma step_keeps_task e w w' rid t :
  step e w = Some w' → tasks w !! rid = Some t →
  (∀ now, e ≠ Resume rid now) → tasks w' !! rid = Some t.
Proof.
  intros Hstep Ht Hne. destruct e; simpl in Hstep.
  - by injection Hstep as <-.
  - by injection Hstep as <-.
  - by injection Hstep as <-.
  - injection Hstep as <-. unfold hasCompletedItem.
    destruct (negb _); [done|]. by destruct (JsMap.get _ _).
  - injection Hstep as <-. unfold hasPending.
    destruct (negb _); [done|]. by destruct (JsMap.get _ _).
  - injection Hstep as <-. by rewrite tasks_setSessionSettings.
  - injection Hstep as <-.
    by destruct (preloadTTS_frame text sessionId now w) as [-> _].
  - injection Hstep as <-.
    destruct (requestTTS_tasks service language voice text sessionId now w) as [t' ->].
    by apply lookup_app_l_Some.
  - by rewrite (settle_tasks _ _ _ _ _ Hstep).
  - assert (Hrid : rid0 ≠ rid) by (intros ->; by apply (Hne now)).
    unfold resume in Hstep.
    destruct (tasks w !! rid0) as [[a b c0 d i waits|q|k q|r]|]; try done.
    + destruct (forallb _ _); [|done]. injection Hstep as <-. unfold afterBarrier.
      destruct (JsMap.get _ _);
        [destruct (_ && _)
        |destruct (ttsFn (svc w)) as [fn|]; [destruct (fn_throws fn a b c0 d)|]]; simpl;
        by rewrite list_lookup_insert_ne.
    + destruct (promiseState q w) as [r|]; [|done]. injection Hstep as <-.
      destruct r; simpl; by rewrite list_lookup_insert_ne.
    + destruct (promiseState q w) as [r|]; [|done]. injection Hstep as <-.
      destruct r as [v|]; simpl; [destruct (not_null v)|]; simpl;
        by rewrite list_lookup_insert_ne.
Qed.

(** ** The barrier *)

Lemma not_pending_terminal st : st ≠ pending → terminal st.
Proof. destruct st; [done | by left | by right]. Qed.

Lemma precedingPromises_intro sessionId A B s item :
  precedes A B (default [] (sessionQueues s !! sessionId)) →
  JsMap.get A (cache s) = Some item →
  promise item ∈ precedingPromises sessionId B s.
Proof.
  intros [Hge Hlt] Hget. unfold precedingPromises.
  set (queue := default [] (sessionQueues s !! sessionId)) in *.
  destruct (Z.leb_spec (indexOf B queue) 0); [lia|].
  apply list_elem_of_omap. exists A. split; [|by rewrite Hget].
  assert (HA : A ∈ queue).
  { destruct (decide (A ∈ queue)) as [|Hn]; [done|].
    apply indexOf_absent in Hn. lia. }
  apply indexOf_lookup in HA as [_ Hl].
  apply elem_of_take. exists (Z.to_nat (indexOf A queue)). split; [done | lia].
Qed.

(** A request whose key is in the queue of its session after the
    synchronous part is waiting at the barrier.  (When [ttsFn] throws, the
    key is not queued.) *)
Lemma requestTTS_task service language voice text sessionId now w :
  world_ok w → initialized (svc w) = true →
  let w1 := requestTTS service language voice text sessionId now w in
  generateKey service language voice text
    ∈ default [] (sessionQueues (svc w1) !! sessionId) →
  tasks w1 !! length (tasks w)
  = Some (AtBarrier service language voice text sessionId
            (precedingPromises sessionId (generateKey service language voice text)
                               (svc w1))).
Proof.
  intros Hok Hi. unfold requestTTS. rewrite Hi. cbn [negb].
  set (w1 := setSessionSettings sessionId service language voice w).
  set (w2 := with_svc (ensureQueue sessionId (svc w1)) w1).
  assert (Ht2 : tasks w2 = tasks w).
  { unfold w2, w1. simpl. by rewrite tasks_setSessionSettings. }
  destruct (negb (includes _ _)) eqn:Hinc.
  - assert (Hok2 : world_ok w2).
    { pose proof (world_ok_setSessionSettings w sessionId service language voice Hok)
        as [Hs Hc Ht Hh].
      split; simpl; try done.
      - apply ensureQueue_ok; [|done]. unfold w1.
        by rewrite initialized_setSessionSettings.
      - intros k it. rewrite cache_ensureQueue. apply Hc. }
    assert (Hi2 : initialized (svc w2) = true).
    { unfold w2, w1. simpl.
      by rewrite initialized_ensureQueue, initialized_setSessionSettings. }
    destruct (preloadWithSettings_ok service language voice text sessionId now w2 Hok2 Hi2)
      as (w3 & [Hp|[e Hp]] & _); rewrite Hp.
    + intros _. apply preloadWithSettings_tasks in Hp. simpl. rewrite Hp, Ht2.
      by apply list_lookup_middle.
    + intros Hin. exfalso.
      apply preloadWithSettings_throws_svc in Hp as (Hsvc & _).
      cbn [svc spawn] in Hin. rewrite Hsvc in Hin. apply includes_true in Hin.
      apply negb_true_iff in Hinc. congruence.
  - intros _. simpl. fold w1. change (tasks w1) with (tasks w2). rewrite Ht2.
    by apply list_lookup_middle.
Qed.

Lemma settle_or_not p e :
  (∃ o now, e = Settle p o now) ∨ (∀ o now, e ≠ Settle p o now).
Proof.
  destruct e as [| | | | | | | |p0 o now|]; try by right.
  destruct (decide (p0 = p)) as [->|Hne]; [left; eauto|].
  right. intros o' now' [= -> _]. done.
Qed.

(** A request held at the barrier by an unsettled promise is not resumed
    before the call of that promise settles. *)
Lemma barrier_holds rid a b c d sid waits p cl es : ∀ w w' r,
  tasks w !! rid = Some (AtBarrier a b c d sid waits) →
  p ∈ waits → heap w !! p = Some cl → c_state cl = None →
  run es w = Some w' → requestResult rid w' = Some r →
  ∃ es1 o now es2 w2,
    es = es1 ++ Settle p o now :: es2
    ∧ run es1 w = Some w2
    ∧ requestResult rid w2 = None
    ∧ heap w2 !! p = Some cl.
Proof.
  induction es as [|e es IH]; intros w w' r Ht Hp Hc Hst Hrun Hres.
  - injection Hrun as <-. unfold requestResult in Hres. by rewrite Ht in Hres.
  - simpl in Hrun. destruct (step e w) as [wm|] eqn:Hstep; [|done].
    assert (Hnone : requestResult rid w = None).
    { unfold requestResult. by rewrite Ht. }
    destruct (settle_or_not p e) as [(o & now & ->)|Hne1].
    + exists [], o, now, es, w. by split_and!.
    + assert (Hne2 : ∀ now, e ≠ Resume rid now).
      { intros now ->. simpl in Hstep. unfold resume in Hstep. rewrite Ht in Hstep.
        destruct (forallb (isSettled w) waits) eqn:Hall; [|done].
        rewrite forallb_forall in Hall. specialize (Hall p).
        rewrite <- list_elem_of_In in Hall. specialize (Hall Hp).
        unfold isSettled, promiseState in Hall. rewrite Hc in Hall. simpl in Hall.
        by rewrite Hst in Hall. }
      pose proof (step_keeps_cell _ _ _ _ _ Hstep Hc Hne1) as Hc'.
      pose proof (step_keeps_task _ _ _ _ _ Hstep Ht Hne2) as Ht'.
      destruct (IH wm w' r Ht' Hp Hc' Hst Hrun Hres)
        as (es1 & o & now & es2 & w2 & -> & Hrun1 & Hres1 & Hc2).
      exists (e :: es1), o, now, es2, w2. simpl. rewrite Hstep. by split_and!.
Qed.

Lemma twoSessions_unordered :
  ∃ w2, run twoSessions initialWorld = Some w2
        ∧ (status <$> JsMap.get (generateKey "aws" "en-US" "female" "First")
                                (cache (svc w2))) = Some pending
        ∧ sessionQueues (svc w2) !! "S"
          = Some [generateKey "aws" "en-US" "female" "First"]
        ∧ sessionQueues (svc w2) !! "T"
          = Some [generateKey "aws" "en-US" "female" "Third"]
        ∧ requestResult 0 w2
          = Some (Fulfilled (value "Third" true (Some 90%nat))).
Proof. eexists. split; [vm_compute; reflexivity | by vm_compute]. Qed.

(** C1.  Let [requestTTS] be called for key [B] on a session in whose
    queue, once the call has put [B] there if need be, key [A] comes
    before [B].  Whatever happens next, if the request has settled then
    either [A]'s entry was already completed or failed when the request
    was made, or, before the request settled, the generation call of [A]'s
    pending entry settled and its handler stored a completed or failed
    entry for [A].  It does not matter which generation call finishes
    first.  Across sessions there is no such order: in [twoSessions] the
    request of session T is fulfilled while the entry that session S
    queued before is still pending. *)
Theorem request_waits_for_predecessors
    (es0 : list Event) (w : World)
    (service language voice text sessionId : string) (now : Z)
    (A : string) (es : list Event) (w' : World) (r : Settled) :
  run es0 initialWorld = Some w →
  let B := generateKey service language voice text in
  let rid := length (tasks w) in
  let w1 := requestTTS service language voice text sessionId now w in
  precedes A B (default [] (sessionQueues (svc w1) !! sessionId)) →
  run es w1 = Some w' →
  requestResult rid w' = Some r →
  ((∃ item, JsMap.get A (cache (svc w1)) = Some item ∧ terminal (status item))
   ∨ (∃ es1 p o now' es2 w2 w3 item,
        es = es1 ++ Settle p o now' :: es2
        ∧ run es1 w1 = Some w2
        ∧ requestResult rid w2 = None
        ∧ step (Settle p o now') w2 = Some w3
        ∧ svc w3 = setCacheItem A item (svc w2)
        ∧ terminal (status item)))
  ∧ (∃ w2, run twoSessions initialWorld = Some w2
           ∧ (status <$> JsMap.get (generateKey "aws" "en-US" "female" "First")
                                   (cache (svc w2))) = Some pending
           ∧ sessionQueues (svc w2) !! "S"
             = Some [generateKey "aws" "en-US" "female" "First"]
           ∧ sessionQueues (svc w2) !! "T"
             = Some [generateKey "aws" "en-US" "female" "Third"]
           ∧ requestResult 0 w2
             = Some (Fulfilled (value "Third" true (Some 90%nat)))).
Proof.
  intros Hrun B rid w1 Hprec Hrun1 Hres.
  split; [|exact twoSessions_unordered].
  assert (Hok : world_ok w) by (apply reachable_ok; by exists es0).
  assert (Hok1 : world_ok w1) by by apply world_ok_requestTTS.
  assert (HA : A ∈ default [] (sessionQueues (svc w1) !! sessionId)).
  { destruct (decide (A ∈ default [] (sessionQueues (svc w1) !! sessionId))) as [|Hn];
      [done|]. apply indexOf_absent in Hn. destruct Hprec. lia. }
  assert (HB : B ∈ default [] (sessionQueues (svc w1) !! sessionId)).
  { destruct (decide (B ∈ default [] (sessionQueues (svc w1) !! sessionId))) as [|Hn];
      [done|]. apply indexOf_absent in Hn. destruct Hprec. lia. }
  assert (Hi : initialized (svc w) = true).
  { destruct (initialized (svc w)) eqn:Hi; [done|].
    assert (Hsvc : svc w1 = svc w) by (unfold w1, requestTTS; by rewrite Hi).
    rewrite Hsvc, (ok_uninit _ (wk_state _ Hok) Hi), lookup_empty in HA.
    by apply elem_of_nil in HA. }
  pose proof (requestTTS_task service language voice text sessionId now w Hok Hi HB) as Ht.
  fold w1 rid B in Ht.
  destruct (sessionQueues (svc w1) !! sessionId) as [q|] eqn:Eq;
    [|by apply elem_of_nil in HA].
  simpl in HA.
  destruct (ok_queues _ (wk_state _ Hok1) _ _ Eq) as [_ Hel].
  destruct (Hel A HA) as [item Hget].
  destruct (decide (status item = pending)) as [Hpend|Hterm];
    [|left; exists item; split; [done | by apply not_pending_terminal]].
  right.
  destruct (wk_cache _ Hok1 _ _ Hget) as (cl & Hcl & Hkey & Hpd).
  destruct (Hpd Hpend) as [Hst Horig].
  assert (Hin : promise item ∈ precedingPromises sessionId B (svc w1)).
  { apply (precedingPromises_intro sessionId A); [|done]. by rewrite Eq. }
  destruct (barrier_holds _ _ _ _ _ _ _ _ _ _ _ _ _ Ht Hin Hcl Hst Hrun1 Hres)
    as (es1 & o & now' & es2 & w2 & Hes & Hrun2 & Hnone & Hcl2).
  rewrite Hes, run_app, Hrun2 in Hrun1. simpl in Hrun1.
  destruct (settle (promise item) o now' w2) as [w3|] eqn:Hs; [|done].
  pose proof (settle_inv _ _ _ _ _ Hs) as (c0 & v & s' & Hc0 & _ & _ & Hw3 & Ho).
  rewrite Hcl2 in Hc0. injection Hc0 as <-. rewrite Horig in Ho.
  destruct Ho as (item' & Hs' & _ & Hst' & _).
  exists es1, (promise item), o, now', es2, w2, w3, item'.
  split_and!; try done; [|by apply not_pending_terminal].
  rewrite Hw3. simpl. by rewrite Hs', Hkey.
Qed.

Lemma request_waits_for_predecessors_witness :
  match run sequenceSetup initialWorld with
  | Some w =>
      let w1 := requestTTS "aws" "en-US" "female" "Third" "sequence-test" 0 w in
      let A := generateKey "aws" "en-US" "female" "First" in
      (∃ item, JsMap.get A (cache (svc w1)) = Some item ∧ terminal (status item))
      ∨ (∃ es1 p o now' es2 w2 w3 item,
           sequenceRest = es1 ++ Settle p o now' :: es2
           ∧ run es1 w1 = Some w2
           ∧ requestResult (length (tasks w)) w2 = None
           ∧ step (Settle p o now') w2 = Some w3
           ∧ svc w3 = setCacheItem A item (svc w2)
           ∧ terminal (status item))
  | None => False
  end.
Proof.
  destruct (run sequenceSetup initialWorld) as [w|] eqn:E.
  - intros w1 A.
    destruct (run sequenceRest w1) as [w'|] eqn:E'.
    + destruct (requestResult (length (tasks w)) w') as [r|] eqn:Er.
      * refine (proj1 (request_waits_for_predecessors sequenceSetup w
                  "aws" "en-US" "female" "Third" "sequence-test" 0 A
                  sequenceRest w' r E _ E' Er)).
        vm_compute in E. injection E as <-. vm_compute.
        split; [discriminate | reflexivity].
      * exfalso. vm_compute in E. injection E as <-.
        vm_compute in E'. injection E' as <-. vm_compute in Er. discriminate Er.
    + exfalso. vm_compute in E. injection E as <-. vm_compute in E'. discriminate E'.
  - vm_compute in E. discriminate E.
Defined.

Lemma initialize_again_keeps_state_witness :
  match run repeated initialWorld with
  | Some w =>
      ∃ w', step (Initialize (returning "other") 1000 10 2000) w = Some w'
            ∧ cache (svc w') = cache (svc w)
            ∧ sessionQueues (svc w') = sessionQueues (svc w)
  | None => False
  end.
Proof.
  destruct (run repeated initialWorld) as [w|] eqn:E.
  - assert (Hi : initialized (svc w) = true ∧ instance (svc w) = true).
    { vm_compute in E. injection E as <-. by split. }
    destruct (initialize_again_keeps_state w (returning "other") 1000 10 2000 (proj1 Hi) (proj2 Hi))
      as (w' & Hs & H).
    exists w'. split; [done|]. split; apply H.
  - vm_compute in E. discriminate E.
Defined.

(** ** The scenarios of the test suite, replayed *)

(** 'implements LRU cache eviction': the fourth item evicts the first. *)
Example lru_evicts_the_oldest :
  ∃ w, run (Scenarios.lru ++ Scenarios.lru4) initialWorld = Some w
       ∧ (hasCompletedItem "aws" "en-US" "female" "Item 1" w).1 = false
       ∧ (hasCompletedItem "aws" "en-US" "female" "Item 2" w).1 = true
       ∧ (hasCompletedItem "aws" "en-US" "female" "Item 3" w).1 = true
       ∧ (hasCompletedItem "aws" "en-US" "female" "Item 4" w).1 = true
       ∧ currentItems (getCacheStats w).1 = 3.
Proof. eexists. split; [vm_compute; reflexivity | by vm_compute]. Qed.

(** 'maintains sequence order': with only the third generation call
    finished, the request for the third text cannot go on. *)
Example third_waits_for_first_and_second :
  run (sequenceSetup
         ++ [ RequestTTS "aws" "en-US" "female" "Third" "sequence-test" 0;
              Settle 2 (Resolves (value "Third" true (Some 56%nat))) 50;
              Resume 0 50 ]) initialWorld = None.
Proof. by vm_compute. Qed.

(** 'handles errors gracefully': the request is fulfilled with [null] and
    the item is not completed. *)
Example rejected_call_gives_null :
  ∃ w, run (failingRun ++ [ Settle 0 (Rejects "Mock TTS service failure") 50;
                            Resume 0 50 ]) initialWorld = Some w
       ∧ requestResult 0 w = Some (Fulfilled null)
       ∧ (hasCompletedItem "aws" "en-US" "female" "Fail test" w).1 = false
       ∧ uncaught w = [].
Proof. eexists. split; [vm_compute; reflexivity | by vm_compute]. Qed.

(** ** More invariants of the reachable worlds *)

(** After [enforceCacheLimits] a key is either gone from the cache and
    from [pendingPromises], or stands in both as before. *)
Lemma enforceCacheLimits_cases s k :
  state_ok s →
  let s' := enforceCacheLimits s in
  (JsMap.get k (cache s') = None ∧ pendingPromises s' !! k = None)
  ∨ (JsMap.get k (cache s') = JsMap.get k (cache s)
     ∧ pendingPromises s' !! k = pendingPromises s !! k).
Proof.
  intros Hok s'.
  destruct (enforceCacheLimits_prefix s) as (n & Heq & _ & _).
  pose proof (live_take n _ _ (live_candidates s (ok_keys _ Hok))) as Hlive.
  destruct (evictAll_effect _ s Hok Hlive) as (_ & _ & _ & Hin & Hout).
  fold s' in Heq. rewrite <- Heq in Hin, Hout.
  destruct (decide (k ∈ (take n (candidates s)).*1)); [left | right]; auto.
Qed.

Lemma pendingPromises_storeItem key item s :
  pendingPromises (storeItem key item s) = pendingPromises s.
Proof. unfold storeItem. by destruct (JsMap.get key (cache s)). Qed.

Lemma setCacheItem_cases key item s k :
  state_ok s →
  let s' := setCacheItem key item s in
  (JsMap.get k (cache s') = None ∧ pendingPromises s' !! k = None)
  ∨ (JsMap.get k (cache s') = (if decide (key = k) then Some item else JsMap.get k (cache s))
     ∧ pendingPromises s' !! k = pendingPromises s !! k).
Proof.
  intros Hok s'. unfold s', setCacheItem.
  destruct (enforceCacheLimits_cases (storeItem key item s) k (storeItem_ok _ _ _ Hok))
    as [H|[H1 H2]]; [by left|right].
  rewrite H1, H2, cache_storeItem, pendingPromises_storeItem.
  split; [|done]. case_decide as Hd.
  - subst. apply get_set_eq.
  - by apply get_set_ne.
Qed.

Lemma shape_ok_setCacheItem key item s :
  state_ok s → shape_ok (cache s) → item_shape item →
  shape_ok (cache (setCacheItem key item s)).
Proof.
  intros Hok Hs Hi k it Hget.
  apply setCacheItem_get in Hget as [[_ ->]|[_ Hget]]; eauto.
Qed.

Lemma disjoint_ok_shrink s s' :
  queues_shrink s s' → disjoint_ok (sessionQueues s) → disjoint_ok (sessionQueues s').
Proof.
  intros Hsh Hd sid1 sid2 q1 q2 k H1 H2 Hk1 Hk2.
  pose proof (Hsh sid1) as Ha. pose proof (Hsh sid2) as Hb.
  rewrite H1 in Ha. rewrite H2 in Hb.
  destruct (sessionQueues s !! sid1) as [q1'|] eqn:E1; [|done].
  destruct (sessionQueues s !! sid2) as [q2'|] eqn:E2; [|done].
  eapply Hd; eauto.
Qed.

Lemma handles_ok_setCacheItem key item s h :
  state_ok s → handles_ok (pendingPromises s) (cache s) h →
  handles_ok (pendingPromises (setCacheItem key item s))
             (cache (setCacheItem key item s)) h.
Proof.
  intros Hok Hh k p Hp.
  destruct (setCacheItem_cases key item s k Hok) as [[_ Hn]|[Hc Hpp]]; [congruence|].
  rewrite Hpp in Hp. destruct (Hh k p Hp) as [Hcached Hcall].
  split; [|done]. rewrite Hc. case_decide; [eauto | done].
Qed.

Lemma value_ok_setCacheItem key item s h :
  state_ok s → value_ok (cache s) h →
  (status item ≠ pending →
   ∃ cl, h !! promise item = Some cl ∧ c_state cl = Some (Fulfilled (servedValue item))) →
  value_ok (cache (setCacheItem key item s)) h.
Proof.
  intros Hok Hv Hi k it Hget Hst.
  apply setCacheItem_get in Hget as [[_ ->]|[_ Hget]]; eauto.
Qed.

Lemma handles_ok_app pp c h cl : handles_ok pp c h → handles_ok pp c (h ++ [cl]).
Proof.
  intros Hh k p Hp. destruct (Hh k p Hp) as [Hc (c0 & Hl & Hrest)].
  split; [done|]. exists c0. split; [by apply lookup_app_l_Some | done].
Qed.

Lemma value_ok_app c h cl : value_ok c h → value_ok c (h ++ [cl]).
Proof.
  intros Hv k it Hget Hst. destruct (Hv k it Hget Hst) as (c0 & Hl & Hs).
  exists c0. split; [by apply lookup_app_l_Some | done].
Qed.

Lemma handles_ok_setState pp c h p r :
  handles_ok pp c h → handles_ok pp c (alter (setState r) p h).
Proof.
  intros Hh k q Hq. destruct (Hh k q Hq) as [Hc (c0 & Hl & Hk & Ho)].
  split; [done|]. rewrite list_lookup_alter.
  case_decide; subst; rewrite Hl; simpl; eauto.
Qed.

Lemma value_ok_setState c h p r cl :
  h !! p = Some cl → c_state cl = None →
  value_ok c h → value_ok c (alter (setState r) p h).
Proof.
  intros Hp Hnone Hv k it Hget Hst. destruct (Hv k it Hget Hst) as (c0 & Hl & Hs).
  exists c0. split; [|done]. rewrite list_lookup_alter_ne; [done|].
  intros ->. rewrite Hp in Hl. injection Hl as <-. congruence.
Qed.

Lemma settle_preload p o now w c :
  heap w !! p = Some c → c_state c = None → c_origin c = FromPreload →
  settle p o now w
  = Some (settleCall p (Fulfilled (outcomeValue o))
            (with_svc (setCacheItem (callKey c) (handlerItem p o now) (svc w))
                      (logs (withTimeout o (c_timeout c)).2 w))).
Proof.
  intros Hc Hs Ho. unfold settle. rewrite Hc, Hs, Ho.
  destruct o as [v|e|]; simpl; [|done..].
  unfold handlerItem. simpl. destruct v; done.
Qed.

Lemma settle_direct p o now w c :
  heap w !! p = Some c → c_state c = None → c_origin c = FromRequest →
  settle p o now w
  = Some (settleCall p (Fulfilled (outcomeValue o))
            (logs (withTimeout o (c_timeout c)).2 w)).
Proof.
  intros Hc Hs Ho. unfold settle. rewrite Hc, Hs, Ho. by destruct o.
Qed.

Lemma handlerItem_shape p o now : item_shape (handlerItem p o now).
Proof.
  unfold handlerItem, item_shape.
  destruct (not_null (outcomeValue o)) eqn:E; simpl; done.
Qed.

Lemma handlerItem_value p o now :
  status (handlerItem p o now) ≠ pending
  ∧ promise (handlerItem p o now) = p
  ∧ servedValue (handlerItem p o now) = outcomeValue o.
Proof.
  unfold handlerItem, servedValue.
  destruct (not_null (outcomeValue o)) eqn:E; simpl; split_and!; try done.
  by destruct (outcomeValue o).
Qed.

Lemma pushKey_lookup sid key s sid' :
  sessionQueues (pushKey sid key (ensureQueue sid s)) !! sid'
  = if decide (sid = sid')
    then Some (default [] (sessionQueues s !! sid) ++ [key])
    else sessionQueues s !! sid'.
Proof.
  unfold pushKey. simpl. rewrite lookup_alter. case_decide as Hd.
  - subst. by rewrite ensureQueue_lookup.
  - by apply ensureQueue_lookup_ne.
Qed.

Lemma disjoint_ok_pushKey sid key s :
  disjoint_ok (sessionQueues s) →
  (∀ sid' q, sessionQueues s !! sid' = Some q → key ∉ q) →
  disjoint_ok (sessionQueues (pushKey sid key (ensureQueue sid s))).
Proof.
  intros Hd Hfresh sid1 sid2 q1 q2 k. rewrite !pushKey_lookup.
  destruct (decide (sid = sid1)) as [<-|H1], (decide (sid = sid2)) as [<-|H2];
    [done| | |by apply Hd].
  - intros [= <-] Hq2 Hk1 Hk2. exfalso.
    apply elem_of_app in Hk1 as [Hk1|Hk1].
    + destruct (sessionQueues s !! sid) as [q|] eqn:E; simpl in Hk1;
        [|by apply elem_of_nil in Hk1].
      by destruct (H2 (Hd _ _ _ _ _ E Hq2 Hk1 Hk2)).
    + apply list_elem_of_singleton in Hk1 as ->. by apply (Hfresh _ _ Hq2).
  - intros Hq1 [= <-] Hk1 Hk2. exfalso.
    apply elem_of_app in Hk2 as [Hk2|Hk2].
    + destruct (sessionQueues s !! sid) as [q|] eqn:E; simpl in Hk2;
        [|by apply elem_of_nil in Hk2].
      by destruct (H1 (Hd _ _ _ _ _ E Hq1 Hk2 Hk1)).
    + apply list_elem_of_singleton in Hk2 as ->. by apply (Hfresh _ _ Hq1).
Qed.

Lemma disjoint_ok_ensureQueue sid s :
  disjoint_ok (sessionQueues s) → disjoint_ok (sessionQueues (ensureQueue sid s)).
Proof.
  intros Hd. unfold ensureQueue. destruct (sessionQueues s !! sid) eqn:E; [done|].
  simpl. intros sid1 sid2 q1 q2 k. rewrite !lookup_insert.
  repeat case_decide; subst.
  - done.
  - intros [= <-] _ Hk. by apply elem_of_nil in Hk.
  - intros _ [= <-] _ Hk. by apply elem_of_nil in Hk.
  - apply Hd.
Qed.

(** A key that is not cached is in no queue. *)
Lemma uncached_not_queued s key sid q :
  state_ok s → JsMap.get key (cache s) = None →
  sessionQueues s !! sid = Some q → key ∉ q.
Proof.
  intros Hok Hget Hq Hin. destruct (ok_queues _ Hok _ _ Hq) as [_ Hel].
  destruct (Hel _ Hin) as [it Hit]. congruence.
Qed.

Lemma inv_preloadWithSettings service language voice text sessionId now w w' :
  world_ok w → inv w →
  preloadWithSettings service language voice text sessionId now w = Returns w' →
  inv w'.
Proof.
  intros Hok (Hsh & Hdj & Hhd & Hval & Htr). unfold preloadWithSettings.
  set (key := generateKey service language voice text).
  destruct (JsMap.has key (cache (svc w))) eqn:Ehas; [by intros [= <-]|].
  destruct (ttsFn (svc w)) as [fn|]; [|done].
  destruct (fn_throws fn service language voice text); [done|]. intros [= <-].
  apply has_false in Ehas.
  set (c := mkCall fn service language voice text (timeoutMs (svc w)) FromPreload None).
  set (item := mkItem (length (heap w)) undefined now 0 pending).
  set (s1 := with_pendingPromises (<[key:=length (heap w)]> (pendingPromises (svc w))) (svc w)).
  assert (Hok1 : state_ok s1) by apply state_ok_pendingPromises, Hok.
  set (s2 := setCacheItem key item s1).
  assert (Hc4 : cache (pushKey sessionId key (ensureQueue sessionId s2)) = cache s2).
  { unfold pushKey. simpl. apply cache_ensureQueue. }
  assert (Hp4 : pendingPromises (pushKey sessionId key (ensureQueue sessionId s2))
                = pendingPromises s2).
  { unfold pushKey, ensureQueue. simpl. by destruct (_ !! _). }
  unfold inv. cbn [svc heap with_svc alloc]. rewrite Hc4, Hp4. split_and!.
  - by apply shape_ok_setCacheItem.
  - apply disjoint_ok_pushKey.
    + eapply disjoint_ok_shrink; [apply (setCacheItem_queues key item s1 Hok1)|done].
    + intros sid' q Hq Hin.
      pose proof (setCacheItem_queues key item s1 Hok1 sid') as Hs.
      fold s2 in Hs. rewrite Hq in Hs.
      destruct (sessionQueues s1 !! sid') as [q0|] eqn:E0; [|done].
      apply (uncached_not_queued (svc w) key sid' q0 (wk_state _ Hok) Ehas E0).
      by apply Hs.
  - intros k p Hp.
    destruct (setCacheItem_cases key item s1 k Hok1) as [[_ Hn]|[Hc Hpp]];
      [fold s2 in Hn; congruence|].
    fold s2 in Hc, Hpp. rewrite Hpp in Hp. rewrite Hc. simpl in Hp.
    case_decide as Hd.
    + subst k. rewrite lookup_insert_eq in Hp. injection Hp as <-.
      split; [eauto|]. exists c. split; [by apply list_lookup_middle | done].
    + rewrite lookup_insert_ne in Hp by done.
      destruct (Hhd k p Hp) as [Hcached (c0 & Hl & Hrest)].
      split; [done|]. exists c0. split; [by apply lookup_app_l_Some | done].
  - apply value_ok_setCacheItem; [done | by apply value_ok_app | done].
  - intros k it Hget Hst.
    destruct (setCacheItem_cases key item s1 k Hok1) as [[Hn _]|[Hc Hpp]];
      [fold s2 in Hn; congruence|].
    fold s2 in Hc, Hpp. rewrite Hpp. rewrite Hc in Hget. simpl.
    case_decide as Hd.
    + subst k. injection Hget as <-. by rewrite lookup_insert_eq.
    + rewrite lookup_insert_ne by done. by apply Htr.
Qed.

Lemma tracked_ok_setCacheItem key item s :
  state_ok s → tracked_ok (pendingPromises s) (cache s) → status item ≠ pending →
  tracked_ok (pendingPromises (setCacheItem key item s)) (cache (setCacheItem key item s)).
Proof.
  intros Hok Htr Hst k it Hget Hpend.
  destruct (setCacheItem_cases key item s k Hok) as [[Hn _]|[Hc Hpp]]; [congruence|].
  rewrite Hpp. rewrite Hc in Hget. case_decide.
  - injection Hget as <-. done.
  - by apply Htr.
Qed.

Lemma inv_same w w' :
  cache (svc w') = cache (svc w) → sessionQueues (svc w') = sessionQueues (svc w) →
  pendingPromises (svc w') = pendingPromises (svc w) → heap w' = heap w →
  inv w → inv w'.
Proof. unfold inv. by intros -> -> -> ->. Qed.

Lemma inv_setSessionSettings sessionId service language voice w :
  inv w → inv (setSessionSettings sessionId service language voice w).
Proof. apply inv_same; unfold setSessionSettings; by destruct (negb _). Qed.

Lemma inv_preloadWithSettings_throws service language voice text sessionId now w e w' :
  inv w →
  preloadWithSettings service language voice text sessionId now w = Throws e w' →
  inv w'.
Proof.
  intros Hinv Hp. apply preloadWithSettings_throws_svc in Hp as (Hs & Hh & _).
  apply (inv_same w); by rewrite ?Hs.
Qed.

Lemma inv_setCacheItem w key item :
  world_ok w → inv w → item_shape item →
  (status item ≠ pending →
   ∃ cl, heap w !! promise item = Some cl
         ∧ c_state cl = Some (Fulfilled (servedValue item))) →
  status item ≠ pending →
  inv (with_svc (setCacheItem key item (svc w)) w).
Proof.
  intros Hok (Hsh & Hdj & Hhd & Hval & Htr) Hitem Hv Hst. unfold inv. simpl. split_and!.
  - apply shape_ok_setCacheItem; [apply Hok | done..].
  - eapply disjoint_ok_shrink; [apply setCacheItem_queues, Hok | done].
  - apply handles_ok_setCacheItem; [apply Hok | done].
  - apply value_ok_setCacheItem; [apply Hok | done..].
  - apply tracked_ok_setCacheItem; [apply Hok | done..].
Qed.

Lemma inv_step e w w' : world_ok w → inv w → step e w = Some w' → inv w'.
Proof.
  intros Hok Hinv Hstep. destruct e; simpl in Hstep.
  - injection Hstep as <-. by apply (inv_same w).
  - injection Hstep as <-. unfold inv. simpl. split_and!.
    + intros k it Hget. done.
    + intros sid1 sid2 q1 q2 k H1. by rewrite lookup_empty in H1.
    + intros k p Hp. by rewrite lookup_empty in Hp.
    + intros k it Hget. done.
    + intros k it Hget. done.
  - by injection Hstep as <-.
  - injection Hstep as <-. apply (inv_same w); try done; unfold hasCompletedItem;
      (destruct (negb _); [done|]); by destruct (JsMap.get _ _).
  - injection Hstep as <-. apply (inv_same w); try done; unfold hasPending;
      (destruct (negb _); [done|]); by destruct (JsMap.get _ _).
  - injection Hstep as <-. by apply inv_setSessionSettings.
  - injection Hstep as <-. unfold preloadTTS. destruct (negb _); [done|].
    destruct (sessionSettings (svc w) !! sessionId) as [st|]; [|done].
    destruct (preloadWithSettings _ _ _ _ _ _ _) as [w1|e w1] eqn:Ep.
    + by eapply inv_preloadWithSettings.
    + apply (inv_same w1); try done. by eapply inv_preloadWithSettings_throws.
  - injection Hstep as <-. unfold requestTTS.
    destruct (negb (initialized (svc w))) eqn:Hi; [done|].
    apply negb_false_iff in Hi.
    set (w1 := setSessionSettings sessionId service language voice w).
    set (w2 := with_svc (ensureQueue sessionId (svc w1)) w1).
    assert (Hinv2 : inv w2).
    { pose proof (inv_setSessionSettings sessionId service language voice w Hinv)
        as (Hsh & Hdj & Hhd & Hval & Htr).
      assert (Hpp : pendingPromises (ensureQueue sessionId (svc w1))
                    = pendingPromises (svc w1)).
      { unfold ensureQueue. by destruct (_ !! _). }
      unfold inv, w2. simpl. rewrite cache_ensureQueue, Hpp.
      split_and!; [done | by apply disjoint_ok_ensureQueue | done..]. }
    assert (Hok2 : world_ok w2).
    { pose proof (world_ok_setSessionSettings w sessionId service language voice Hok)
        as [Hs Hc Ht Hh].
      split; simpl; try done.
      - apply ensureQueue_ok; [|done]. unfold w1.
        by rewrite initialized_setSessionSettings.
      - intros k it. rewrite cache_ensureQueue. apply Hc. }
    destruct (negb (includes _ _)); [|done].
    destruct (preloadWithSettings _ _ _ _ _ _ _) as [w3|e w3] eqn:Ep.
    + by apply (inv_preloadWithSettings _ _ _ _ _ _ _ _ Hok2 Hinv2) in Ep.
    + apply (inv_same w3); try done. by eapply inv_preloadWithSettings_throws.
  - destruct (heap w !! p) as [c|] eqn:Hc; [|by unfold settle in Hstep; rewrite Hc in Hstep].
    destruct (c_state c) eqn:Hs; [by unfold settle in Hstep; rewrite Hc, Hs in Hstep|].
    destruct Hinv as (Hsh & Hdj & Hhd & Hval & Htr).
    destruct (c_origin c) eqn:Ho.
    + rewrite (settle_preload _ _ _ _ _ Hc Hs Ho) in Hstep. injection Hstep as <-.
      destruct (handlerItem_value p o now) as (Hst & Hpr & Hsv).
      unfold inv. simpl. split_and!.
      * apply shape_ok_setCacheItem; [apply Hok | done | apply handlerItem_shape].
      * eapply disjoint_ok_shrink; [apply setCacheItem_queues, Hok | done].
      * apply handles_ok_setState, handles_ok_setCacheItem; [apply Hok | done].
      * apply value_ok_setCacheItem; [apply Hok | by eapply value_ok_setState |].
        intros _. rewrite Hpr, Hsv. exists (setState (Fulfilled (outcomeValue o)) c).
        split; [|done]. by rewrite list_lookup_alter, decide_True, Hc.
      * apply tracked_ok_setCacheItem; [apply Hok | done..].
    + rewrite (settle_direct _ _ _ _ _ Hc Hs Ho) in Hstep. injection Hstep as <-.
      unfold inv. simpl. split_and!; try done.
      * by apply handles_ok_setState.
      * by eapply value_ok_setState.
  - unfold resume in Hstep.
    destruct (tasks w !! rid) as [[a b c0 d i waits|q|k q|r]|] eqn:Ht; try done.
    + destruct (forallb _ _); [|done]. injection Hstep as <-. unfold afterBarrier.
      destruct (JsMap.get _ _); [by destruct (_ && _)|].
      destruct (ttsFn (svc w)) as [fn|]; [|done].
      destruct (fn_throws fn a b c0 d); [done|].
      destruct Hinv as (Hsh & Hdj & Hhd & Hval & Htr). unfold inv. simpl.
      split_and!; [done | done | by apply handles_ok_app | by apply value_ok_app | done].
    + destruct (promiseState q w) as [r|]; [|done]. injection Hstep as <-. by destruct r.
    + destruct (promiseState q w) as [r|] eqn:Hq; [|done]. injection Hstep as <-.
      destruct r as [v|]; [|done]. unfold afterDirect.
      destruct (not_null v) eqn:Hnn; [|done].
      apply (inv_same (with_svc (setCacheItem k (mkItem q v now (estimateSize v) completed)
                                              (svc w)) w)); try done.
      apply inv_setCacheItem; [done | done | by unfold item_shape | | done].
      intros _. simpl. unfold promiseState in Hq.
      destruct (heap w !! q) as [cl|]; [|done]. simpl in Hq. eauto.
Qed.

Lemma inv_run es : ∀ w w', world_ok w → inv w → run es w = Some w' → inv w'.
Proof.
  induction es as [|e es IH]; simpl; intros w w' Hok Hinv.
  - by intros [= <-].
  - destruct (step e w) as [w1|] eqn:E; [|done].
    apply IH; [by eapply world_ok_step | by eapply inv_step].
Qed.

Lemma reachable_inv es w : run es initialWorld = Some w → inv w.
Proof.
  apply inv_run; [apply initialWorld_ok|].
  unfold inv. simpl. split_and!.
  - intros k it Hget. done.
  - intros sid1 sid2 q1 q2 k H1. by rewrite lookup_empty in H1.
  - intros k p Hp. by rewrite lookup_empty in Hp.
  - intros k it Hget. done.
  - intros k it Hget. done.
Qed.

(** ** Preload and request: what a call leaves behind *)

(** [preloadWithSettings] for a key that is not cached, when [ttsFn]
    returns a promise. *)
Lemma preloadWithSettings_starts service language voice text sessionId now w fn :
  world_ok w → ttsFn (svc w) = Some fn →
  fn_throws fn service language voice text = None →
  JsMap.has (generateKey service language voice text) (cache (svc w)) = false →
  let key := generateKey service language voice text in
  ∃ w', preloadWithSettings service language voice text sessionId now w = Returns w'
    ∧ heap w' = heap w ++ [mkCall fn service language voice text
                                  (timeoutMs (svc w)) FromPreload None]
    ∧ JsMap.get key (cache (svc w'))
      = Some (mkItem (length (heap w)) undefined now 0 pending)
    ∧ pendingPromises (svc w') !! key = Some (length (heap w))
    ∧ (∃ q, sessionQueues (svc w') !! sessionId = Some (q ++ [key]) ∧ (key ∉ q)
            ∧ (∀ x, x ∈ q → x ∈ (default [] (sessionQueues (svc w) !! sessionId))))
    ∧ (∀ sid', sid' ≠ sessionId → ∀ x q',
         sessionQueues (svc w') !! sid' = Some q' → x ∈ q' →
         x ∈ default [] (sessionQueues (svc w) !! sid'))
    ∧ config (svc w') = config (svc w)
    ∧ tasks w' = tasks w ∧ console w' = console w ∧ uncaught w' = uncaught w.
Proof.
  intros Hok Hfn Hret Habs key. fold key in Habs. unfold preloadWithSettings. fold key.
  rewrite Habs, Hfn, Hret.
  eexists. split; [reflexivity|].
  set (item := mkItem (length (heap w)) undefined now 0 pending).
  set (s1 := with_pendingPromises (<[key:=length (heap w)]> (pendingPromises (svc w))) (svc w)).
  assert (Hok1 : state_ok s1) by apply state_ok_pendingPromises, Hok.
  set (s2 := setCacheItem key item s1).
  cbn [svc heap tasks console uncaught with_svc alloc]. fold item. fold s1. fold s2.
  assert (Hget : JsMap.get key (cache s2) = Some item) by by apply setCacheItem_pending.
  pose proof (setCacheItem_queues key item s1 Hok1) as Hsh. fold s2 in Hsh.
  apply has_false in Habs.
  split_and!; try done.
  - unfold pushKey. simpl. by rewrite cache_ensureQueue.
  - assert (Hp4 : pendingPromises (pushKey sessionId key (ensureQueue sessionId s2))
                  = pendingPromises s2).
    { unfold pushKey, ensureQueue. simpl. by destruct (_ !! _). }
    rewrite Hp4.
    destruct (setCacheItem_cases key item s1 key Hok1) as [[Hn _]|[_ Hpp]];
      [fold s2 in Hn; congruence|].
    fold s2 in Hpp. rewrite Hpp. simpl. by rewrite lookup_insert_eq.
  - exists (default [] (sessionQueues s2 !! sessionId)).
    rewrite pushKey_lookup, decide_True by done. split; [done|].
    specialize (Hsh sessionId).
    destruct (sessionQueues s2 !! sessionId) as [q|] eqn:Eq; simpl.
    + destruct (sessionQueues s1 !! sessionId) as [q0|] eqn:E0; [|done].
      change (sessionQueues (svc w) !! sessionId = Some q0) in E0. rewrite E0. simpl.
      split; [|done]. intros Hin.
      apply (uncached_not_queued (svc w) key sessionId q0 (wk_state _ Hok) Habs E0).
      by apply Hsh.
    + split; [apply not_elem_of_nil|]. intros x Hx. by apply elem_of_nil in Hx.
  - intros sid' Hne x q'. rewrite pushKey_lookup, decide_False by done.
    intros Hq' Hx. specialize (Hsh sid'). rewrite Hq' in Hsh.
    destruct (sessionQueues s1 !! sid') as [q0|] eqn:E0; [|done].
    change (sessionQueues (svc w) !! sid' = Some q0) in E0. rewrite E0. simpl. auto.
  - transitivity (config s2).
    + unfold pushKey, ensureQueue. by destruct (_ !! _).
    + unfold s2. by rewrite setCacheItem_config.
Qed.

(** X1.  [preloadTTS] on an initialised service.  Without settings for the
    session it only writes a warning.  With settings, and the key of
    (settings, text) cached, it changes nothing.  Otherwise it calls
    [ttsFn] once with the settings of the session and the text.  When
    that call throws, [preloadTTS] throws the same at its caller and
    leaves the service, the promises and the requests as they were.  When
    it returns a promise, [preloadTTS] stores a pending entry of size 0
    whose promise is the new call's, keeps that promise in
    [pendingPromises], and appends the key to the session's queue, in
    which it was not before; nothing is thrown. *)
Theorem preloadTTS_cases (es : list Event) (w : World) (text sessionId : string) (now : Z) :
  run es initialWorld = Some w → initialized (svc w) = true →
  let w' := preloadTTS text sessionId now w in
  match sessionSettings (svc w) !! sessionId with
  | None => ∃ m, w' = log (Warn m) w
  | Some st =>
      let key := generateKey (st_service st) (st_language st) (st_voice st) text in
      if JsMap.has key (cache (svc w)) then w' = w
      else
        ∃ fn, ttsFn (svc w) = Some fn
          ∧ match fn_throws fn (st_service st) (st_language st) (st_voice st) text with
            | Some e =>
                uncaught w' = uncaught w ++ [e]
                ∧ svc w' = svc w ∧ heap w' = heap w
                ∧ tasks w' = tasks w ∧ console w' = console w
            | None =>
                heap w' = heap w ++ [mkCall fn (st_service st) (st_language st)
                                            (st_voice st) text (timeoutMs (svc w))
                                            FromPreload None]
                ∧ JsMap.get key (cache (svc w'))
                  = Some (mkItem (length (heap w)) undefined now 0 pending)
                ∧ pendingPromises (svc w') !! key = Some (length (heap w))
                ∧ (∃ q, sessionQueues (svc w') !! sessionId = Some (q ++ [key])
                        ∧ (key ∉ q)
                        ∧ (∀ x, x ∈ q →
                             x ∈ (default [] (sessionQueues (svc w) !! sessionId))))
                ∧ config (svc w') = config (svc w)
                ∧ tasks w' = tasks w ∧ console w' = console w
                ∧ uncaught w' = uncaught w
            end
  end.
Proof.
  intros Hrun Hi w'. unfold w', preloadTTS. rewrite Hi. cbn [negb].
  assert (Hok : world_ok w) by (apply reachable_ok; by exists es).
  destruct (sessionSettings (svc w) !! sessionId) as [st|]; [|by eexists].
  cbv zeta.
  destruct (JsMap.has _ _) eqn:Ehas.
  - unfold preloadWithSettings. by rewrite Ehas.
  - destruct (ok_fn _ (wk_state _ Hok) Hi) as [fn Hfn]. exists fn. split; [done|].
    destruct (fn_throws fn (st_service st) (st_language st) (st_voice st) text)
      as [e|] eqn:Ef.
    + unfold preloadWithSettings. by rewrite Ehas, Hfn, Ef.
    + destruct (preloadWithSettings_starts (st_service st) (st_language st) (st_voice st)
                  text sessionId now w fn Hok Hfn Ef Ehas)
        as (w1 & -> & Hh & Hc & Hp & Hq & _ & Hcfg & Ht & Hco & Hu).
      by split_and!.
Qed.

Lemma preloadTTS_cases_witness :
  match run repeated initialWorld with
  | Some w =>
      preloadTTS "Hello world" "test-session" 7 w = w
      ∧ JsMap.get (generateKey "aws" "en-US" "female" "Next")
                  (cache (svc (preloadTTS "Next" "test-session" 7 w)))
        = Some (mkItem 1 undefined 7 0 pending)
  | None => False
  end.
Proof.
  destruct (run repeated initialWorld) as [w|] eqn:E.
  - assert (Hi : initialized (svc w) = true
                 ∧ sessionSettings (svc w) !! "test-session"
                   = Some (mkSettings "aws" "en-US" "female")
                 ∧ JsMap.has (generateKey "aws" "en-US" "female" "Hello world")
                             (cache (svc w)) = true
                 ∧ JsMap.has (generateKey "aws" "en-US" "female" "Next")
                             (cache (svc w)) = false
                 ∧ length (heap w) = 1%nat
                 ∧ ttsFn (svc w) = Some (returning "mockTTSFn")).
    { vm_compute in E. injection E as <-. by vm_compute. }
    destruct Hi as (Hi & Hst & Hhas & Habs & Hlen & Hfn). split.
    + pose proof (preloadTTS_cases repeated w "Hello world" "test-session" 7 E Hi) as H.
      cbv zeta in H. rewrite Hst in H. simpl in H. by rewrite Hhas in H.
    + pose proof (preloadTTS_cases repeated w "Next" "test-session" 7 E Hi) as H.
      cbv zeta in H. rewrite Hst in H. simpl in H. rewrite Habs in H.
      destruct H as (fn & Hfn' & H). rewrite Hfn in Hfn'. injection Hfn' as <-.
      simpl in H. destruct H as (_ & Hget & _). by rewrite Hlen in Hget.
  - vm_compute in E. discriminate E.
Defined.

Lemma preloadWithSettings_config service language voice text sessionId now w w' :
  preloadWithSettings service language voice text sessionId now w = Returns w' →
  config (svc w') = config (svc w).
Proof.
  unfold preloadWithSettings. destruct (JsMap.has _ _); [by intros [= <-]|].
  destruct (ttsFn (svc w)) as [fn|]; [|done].
  destruct (fn_throws fn service language voice text); [done|]. intros [= <-]. simpl.
  transitivity (config (setCacheItem (generateKey service language voice text)
     (mkItem (length (heap w)) undefined now 0 pending)
     (with_pendingPromises
        (<[generateKey service language voice text:=length (heap w)]>
           (pendingPromises (svc w))) (svc w)))).
  - unfold pushKey, ensureQueue. by destruct (_ !! _).
  - by rewrite setCacheItem_config.
Qed.

Lemma preloadWithSettings_queue service language voice text sessionId now w w' :
  preloadWithSettings service language voice text sessionId now w = Returns w' →
  is_Some (sessionQueues (svc w) !! sessionId) →
  is_Some (sessionQueues (svc w') !! sessionId).
Proof.
  unfold preloadWithSettings. destruct (JsMap.has _ _); [by intros [= <-]|].
  destruct (ttsFn (svc w)) as [fn|]; [|done].
  destruct (fn_throws fn service language voice text); [done|].
  intros [= <-] _. cbn [svc with_svc].
  rewrite pushKey_lookup, decide_True by done. eauto.
Qed.

(** X2.  [requestTTS] on an initialised service replaces the settings of
    its session by its own service, language and voice, and leaves those
    of the other sessions alone; afterwards the session has a queue, also
    when the key was cached and nothing was queued. *)
Theorem requestTTS_records_settings
    (es : list Event) (w : World)
    (service language voice text sessionId : string) (now : Z) :
  run es initialWorld = Some w → initialized (svc w) = true →
  let w1 := requestTTS service language voice text sessionId now w in
  sessionSettings (svc w1)
  = <[sessionId := mkSettings service language voice]> (sessionSettings (svc w))
  ∧ is_Some (sessionQueues (svc w1) !! sessionId)
  ∧ initialized (svc w1) = true.
Proof.
  intros Hrun Hi w1. unfold w1, requestTTS. rewrite Hi. cbn [negb].
  assert (Hok : world_ok w) by (apply reachable_ok; by exists es).
  set (w0 := setSessionSettings sessionId service language voice w).
  set (w2 := with_svc (ensureQueue sessionId (svc w0)) w0).
  assert (Hcfg : config (svc w2)
                 = (<[sessionId := mkSettings service language voice]> (sessionSettings (svc w)),
                    instance (svc w), true, ttsFn (svc w), timeoutMs (svc w),
                    maxSize (svc w), maxItems (svc w))).
  { unfold w2, w0, setSessionSettings. rewrite Hi. simpl.
    unfold ensureQueue. destruct (_ !! _); simpl; unfold config; simpl; by rewrite Hi. }
  assert (Hq2 : is_Some (sessionQueues (svc w2) !! sessionId)).
  { unfold w2. simpl. rewrite ensureQueue_lookup. eauto. }
  assert (Hgoal : ∀ w3, config (svc w3) = config (svc w2) →
            is_Some (sessionQueues (svc w3) !! sessionId) →
            sessionSettings (svc w3)
            = <[sessionId := mkSettings service language voice]> (sessionSettings (svc w))
            ∧ is_Some (sessionQueues (svc w3) !! sessionId)
            ∧ initialized (svc w3) = true).
  { intros w3 H3 Hq3. rewrite Hcfg in H3. unfold config in H3.
    injection H3 as -> _ -> _ _ _ _. done. }
  destruct (negb (includes _ _)).
  - assert (Hok2 : world_ok w2).
    { pose proof (world_ok_setSessionSettings w sessionId service language voice Hok)
        as [Hs Hc Ht Hh].
      split; simpl; try done.
      - apply ensureQueue_ok; [|done]. unfold w0.
        by rewrite initialized_setSessionSettings.
      - intros k it. rewrite cache_ensureQueue. apply Hc. }
    assert (Hi2 : initialized (svc w2) = true).
    { unfold w2, w0. simpl.
      by rewrite initialized_ensureQueue, initialized_setSessionSettings. }
    destruct (preloadWithSettings_ok service language voice text sessionId now w2 Hok2 Hi2)
      as (w3 & [Hp|[e Hp]] & _); rewrite Hp; apply (Hgoal w3).
    + by eapply preloadWithSettings_config.
    + by eapply preloadWithSettings_queue.
    + apply preloadWithSettings_throws_svc in Hp as (-> & _). done.
    + apply preloadWithSettings_throws_svc in Hp as (-> & _). done.
  - by apply (Hgoal w2).
Qed.

Lemma requestTTS_records_settings_witness :
  match run repeated initialWorld with
  | Some w =>
      sessionSettings (svc (requestTTS "azure" "fr-FR" "male" "Bonjour" "test-session" 1 w))
        !! "test-session"
      = Some (mkSettings "azure" "fr-FR" "male")
  | None => False
  end.
Proof.
  destruct (run repeated initialWorld) as [w|] eqn:E.
  - assert (Hi : initialized (svc w) = true).
    { vm_compute in E. injection E as <-. reflexivity. }
    destruct (requestTTS_records_settings repeated w
                "azure" "fr-FR" "male" "Bonjour" "test-session" 1 E Hi) as (-> & _).
    apply lookup_insert_eq.
  - vm_compute in E. discriminate E.
Defined.

(** ** Invariants a caller can rely on *)

(** X3.  In every reachable world, a session queue holds no key twice,
    every queued key is cached, and no key is in the queues of two
    sessions. *)
Theorem queues_hold_cached_keys_once
    (es : list Event) (w : World) (sid : string) (q : list string) :
  run es initialWorld = Some w →
  sessionQueues (svc w) !! sid = Some q →
  NoDup q
  ∧ (∀ k, k ∈ q →
       is_Some (JsMap.get k (cache (svc w)))
       ∧ (∀ sid' q', sessionQueues (svc w) !! sid' = Some q' → k ∈ q' → sid' = sid)).
Proof.
  intros Hrun Hq.
  assert (Hok : world_ok w) by (apply reachable_ok; by exists es).
  destruct (reachable_inv es w Hrun) as (_ & Hdj & _).
  destruct (ok_queues _ (wk_state _ Hok) _ _ Hq) as [Hnd Hel].
  split; [done|]. intros k Hk. split; [by apply Hel|].
  intros sid' q' Hq' Hk'. by apply (Hdj sid' sid q' q k).
Qed.

Lemma queues_hold_cached_keys_once_witness :
  match run crowded initialWorld with
  | Some w =>
      NoDup [generateKey "aws" "en-US" "female" "one";
             generateKey "aws" "en-US" "female" "two"]
  | None => False
  end.
Proof.
  destruct (run crowded initialWorld) as [w|] eqn:E.
  - refine (proj1 (queues_hold_cached_keys_once crowded w "s" _ E _)).
    vm_compute in E. injection E as <-. reflexivity.
  - vm_compute in E. discriminate E.
Defined.

Lemma estimateSize_nonneg v : 0 ≤ estimateSize v.
Proof. unfold estimateSize. destruct (stringify_length v); lia. Qed.

Lemma item_shape_size it : item_shape it → 0 ≤ size it.
Proof.
  unfold item_shape. destruct (status it); intros [_ ->];
    [lia | apply estimateSize_nonneg | lia].
Qed.

Lemma sumSizes_nonneg c :
  (∀ e, e ∈ c → 0 ≤ size e.2) → 0 ≤ sumSizes c.
Proof.
  induction c as [|e c IH]; simpl; intros H; [lia|].
  assert (0 ≤ size e.2) by (apply H; left).
  assert (0 ≤ sumSizes c) by (apply IH; intros e' He'; apply H; by right).
  lia.
Qed.

(** X4.  In every reachable world an entry that is pending or failed has
    size 0 and no result, a completed entry has a result that is not
    [null] and the size [estimateSize] gives for it; the size of an entry
    is at least 0 and at most [currentSize]. *)
Theorem entries_are_well_shaped
    (es : list Event) (w : World) (k : string) (it : CacheItem) :
  run es initialWorld = Some w →
  JsMap.get k (cache (svc w)) = Some it →
  item_shape it ∧ 0 ≤ size it ∧ size it ≤ currentSize (svc w).
Proof.
  intros Hrun Hget.
  assert (Hok : world_ok w) by (apply reachable_ok; by exists es).
  destruct (reachable_inv es w Hrun) as (Hsh & _).
  pose proof (Hsh k it Hget) as Hit.
  split; [done|]. split; [by apply item_shape_size|].
  rewrite (ok_size _ (wk_state _ Hok)).
  assert (Hall : ∀ e, e ∈ cache (svc w) → 0 ≤ size e.2).
  { intros [k' it'] Hin. apply item_shape_size, (Hsh k').
    apply elem_get; [apply Hok | done]. }
  apply get_Some_elem in Hget. revert Hget Hall.
  generalize (cache (svc w)). intros c. induction c as [|e c IH]; intros Hin Hall.
  - by apply elem_of_nil in Hin.
  - simpl. apply elem_of_cons in Hin as [<-|Hin].
    + assert (0 ≤ sumSizes c) by (apply sumSizes_nonneg; intros e' He'; apply Hall; by right).
      simpl. lia.
    + assert (0 ≤ size e.2) by (apply Hall; left).
      assert (size it ≤ sumSizes c) by (apply IH; [done|]; intros e' He'; apply Hall; by right).
      lia.
Qed.

Lemma entries_are_well_shaped_witness :
  match run Scenarios.lru initialWorld with
  | Some w => 0 ≤ 89 ∧ 89 ≤ currentSize (svc w)
  | None => False
  end.
Proof.
  destruct (run Scenarios.lru initialWorld) as [w|] eqn:E.
  - refine (proj2 (entries_are_well_shaped Scenarios.lru w
              (generateKey "aws" "en-US" "female" "Item 2")
              (mkItem 1 (Scenarios.audio "Item 2") 101 89 completed) E _)).
    vm_compute in E. injection E as <-. reflexivity.
  - vm_compute in E. discriminate E.
Defined.

(** X5.  In every reachable world, a key of [pendingPromises] is cached
    and what is kept for it is the promise of a call that
    [preloadWithSettings] made for that key; and the promise of every
    pending entry is the one kept for its key. *)
Theorem handles_follow_the_cache (es : list Event) (w : World) (k : string) :
  run es initialWorld = Some w →
  (∀ p, pendingPromises (svc w) !! k = Some p →
     is_Some (JsMap.get k (cache (svc w)))
     ∧ ∃ cl, heap w !! p = Some cl ∧ callKey cl = k ∧ c_origin cl = FromPreload)
  ∧ (∀ it, JsMap.get k (cache (svc w)) = Some it → status it = pending →
       pendingPromises (svc w) !! k = Some (promise it)).
Proof.
  intros Hrun. destruct (reachable_inv es w Hrun) as (_ & _ & Hhd & _ & Htr).
  split; [apply Hhd | apply Htr].
Qed.

Lemma handles_follow_the_cache_witness :
  match run crowded initialWorld with
  | Some w =>
      pendingPromises (svc w) !! generateKey "aws" "en-US" "female" "two" = Some 1%nat
  | None => False
  end.
Proof.
  destruct (run crowded initialWorld) as [w|] eqn:E.
  - refine (proj2 (handles_follow_the_cache crowded w
              (generateKey "aws" "en-US" "female" "two") E)
              (mkItem 1 undefined 1 0 pending) _ eq_refl).
    vm_compute in E. injection E as <-. reflexivity.
  - vm_compute in E. discriminate E.
Defined.

(** ** What a request is given *)

(** X6.  A request that has passed its barrier and finds a completed or
    failed entry for its key is given the result of the completed entry,
    or [null] for the failed one, after one or two resumptions; [ttsFn] is
    not called and the service state is as before (a read does not
    touch the timestamp of the entry). *)
Theorem terminal_entry_is_served
    (es : list Event) (w : World) (rid : nat)
    (service language voice text sessionId : string) (waits : list nat)
    (item : CacheItem) (now : Z) :
  run es initialWorld = Some w →
  tasks w !! rid = Some (AtBarrier service language voice text sessionId waits) →
  forallb (isSettled w) waits = true →
  JsMap.get (generateKey service language voice text) (cache (svc w)) = Some item →
  status item ≠ pending →
  ∃ n w', (n = 1 ∨ n = 2)%nat
    ∧ run (replicate n (Resume rid now)) w = Some w'
    ∧ requestResult rid w' = Some (Fulfilled (servedValue item))
    ∧ svc w' = svc w ∧ heap w' = heap w.
Proof.
  intros Hrun Ht Hall Hget Hst.
  destruct (reachable_inv es w Hrun) as (_ & _ & _ & Hval & _).
  assert (Hres : resume rid now w = Some (afterBarrier rid service language voice text w)).
  { unfold resume. by rewrite Ht, Hall. }
  unfold afterBarrier in Hres. rewrite Hget in Hres.
  destruct (Status_eqb (status item) completed && truthy_any (result item)) eqn:Ehit.
  - exists 1%nat. eexists. split; [by left|]. simpl. rewrite Hres.
    split; [reflexivity|]. rewrite requestResult_setTask by eauto.
    split; [|done]. unfold servedValue.
    apply andb_true_iff in Ehit as [Ec _]. by destruct (status item).
  - destruct (Hval _ _ Hget Hst) as (cl & Hcl & Hcs).
    set (w1 := setTask rid (AwaitItem (promise item)) w) in *.
    assert (Hres1 : resume rid now w1
                    = Some (afterItem rid (Fulfilled (servedValue item)) w1)).
    { unfold resume, w1. simpl. rewrite list_lookup_insert_eq.
      - unfold promiseState. simpl. by rewrite Hcl; simpl; rewrite Hcs.
      - apply lookup_lt_is_Some. eauto. }
    exists 2%nat. eexists. split; [by right|]. simpl. rewrite Hres, Hres1.
    split; [reflexivity|]. unfold afterItem. rewrite requestResult_setTask; [done|].
    unfold w1. simpl. rewrite list_lookup_insert_eq; [eauto|].
    apply lookup_lt_is_Some. eauto.
Qed.

Lemma terminal_entry_is_served_witness :
  match run failedThenRequested initialWorld with
  | Some w =>
      ∃ n w', (n = 1 ∨ n = 2)%nat
        ∧ run (replicate n (Resume 0 61)) w = Some w'
        ∧ requestResult 0 w' = Some (Fulfilled null)
        ∧ svc w' = svc w ∧ heap w' = heap w
  | None => False
  end.
Proof.
  destruct (run failedThenRequested initialWorld) as [w|] eqn:E.
  - refine (terminal_entry_is_served failedThenRequested w 0
              "aws" "en-US" "female" "Hello world" "test-session" []
              (mkItem 0 undefined 50 0 error) 61 E _ eq_refl _ _).
    + vm_compute in E. injection E as <-. reflexivity.
    + vm_compute in E. injection E as <-. reflexivity.
    + discriminate.
  - vm_compute in E. discriminate E.
Defined.

(** X7.  A request that waits for a generation call is given what the
    call comes to: the value the call's promise is fulfilled with, and
    [null] when the promise rejects or the timer fires first.  When the
    request made the call itself and the value is not [null], resuming
    the request also stores a completed entry for the key. *)
Theorem request_is_given_the_outcome
    (es : list Event) (w : World) (rid p : nat) (o : Outcome) (now now' : Z) :
  run es initialWorld = Some w →
  awaits w rid p → promiseState p w = None →
  ∃ w1 w2,
    settle p o now w = Some w1
    ∧ resume rid now' w1 = Some w2
    ∧ requestResult rid w2 = Some (Fulfilled (outcomeValue o))
    ∧ (∀ key, tasks w !! rid = Some (AwaitDirect key p) →
         svc w2 = if not_null (outcomeValue o)
                  then setCacheItem key
                         (mkItem p (outcomeValue o) now'
                                 (estimateSize (outcomeValue o)) completed) (svc w)
                  else svc w).
Proof.
  intros Hrun Haw Hp.
  assert (Hok : world_ok w) by (apply reachable_ok; by exists es).
  assert (Hcell : ∃ c, heap w !! p = Some c ∧ c_state c = None
                       ∧ (∀ key, tasks w !! rid = Some (AwaitDirect key p) →
                                 c_origin c = FromRequest)).
  { destruct Haw as [Ht|[key Ht]]; pose proof (wk_tasks _ Hok _ _ Ht) as Htok;
      simpl in Htok.
    - destruct Htok as [c Hc]. exists c. split; [done|].
      split; [unfold promiseState in Hp; by rewrite Hc in Hp|].
      intros key Hk. congruence.
    - destruct Htok as (c & Hc & _ & Ho). exists c. split; [done|].
      split; [unfold promiseState in Hp; by rewrite Hc in Hp|]. done. }
  destruct Hcell as (c & Hc & Hs & Hdir).
  assert (Hsettle : ∃ w1, settle p o now w = Some w1 ∧ tasks w1 = tasks w
            ∧ promiseState p w1 = Some (Fulfilled (outcomeValue o))
            ∧ (c_origin c = FromRequest → svc w1 = svc w)).
  { destruct (c_origin c) eqn:Ho.
    - eexists. split; [by apply settle_preload|]. split; [done|].
      split; [by eapply promiseState_settleCall | done].
    - eexists. split; [by apply settle_direct|]. split; [done|].
      split; [by eapply promiseState_settleCall | done]. }
  destruct Hsettle as (w1 & Hw1 & Ht1 & Hp1 & Hsvc).
  exists w1. destruct Haw as [Ht|[key Ht]].
  - eexists. split; [done|]. unfold resume. rewrite Ht1, Ht, Hp1.
    split; [reflexivity|]. unfold afterItem.
    rewrite requestResult_setTask by (rewrite Ht1, Ht; eauto).
    split; [done|]. intros key Hk. congruence.
  - eexists. split; [done|]. unfold resume. rewrite Ht1, Ht, Hp1.
    split; [reflexivity|]. unfold afterDirect.
    rewrite requestResult_setTask
      by (destruct (not_null (outcomeValue o)); simpl; rewrite Ht1, Ht; eauto).
    split; [done|]. intros key' Hk. injection Hk as <-.
    rewrite <- (Hsvc (Hdir _ Ht)). by destruct (not_null (outcomeValue o)).
Qed.

Lemma request_is_given_the_outcome_witness :
  match run failingRun initialWorld with
  | Some w =>
      ∃ w1 w2,
        settle 0 (Resolves (Scenarios.audio "Fail test")) 50 w = Some w1
        ∧ resume 0 51 w1 = Some w2
        ∧ requestResult 0 w2 = Some (Fulfilled (Scenarios.audio "Fail test"))
  | None => False
  end.
Proof.
  destruct (run failingRun initialWorld) as [w|] eqn:E.
  - assert (H : awaits w 0 0 ∧ promiseState 0 w = None).
    { vm_compute in E. injection E as <-. split; [by left | reflexivity]. }
    destruct (request_is_given_the_outcome failingRun w 0 0
                (Resolves (Scenarios.audio "Fail test")) 50 51 E (proj1 H) (proj2 H))
      as (w1 & w2 & H1 & H2 & H3 & _).
    by exists w1, w2.
  - vm_compute in E. discriminate E.
Defined.

(** X8.  [hasCompletedItem] after the settlement of a preload, when the
    entry is still cached then: the entry is the one the handlers stored,
    it is completed exactly when the value is not [null], and
    [hasCompletedItem] answers [true] exactly when the service is
    initialised and the value is truthy.  So on an initialised service a
    value that is neither [null] nor truthy ([undefined], for one) is
    stored as completed, with the size [estimateSize] gives it, and still
    counts as not completed; and after [uninitialize] a completed entry
    counts as not completed whatever its value.  [hasPending] answers
    [false]. *)
Theorem hasCompletedItem_after_settlement
    (es : list Event) (w w' : World) (p : nat) (c : Call) (o : Outcome) (now : Z)
    (it : CacheItem) :
  run es initialWorld = Some w →
  heap w !! p = Some c → c_origin c = FromPreload →
  settle p o now w = Some w' →
  JsMap.get (callKey c) (cache (svc w')) = Some it →
  it = handlerItem p o now
  ∧ (status it = completed ↔ outcomeValue o ≠ null)
  ∧ (hasCompletedItem (c_service c) (c_language c) (c_voice c) (c_text c) w').1
    = initialized (svc w) && truthy_any (outcomeValue o)
  ∧ (hasPending (c_service c) (c_language c) (c_voice c) (c_text c) w').1 = false.
Proof.
  intros Hrun Hc Ho Hs Hget.
  assert (Hok : world_ok w) by (apply reachable_ok; by exists es).
  assert (Hst : c_state c = None).
  { apply settle_inv in Hs as (c0 & _ & _ & Hc0 & Hn & _). congruence. }
  rewrite (settle_preload _ _ _ _ _ Hc Hst Ho) in Hs. injection Hs as <-.
  simpl in Hget.
  assert (Hit : it = handlerItem p o now).
  { apply setCacheItem_get in Hget as [[_ ->]|[Hne _]]; [done | done | apply Hok]. }
  assert (Hi' : initialized (setCacheItem (callKey c) (handlerItem p o now) (svc w))
                = initialized (svc w)).
  { by rewrite (config_initialized _ _ (setCacheItem_config _ _ _)). }
  split; [done|].
  unfold hasCompletedItem, hasPending. simpl. rewrite Hi'.
  destruct (initialized (svc w)); simpl.
  - fold (callKey c). rewrite Hget, Hit. unfold handlerItem.
    destruct (outcomeValue o) as [| |l t j]; simpl; split_and!; try done;
      split; done.
  - rewrite Hit. unfold handlerItem.
    destruct (outcomeValue o) as [| |l t j]; simpl; split_and!; try done;
      split; done.
Qed.

Lemma hasCompletedItem_after_settlement_witness :
  match run repeated initialWorld with
  | Some w =>
      match settle 0 undefinedResult 50 w with
      | Some w' =>
          (hasCompletedItem "aws" "en-US" "female" "Hello world" w').1 = false
          ∧ currentSize (svc w') = 1000
      | None => False
      end
  | None => False
  end.
Proof.
  destruct (run repeated initialWorld) as [w|] eqn:E;
    [|vm_compute in E; discriminate E].
  destruct (settle 0 undefinedResult 50 w) as [w'|] eqn:E'.
  - assert (Hc : heap w !! 0%nat
                 = Some (mkCall (returning "mockTTSFn") "aws" "en-US" "female"
                                "Hello world" 5000 FromPreload None)).
    { vm_compute in E. injection E as <-. reflexivity. }
    assert (Hget : JsMap.get (generateKey "aws" "en-US" "female" "Hello world")
                             (cache (svc w'))
                   = Some (mkItem 0 undefined 50 1000 completed)
                   ∧ currentSize (svc w') = 1000).
    { vm_compute in E. injection E as <-. vm_compute in E'. injection E' as <-.
      by split. }
    destruct Hget as [Hget Hsz].
    destruct (hasCompletedItem_after_settlement repeated w w' 0 _ undefinedResult 50 _
                E Hc eq_refl E' Hget) as (_ & _ & H & _).
    split; [|exact Hsz]. etransitivity; [exact H | apply andb_false_r].
  - vm_compute in E. injection E as <-. vm_compute in E'. discriminate E'.
Defined.

(** ** Requests and the queue *)

(** X9.  A request for a key that is cached but not in the queue of its
    session (it was cached through another session, or by the last branch
    of an earlier request) does not queue the key and does not call
    [ttsFn]; its barrier waits for nothing, so it can go on at once,
    whatever the session has in flight. *)
Theorem cached_key_is_not_sequenced
    (es : list Event) (w : World)
    (service language voice text sessionId : string) (now now' : Z) :
  run es initialWorld = Some w → initialized (svc w) = true →
  JsMap.has (generateKey service language voice text) (cache (svc w)) = true →
  generateKey service language voice text
    ∉ default [] (sessionQueues (svc w) !! sessionId) →
  let w1 := requestTTS service language voice text sessionId now w in
  heap w1 = heap w
  ∧ cache (svc w1) = cache (svc w)
  ∧ sessionQueues (svc w1) !! sessionId
    = Some (default [] (sessionQueues (svc w) !! sessionId))
  ∧ tasks w1 = tasks w ++ [AtBarrier service language voice text sessionId []]
  ∧ is_Some (resume (length (tasks w)) now' w1).
Proof.
  intros Hrun Hi Hhas Hnq w1.
  set (key := generateKey service language voice text) in *.
  set (w0 := setSessionSettings sessionId service language voice w).
  set (w2 := with_svc (ensureQueue sessionId (svc w0)) w0).
  assert (Hq0 : sessionQueues (svc w0) = sessionQueues (svc w)).
  { unfold w0, setSessionSettings. by rewrite Hi. }
  assert (Hq2 : sessionQueues (svc w2) !! sessionId
                = Some (default [] (sessionQueues (svc w) !! sessionId))).
  { unfold w2. simpl. by rewrite ensureQueue_lookup, Hq0. }
  assert (Hc2 : cache (svc w2) = cache (svc w)).
  { unfold w2, w0. simpl. by rewrite cache_ensureQueue, cache_setSessionSettings. }
  assert (Hinc : includes key (default [] (sessionQueues (svc w2) !! sessionId)) = false).
  { rewrite Hq2. simpl. destruct (includes _ _) eqn:E; [|done].
    by apply includes_true in E. }
  assert (Hpre : preloadWithSettings service language voice text sessionId now w2
                 = Returns w2).
  { unfold preloadWithSettings. fold key. by rewrite Hc2, Hhas. }
  assert (Hwaits : precedingPromises sessionId key (svc w2) = []).
  { unfold precedingPromises. rewrite Hq2. simpl.
    apply indexOf_absent in Hnq. by rewrite Hnq. }
  assert (Hw1 : w1 = spawn (AtBarrier service language voice text sessionId []) w2).
  { unfold w1, requestTTS. rewrite Hi. cbn [negb]. fold w0. fold w2. fold key.
    rewrite Hinc. cbn [negb]. rewrite Hpre. cbn [negb]. by rewrite Hwaits. }
  assert (Ht2 : tasks w2 = tasks w).
  { unfold w2, w0. simpl. by rewrite tasks_setSessionSettings. }
  rewrite Hw1. cbn [heap svc tasks spawn]. split_and!.
  - unfold w2, w0. cbn [heap with_svc]. by rewrite heap_setSessionSettings.
  - done.
  - done.
  - by rewrite Ht2.
  - unfold resume. cbn [tasks spawn]. rewrite Ht2, list_lookup_middle by done.
    simpl. eauto.
Qed.

Lemma cached_key_is_not_sequenced_witness :
  match run crowded initialWorld with
  | Some w =>
      let w1 := requestTTS "aws" "en-US" "female" "two" "other" 2 w in
      sessionQueues (svc w1) !! "other" = Some []
      ∧ is_Some (resume 0 3 w1)
  | None => False
  end.
Proof.
  destruct (run crowded initialWorld) as [w|] eqn:E.
  - assert (H : initialized (svc w) = true
                ∧ JsMap.has (generateKey "aws" "en-US" "female" "two") (cache (svc w)) = true
                ∧ sessionQueues (svc w) !! "other" = None
                ∧ length (tasks w) = 0%nat).
    { vm_compute in E. injection E as <-. by vm_compute. }
    destruct H as (Hi & Hhas & Hq & Hlen).
    assert (Hnq : generateKey "aws" "en-US" "female" "two"
                  ∉ default [] (sessionQueues (svc w) !! "other")).
    { rewrite Hq. apply not_elem_of_nil. }
    destruct (cached_key_is_not_sequenced crowded w "aws" "en-US" "female" "two" "other"
                2 3 E Hi Hhas Hnq) as (_ & _ & H3 & _ & H5).
    rewrite Hq in H3. rewrite Hlen in H5. by split.
  - vm_compute in E. discriminate E.
Defined.

(** ** Reset with calls in flight, and results that arrive in a crowd *)

(** X10.  [uninitialize] does not stop the calls in flight.  When a call
    that [preloadWithSettings] made settles after it, its handlers store
    their entry in the emptied cache of the service, which stays
    uninitialised: if the limits admit one entry of that size the cache
    then holds exactly this entry and [currentSize] is its size, while
    [hasCompletedItem] answers [false] and no session queue exists. *)
Theorem reset_does_not_stop_calls
    (es : list Event) (w : World) (p : nat) (c : Call) (o : Outcome) (now : Z) :
  run es initialWorld = Some w →
  heap w !! p = Some c → c_state c = None → c_origin c = FromPreload →
  let item := handlerItem p o now in
  ∃ w', run [Uninitialize; Settle p o now] w = Some w'
    ∧ initialized (svc w') = false
    ∧ svc w' = setCacheItem (callKey c) item (uninitialize (svc w))
    ∧ sessionQueues (svc w') = ∅
    ∧ (hasCompletedItem (c_service c) (c_language c) (c_voice c) (c_text c) w').1 = false
    ∧ (1 ≤ maxItems (svc w) → size item ≤ maxSize (svc w) →
       cache (svc w') = [(callKey c, item)] ∧ currentSize (svc w') = size item
       ∧ currentItems (getCacheStats w').1 = 1).
Proof.
  intros Hrun Hc Hs Ho item.
  set (w0 := with_svc (uninitialize (svc w)) w).
  assert (Hsettle : settle p o now w0
            = Some (settleCall p (Fulfilled (outcomeValue o))
                      (with_svc (setCacheItem (callKey c) item (svc w0))
                                (logs (withTimeout o (c_timeout c)).2 w0)))).
  { by apply settle_preload. }
  eexists. split; [simpl; fold w0; rewrite Hsettle; reflexivity|].
  cbn [svc settleCall with_svc].
  assert (Hcfg : config (setCacheItem (callKey c) item (svc w0)) = config (svc w0))
    by apply setCacheItem_config.
  assert (Hi : initialized (setCacheItem (callKey c) item (svc w0)) = false).
  { by rewrite (config_initialized _ _ Hcfg). }
  assert (Hok0 : state_ok (setCacheItem (callKey c) item (svc w0))).
  { apply setCacheItem_ok, uninitialize_ok. }
  split_and!.
  - done.
  - done.
  - by apply (ok_uninit _ Hok0).
  - unfold hasCompletedItem. cbn [svc settleCall with_svc]. by rewrite Hi.
  - intros Hmi Hms.
    assert (Hov : overLimits (storeItem (callKey c) item (svc w0)) = false).
    { unfold overLimits, storeItem, JsMap.size. simpl. rewrite !Z.gtb_ltb.
      apply orb_false_iff. split; apply Z.ltb_ge; lia. }
    unfold setCacheItem, enforceCacheLimits, getCacheStats. cbn [svc settleCall with_svc fst].
    unfold setCacheItem, enforceCacheLimits. rewrite Hov. by split_and!.
Qed.

Lemma reset_does_not_stop_calls_witness :
  match run repeated initialWorld with
  | Some w =>
      ∃ w', run [Uninitialize; Settle 0 (Resolves (Scenarios.audio "Hello world")) 50] w
            = Some w'
        ∧ initialized (svc w') = false
        ∧ currentItems (getCacheStats w').1 = 1
  | None => False
  end.
Proof.
  destruct (run repeated initialWorld) as [w|] eqn:E.
  - assert (H : heap w !! 0%nat
                = Some (mkCall (returning "mockTTSFn") "aws" "en-US" "female" "Hello world"
                               5000 FromPreload None)
                ∧ maxItems (svc w) = 100 ∧ maxSize (svc w) = 10485760).
    { vm_compute in E. injection E as <-. by split_and!. }
    destruct H as (Hc & Hmi & Hms).
    destruct (reset_does_not_stop_calls repeated w 0 _
                (Resolves (Scenarios.audio "Hello world")) 50 E Hc eq_refl eq_refl)
      as (w' & Hr & Hi & _ & _ & _ & Hone).
    exists w'. split; [done|]. split; [done|].
    apply Hone; [rewrite Hmi; lia | rewrite Hms; vm_compute; discriminate].
  - vm_compute in E. discriminate E.
Defined.

Lemma singleton_candidates (l : list (string * CacheItem)) (e : string * CacheItem) :
  NoDup l.*1 → e ∈ l → (∀ e', e' ∈ l → e' = e) → l = [e].
Proof.
  intros Hnd Hin Hall. destruct l as [|a l]; [by apply elem_of_nil in Hin|].
  assert (a = e) as -> by (apply Hall; left).
  destruct l as [|b l]; [done|]. exfalso.
  assert (b = e) as -> by (apply Hall; right; left).
  simpl in Hnd. apply NoDup_cons in Hnd as [Hn _]. apply Hn. left.
Qed.

(** X11.  A result that arrives in a crowd is dropped.  When the call of
    a cached key settles while every other entry is pending and the cache
    holds more entries than [maxItems], the entry its handlers store is
    the only one the eviction may remove, and it is removed at once: the
    key is no longer cached, in no queue and not in [pendingPromises],
    while the other entries stay and the promise is fulfilled all the
    same. *)
Theorem result_in_a_crowd_is_dropped
    (es : list Event) (w w' : World) (p : nat) (c : Call) (o : Outcome) (now : Z) :
  run es initialWorld = Some w →
  heap w !! p = Some c → c_origin c = FromPreload →
  JsMap.has (callKey c) (cache (svc w)) = true →
  (∀ k it, JsMap.get k (cache (svc w)) = Some it → k ≠ callKey c → status it = pending) →
  maxItems (svc w) < JsMap.size (cache (svc w)) →
  settle p o now w = Some w' →
  JsMap.get (callKey c) (cache (svc w')) = None
  ∧ pendingPromises (svc w') !! callKey c = None
  ∧ (∀ sid q, sessionQueues (svc w') !! sid = Some q → callKey c ∉ q)
  ∧ (∀ k, k ≠ callKey c → JsMap.get k (cache (svc w')) = JsMap.get k (cache (svc w)))
  ∧ promiseState p w' = Some (Fulfilled (outcomeValue o)).
Proof.
  intros Hrun Hc Ho Hhas Hothers Hover Hs.
  assert (Hok : world_ok w) by (apply reachable_ok; by exists es).
  assert (Hst : c_state c = None).
  { apply settle_inv in Hs as (c0 & _ & _ & Hc0 & Hn & _). congruence. }
  rewrite (settle_preload _ _ _ _ _ Hc Hst Ho) in Hs. injection Hs as <-.
  set (key := callKey c) in *. set (item := handlerItem p o now).
  destruct (handlerItem_value p o now) as (Hterm & _ & _). fold item in Hterm.
  split_and!; [| | | |by eapply promiseState_settleCall].
  all: cbn [svc settleCall with_svc].
  all: set (s := storeItem key item (svc w)).
  all: assert (Hoks : state_ok s) by apply storeItem_ok, Hok.
  all: assert (Hgs : ∀ k, JsMap.get k (cache s)
                          = if decide (key = k) then Some item else JsMap.get k (cache (svc w)))
    by (intros k; unfold s; rewrite cache_storeItem; case_decide;
        [subst; apply get_set_eq | by apply get_set_ne]).
  all: assert (Hovs : overLimits s = true)
    by (unfold overLimits, s, JsMap.size; rewrite cache_storeItem, length_set, Hhas;
        replace (maxItems (storeItem key item (svc w))) with (maxItems (svc w))
          by (unfold storeItem; by destruct (JsMap.get _ _));
        apply orb_true_iff; left; rewrite Z.gtb_ltb; apply Z.ltb_lt, Hover).
  all: assert (Hcands : candidates s = [(key, item)])
    by (apply singleton_candidates;
        [ apply candidates_NoDup, Hoks
        | apply candidates_spec; [apply Hoks|]; split; [|done];
          by rewrite Hgs, decide_True
        | intros [k it] Hin; apply candidates_spec in Hin as [Hg Hn]; [|apply Hoks];
          rewrite Hgs in Hg; case_decide as Hd;
          [ by injection Hg as <-; subst
          | exfalso; apply Hn; eapply Hothers; [exact Hg | congruence] ] ]).
  all: destruct (enforceCacheLimits_prefix s) as (n & Heq & _ & Hend).
  all: assert (Hn : take n (candidates s) = [(key, item)])
    by (rewrite Hcands in *; destruct n as [|n];
        [ simpl in Heq; rewrite Heq, Hovs in Hend; destruct Hend; done
        | by destruct n ]).
  all: pose proof (live_take n _ _ (live_candidates s (ok_keys _ Hoks))) as Hlive.
  all: destruct (evictAll_effect _ s Hoks Hlive) as (Hok' & _ & _ & Hin & Hout).
  all: rewrite <- Heq in Hok', Hin, Hout; rewrite Hn in Hin, Hout.
  all: change (setCacheItem key item (svc w)) with (enforceCacheLimits s).
  - apply Hin. simpl. left.
  - apply Hin. simpl. left.
  - intros sid q Hq Hk. destruct (ok_queues _ Hok' _ _ Hq) as [_ Hel].
    destruct (Hel _ Hk) as [x Hx]. destruct (Hin key) as [Hnone _]; [left|]. congruence.
  - intros k Hk. destruct (Hout k) as [-> _].
    + simpl. intros Hin'. apply list_elem_of_singleton in Hin'. done.
    + rewrite Hgs. by rewrite decide_False.
Qed.

Lemma result_in_a_crowd_is_dropped_witness :
  match run crowded initialWorld with
  | Some w =>
      ∀ w', settle 0 (Resolves (Scenarios.audio "one")) 5 w = Some w' →
            JsMap.get (generateKey "aws" "en-US" "female" "one") (cache (svc w')) = None
  | None => False
  end.
Proof.
  destruct (run crowded initialWorld) as [w|] eqn:E.
  - intros w' Hs.
    assert (H : heap w !! 0%nat
                = Some (mkCall (returning "tts") "aws" "en-US" "female" "one" 5000 FromPreload None)
                ∧ cache (svc w)
                  = [(generateKey "aws" "en-US" "female" "one", mkItem 0 undefined 0 0 pending);
                     (generateKey "aws" "en-US" "female" "two", mkItem 1 undefined 1 0 pending)]
                ∧ maxItems (svc w) = 1).
    { vm_compute in E. injection E as <-. by split_and!. }
    destruct H as (Hc & Hcache & Hmi).
    refine (proj1 (result_in_a_crowd_is_dropped crowded w w' 0 _ _ 5 E Hc eq_refl _ _ _ Hs)).
    + rewrite Hcache. reflexivity.
    + rewrite Hcache. intros k it Hget Hne. simpl in Hget.
      destruct (String.eqb k _) eqn:E1 in Hget; [by apply String.eqb_eq in E1|].
      destruct (String.eqb k _) eqn:E2 in Hget; [|done]. by injection Hget as <-.
    + rewrite Hcache, Hmi. by vm_compute.
  - vm_compute in E. discriminate E.
Defined.

(** ** Pending entries *)

Lemma setCacheItem_keeps_other_pending key item s k it :
  state_ok s → JsMap.get k (cache s) = Some it → status it = pending → key ≠ k →
  JsMap.get k (cache (setCacheItem key item s)) = Some it.
Proof.
  intros Hok Hget Hst Hne. unfold setCacheItem.
  apply enforceCacheLimits_keeps_pending; [apply storeItem_ok, Hok | | done].
  by rewrite cache_storeItem, get_set_ne.
Qed.

Lemma preloadWithSettings_keeps_pending service language voice text sessionId now w w' k it :
  world_ok w →
  preloadWithSettings service language voice text sessionId now w = Returns w' →
  JsMap.get k (cache (svc w)) = Some it → status it = pending →
  JsMap.get k (cache (svc w')) = Some it.
Proof.
  intros Hok. unfold preloadWithSettings.
  destruct (JsMap.has _ _) eqn:Ehas; [by intros [= <-]|].
  destruct (ttsFn (svc w)) as [fn|]; [|done].
  destruct (fn_throws fn service language voice text); [done|].
  intros [= <-] Hget Hst.
  cbn [svc with_svc alloc]. unfold pushKey. cbn [cache with_sessionQueues].
  rewrite cache_ensureQueue.
  apply setCacheItem_keeps_other_pending; [apply state_ok_pendingPromises, Hok |done..|].
  intros Heq. apply has_false in Ehas. rewrite Heq in Ehas. congruence.
Qed.

Lemma svc_hasCompletedItem a b c d w : svc (hasCompletedItem a b c d w).2 = svc w.
Proof.
  unfold hasCompletedItem. destruct (negb _); [done|].
  by destruct (JsMap.get (generateKey a b c d) (cache (svc w))).
Qed.

Lemma svc_hasPending a b c d w : svc (hasPending a b c d w).2 = svc w.
Proof.
  unfold hasPending. destruct (negb _); [done|].
  by destruct (JsMap.get (generateKey a b c d) (cache (svc w))).
Qed.

(** X12.  A pending entry is taken away by nothing but [uninitialize] and
    the storing of a completed or failed entry under its own key: after
    any other event it is in the cache as it was.  No eviction, started by
    whatever call, removes it. *)
Theorem pending_entry_stays
    (es : list Event) (w w' : World) (e : Event) (k : string) (it : CacheItem) :
  run es initialWorld = Some w →
  JsMap.get k (cache (svc w)) = Some it → status it = pending →
  step e w = Some w' → e ≠ Uninitialize →
  JsMap.get k (cache (svc w')) = Some it
  ∨ (∃ item, terminal (status item) ∧ svc w' = setCacheItem k item (svc w)).
Proof.
  intros Hrun Hget Hst Hstep Hne.
  assert (Hok : world_ok w) by (apply reachable_ok; by exists es).
  destruct e; simpl in Hstep.
  - injection Hstep as <-. by left.
  - done.
  - injection Hstep as <-. by left.
  - injection Hstep as <-. left. by rewrite svc_hasCompletedItem.
  - injection Hstep as <-. left. by rewrite svc_hasPending.
  - injection Hstep as <-. left. by rewrite cache_setSessionSettings.
  - injection Hstep as <-. left. unfold preloadTTS. destruct (negb _); [done|].
    destruct (sessionSettings (svc w) !! sessionId) as [st|]; [|done].
    destruct (preloadWithSettings _ _ _ _ _ _ _) as [w1|e w1] eqn:Ep.
    + by eapply preloadWithSettings_keeps_pending.
    + apply preloadWithSettings_throws_svc in Ep as (Hsvc & _).
      cbn [svc raise]. by rewrite Hsvc.
  - injection Hstep as <-. left. unfold requestTTS.
    destruct (negb (initialized (svc w))) eqn:Hi; [done|].
    apply negb_false_iff in Hi.
    set (w1 := setSessionSettings sessionId service language voice w).
    set (w2 := with_svc (ensureQueue sessionId (svc w1)) w1).
    assert (Hc2 : cache (svc w2) = cache (svc w)).
    { unfold w2, w1. simpl. by rewrite cache_ensureQueue, cache_setSessionSettings. }
    assert (Hok2 : world_ok w2).
    { pose proof (world_ok_setSessionSettings w sessionId service language voice Hok)
        as [Hs Hc Ht Hh].
      split; simpl; try done.
      - apply ensureQueue_ok; [|done]. unfold w1.
        by rewrite initialized_setSessionSettings.
      - intros k' it'. rewrite cache_ensureQueue. apply Hc. }
    destruct (negb (includes _ _)); [|by cbn [svc spawn]; rewrite Hc2].
    destruct (preloadWithSettings _ _ _ _ _ _ _) as [w3|e w3] eqn:Ep.
    2:{ apply preloadWithSettings_throws_svc in Ep as (Hsvc & _).
        cbn [svc spawn]. by rewrite Hsvc, Hc2. }
    cbn [svc spawn]. eapply preloadWithSettings_keeps_pending; [exact Hok2 | exact Ep | | done].
    by rewrite Hc2.
  - destruct (heap w !! p) as [c|] eqn:Hc; [|by unfold settle in Hstep; rewrite Hc in Hstep].
    destruct (c_state c) eqn:Hs; [by unfold settle in Hstep; rewrite Hc, Hs in Hstep|].
    destruct (c_origin c) eqn:Ho.
    + rewrite (settle_preload _ _ _ _ _ Hc Hs Ho) in Hstep. injection Hstep as <-.
      cbn [svc settleCall with_svc logs].
      destruct (decide (callKey c = k)) as [<-|Hd].
      * right. eexists. split; [|reflexivity]. apply not_pending_terminal.
        apply handlerItem_value.
      * left. apply setCacheItem_keeps_other_pending; [apply Hok | done..].
    + rewrite (settle_direct _ _ _ _ _ Hc Hs Ho) in Hstep. injection Hstep as <-.
      by left.
  - unfold resume in Hstep.
    destruct (tasks w !! rid) as [[a b c0 d i waits|q|k' q|r]|] eqn:Ht; try done.
    + destruct (forallb _ _); [|done]. injection Hstep as <-. left. unfold afterBarrier.
      destruct (JsMap.get (generateKey a b c0 d) _); [by destruct (_ && _)|].
      destruct (ttsFn (svc w)) as [fn|]; [|done]. by destruct (fn_throws fn a b c0 d).
    + destruct (promiseState q w) as [r|]; [|done]. injection Hstep as <-. left.
      by destruct r.
    + destruct (promiseState q w) as [r|] eqn:Hq; [|done]. injection Hstep as <-.
      destruct r as [v|]; [|by left]. unfold afterDirect.
      destruct (not_null v) eqn:Hnn; [|by left]. cbn [svc setTask with_svc].
      destruct (decide (k' = k)) as [->|Hd].
      * right. eexists. split; [|reflexivity]. by left.
      * left. apply setCacheItem_keeps_other_pending; [apply Hok | done..].
Qed.

Lemma pending_entry_stays_witness :
  match run crowded initialWorld with
  | Some w =>
      ∀ w', step (PreloadTTS "three" "s" 2) w = Some w' →
            JsMap.get (generateKey "aws" "en-US" "female" "two") (cache (svc w'))
            = Some (mkItem 1 undefined 1 0 pending)
            ∨ (∃ item, terminal (status item)
                 ∧ svc w' = setCacheItem (generateKey "aws" "en-US" "female" "two")
                                         item (svc w))
  | None => False
  end.
Proof.
  destruct (run crowded initialWorld) as [w|] eqn:E.
  - intros w' Hs.
    refine (pending_entry_stays crowded w w' (PreloadTTS "three" "s" 2)
              (generateKey "aws" "en-US" "female" "two")
              (mkItem 1 undefined 1 0 pending) E _ eq_refl Hs _); [|discriminate].
    vm_compute in E. injection E as <-. reflexivity.
  - vm_compute in E. discriminate E.
Defined.

(** ** Exceptions and rejections *)

Lemma resume_is_task rid now w w' :
  resume rid now w = Some w' → is_Some (tasks w !! rid).
Proof. unfold resume. destruct (tasks w !! rid); [eauto | done]. Qed.

(** X13.  An exception reaches a caller, or a request is rejected, only
    when [ttsFn] itself throws, and only from [preloadWithSettings]: in a
    world in which [ttsFn] has never thrown, no public call has thrown and
    every settled request is fulfilled.  A call of [requestTTS] throws
    nothing, and the promise it returns is rejected exactly when [ttsFn]
    throws in it, with what [ttsFn] threw; [preloadTTS] throws exactly
    what [ttsFn] throws in it.  A request that goes on after an [await]
    is never rejected and throws nothing, also when [ttsFn] throws in its
    last branch.  Every request that is not rejected can be brought to
    fulfilment. *)
Theorem rejection_needs_a_throw (es : list Event) (w : World) :
  run es initialWorld = Some w →
  (thrown w = [] →
     uncaught w = []
     ∧ ∀ rid r, requestResult rid w = Some r → ∃ v, r = Fulfilled v)
  ∧ (∀ service language voice text sessionId now,
       let w1 := requestTTS service language voice text sessionId now w in
       uncaught w1 = uncaught w
       ∧ ∃ t, tasks w1 = tasks w ++ [t]
           ∧ ∀ e, t = Done (Rejected e)
                  ↔ thrown w1 = thrown w ++ [mkThrown service language voice text e])
  ∧ (∀ text sessionId now,
       let w1 := preloadTTS text sessionId now w in
       (thrown w1 = thrown w ∧ uncaught w1 = uncaught w)
       ∨ ∃ t, thrown w1 = thrown w ++ [t] ∧ uncaught w1 = uncaught w ++ [th_error t])
  ∧ (∀ rid now w1, resume rid now w = Some w1 →
       uncaught w1 = uncaught w
       ∧ ∀ e, requestResult rid w1 ≠ Some (Rejected e))
  ∧ (∀ rid t, tasks w !! rid = Some t → (∀ e, t ≠ Done (Rejected e)) →
       ∃ es' w' v, run es' w = Some w' ∧ requestResult rid w' = Some (Fulfilled v)).
Proof.
  intros Hrun.
  assert (Hok : world_ok w) by (apply reachable_ok; by exists es).
  split_and!.
  - intros Hnil.
    assert (Hcalm : calm w).
    { apply (run_quiet es initialWorld w initialWorld_ok); [by split | done | done]. }
    destruct Hcalm as [Hu Hts]. split; [done|].
    intros rid r. unfold requestResult.
    destruct (tasks w !! rid) as [[| | |r']|] eqn:Ht; try done.
    intros [= <-]. by eapply Hts.
  - intros service language voice text sessionId now w1.
    destruct (requestTTS_quiet service language voice text sessionId now w Hok)
      as (Hu & t & Ht & Hcases).
    split; [done|]. exists t. split; [done|]. intros e.
    destruct Hcases as [[Hth Hnr]|(e' & Hth & ->)].
    + split; [intros ->; by destruct (Hnr e)|].
      unfold w1. rewrite Hth. intros Heq. symmetry in Heq.
      by apply app_singleton_ne in Heq.
    + unfold w1. rewrite Hth. split; [by intros [= ->]|].
      intros Heq. apply app_inv_head in Heq. by injection Heq as ->.
  - intros text sessionId now w1. apply (preloadTTS_quiet text sessionId now w Hok).
  - intros rid now w1 Hres.
    pose proof (resume_is_task _ _ _ _ Hres) as His.
    apply resume_quiet in Hres as (Hu & _ & t & Ht & Hnr).
    split; [done|]. intros e. unfold requestResult. rewrite Ht.
    rewrite list_lookup_insert_eq by (by apply lookup_lt_is_Some).
    destruct t as [| | |r]; try done. intros [= ->]. by destruct (Hnr e).
  - intros rid t Ht Hnr. by eapply request_completes.
Qed.

Lemma rejection_needs_a_throw_witness :
  match run failingRun initialWorld with
  | Some w =>
      uncaught w = []
      ∧ ∀ rid r, requestResult rid w = Some r → ∃ v, r = Fulfilled v
  | None => False
  end.
Proof.
  destruct (run failingRun initialWorld) as [w|] eqn:E.
  - apply (rejection_needs_a_throw failingRun w E).
    vm_compute in E. injection E as <-. reflexivity.
  - vm_compute in E. discriminate E.
Defined.
